(** * teras.training.trainer: the event-driven training loop

    A shallow embedding of [Trainer.fit] and [Trainer._process]
    (src/teras/training/trainer.py) together with the collaborators the
    loop is driven through: the event registry ([Dispatcher]), the
    [Reporter] listener and the dataset batching facility.

    Python state is threaded explicitly; every notification and every call
    into an injected callable is written to a trace, which is what the
    theorems speak about.

    Two further parts follow the trainer: the handlers of a logger
    (src/teras/logging/__init__.py) and the application runner
    (src/teras/app/__init__.py). *)

From Stdlib Require Import ZArith List Floats.
From stdpp Require Import base gmap strings list.

Set Warnings "-register-all".

Open Scope Z_scope.

(** ** Python exceptions *)

Inductive exn :=
| ValueError
| AssertionError
| RuntimeError
| ZeroDivisionError
| TypeError
| IndexError
| KeyError
| AttributeError
| ConfigurationError
| StateError
| UserError (code : nat).

Inductive Res (A : Type) :=
| Ok (a : A)
| Raise (e : exn).
Arguments Ok {A} a.
Arguments Raise {A} e.

(** ** Injected callables

    A callable supplied from outside runs on a state of type [St] and
    either returns or raises.  The state survives an exception: whatever
    the callable did before it raised stays done. *)

Definition SE (St A : Type) : Type := St -> St * Res A.

Definition ret {St A} (a : A) : SE St A := fun s => (s, Ok a).

Definition raise {St A} (e : exn) : SE St A := fun s => (s, Raise e).

Definition bind {St A B} (m : SE St A) (k : A -> SE St B) : SE St B :=
  fun s => match m s with
           | (s1, Ok a) => k a s1
           | (s1, Raise e) => (s1, Raise e)
           end.

Declare Scope se_scope.
Delimit Scope se_scope with se.
Notation "x <~ m ;; k" := (bind m (fun x => k))
  (at level 100, m at next level, right associativity) : se_scope.
Open Scope se_scope.

(** ** Events *)

(** Modelled from the spec: [TrainEvent] (teras/training/event.py) is not
    among the sources verified here; the spec fixes its ten members. *)
Inductive TrainEvent :=
| TRAIN_BEGIN
| EPOCH_BEGIN
| EPOCH_TRAIN_BEGIN
| BATCH_BEGIN
| BATCH_END
| EPOCH_TRAIN_END
| EPOCH_VALIDATE_BEGIN
| EPOCH_VALIDATE_END
| EPOCH_END
| TRAIN_END.

Global Instance TrainEvent_eq_dec : EqDecision TrainEvent.
Proof. solve_decision. Defined.

(** ** Floating-point numbers

    The loop only adds losses, divides the sum by an integer and converts
    a loss to a float.  Those operations are kept abstract, so that every
    theorem holds of IEEE doubles (instance [binary64] below) as of any
    other carrier. *)

Class FloatOps (F : Type) := {
  f0 : F;                       (* 0.0 *)
  fadd : F -> F -> F;           (* a + b *)
  fdiv : F -> F -> F;           (* a / b, b not zero *)
  f_of_Z : Z -> F;              (* float(n) *)
  f_is_zero : F -> bool         (* a == 0.0 *)
}.

Definition Z2float (z : Z) : float :=
  SF2Prim (binary_normalize prec emax z 0 false).

Definition binary64 : FloatOps float := {|
  f0 := 0%float;
  fadd := PrimFloat.add;
  fdiv := PrimFloat.div;
  f_of_Z := Z2float;
  f_is_zero := fun x => PrimFloat.eqb x 0%float
|}.

Section Model.

(** [U] is the state owned by the injected callables (model parameters,
    optimizer state, the random generator used for shuffling, ...);
    [Optimizer] is the optimizer object handed to the update strategy. *)
Context {F : Type} {FO : FloatOps F} {U Optimizer : Type}.

(** ** Python values

    Arrays, tuples and lists are sequences of values; a batch is a
    sequence of columns and a column a sequence of rows. *)

Inductive value :=
| VNone
| VBool (b : bool)
| VInt (z : Z)
| VFloat (x : F)
| VSeq (l : list value).

(** [bool(v)] *)
Definition py_truthy (v : value) : bool :=
  match v with
  | VNone => false
  | VBool b => b
  | VInt z => negb (z =? 0)
  | VFloat x => negb (f_is_zero x)
  | VSeq l => match l with [] => false | _ => true end
  end.

(** [len(v)] *)
Definition py_len (v : value) : Res Z :=
  match v with
  | VSeq l => Ok (Z.of_nat (length l))
  | _ => Raise TypeError
  end.

(** [*v] and tuple unpacking: the items of an iterable *)
Definition py_iter (v : value) : Res (list value) :=
  match v with
  | VSeq l => Ok l
  | _ => Raise TypeError
  end.

(** [v[:-1]] *)
Definition py_init (v : value) : Res (list value) :=
  match v with
  | VSeq l => Ok (removelast l)
  | _ => Raise TypeError
  end.

(** [v[-1]] *)
Definition py_last (v : value) : Res value :=
  match v with
  | VSeq l => match last l with
              | Some x => Ok x
              | None => Raise IndexError
              end
  | _ => Raise TypeError
  end.

(** [v.__float__()] *)
Definition py_float (v : value) : Res F :=
  match v with
  | VFloat x => Ok x
  | VInt z => Ok (f_of_Z z)
  | VBool b => Ok (f_of_Z (if b then 1 else 0))
  | _ => Raise AttributeError
  end.

(** [v + x] for a float [x] *)
Definition py_add_float (v : value) (x : F) : Res value :=
  match v with
  | VFloat a => Ok (VFloat (fadd a x))
  | VInt z => Ok (VFloat (fadd (f_of_Z z) x))
  | VBool b => Ok (VFloat (fadd (f_of_Z (if b then 1 else 0)) x))
  | _ => Raise TypeError
  end.

(** [v / n] for an int [n] *)
Definition py_div_int (v : value) (n : Z) : Res value :=
  match v with
  | VFloat a =>
      if n =? 0 then Raise ZeroDivisionError
      else Ok (VFloat (fdiv a (f_of_Z n)))
  | VInt z =>
      if n =? 0 then Raise ZeroDivisionError
      else Ok (VFloat (fdiv (f_of_Z z) (f_of_Z n)))
  | VBool b =>
      if n =? 0 then Raise ZeroDivisionError
      else Ok (VFloat (fdiv (f_of_Z (if b then 1 else 0)) (f_of_Z n)))
  | _ => Raise TypeError
  end.

(** [math.ceil(n / b)] on ints: the ceiling of the exact quotient ([/] on
    [Z] rounds towards minus infinity, as Python's [//]). *)
Definition ceil_div (n b : Z) : Z := - ((- n) / b).

Definition py_ceil_div (n b : Z) : Res Z :=
  if b =? 0 then Raise ZeroDivisionError else Ok (ceil_div n b).

(** ** Log records: the dicts handed to [notify] *)

Abbreviation Log := (gmap string value).

(** [d[k]] *)
Definition py_getitem (d : Log) (k : string) : Res value :=
  match d !! k with
  | Some v => Ok v
  | None => Raise KeyError
  end.

(** ** The world outside the trainer *)

(** Modelled from the spec: the [listeners] module (Reporter and
    [listeners.report]) is not among the sources verified here.  The spec
    describes a stack of aggregation frames, one per open scope; a frame
    holds the metrics reported while it was innermost, oldest first. *)
Definition Frame : Type := list (string * value).

(** The state of the callables and the reporter frames, innermost
    first. *)
Record World := {
  user : U;
  frames : list Frame
}.

(** Injected callables run on the world and may raise. *)
Abbreviation Ext := (SE World).

(** A listener callback or a hook: it receives the record, may change the
    world and hands the (possibly mutated) record back.  A callback acts
    on the record it is handed; it keeps no reference to a record beyond
    the call. *)
Definition Callback : Type := Log -> Ext Log.

(** Modelled from the spec: [listeners.report(mapping)] adds each metric to
    the innermost frame and fails with StateError outside any scope. *)
Definition report (values : list (string * value)) : Ext unit :=
  fun w => match frames w with
           | [] => (w, Raise StateError)
           | fr :: rest =>
               ({| user := user w; frames := (fr ++ values) :: rest |}, Ok tt)
           end.

(** How a frame is summarised when its scope closes (running means and
    the like); the spec leaves the aggregate open. *)
Variable finalize : Frame -> Frame.

(** Modelled from the spec: entering the reporter's scope pushes an empty
    frame. *)
Definition reporter_enter (w : World) : World :=
  {| user := user w; frames := [] :: frames w |}.

(** Modelled from the spec: leaving the scope pops the innermost frame and
    attaches its aggregate to the enclosing frame; the outermost aggregate
    is discarded. *)
Definition reporter_exit (w : World) : World :=
  match frames w with
  | [] => w
  | [fr] => {| user := user w; frames := [] |}
  | fr :: outer :: rest =>
      {| user := user w; frames := (outer ++ finalize fr) :: rest |}
  end.

(** ** Datasets

    [teras.dataset.Dataset] is an external collaborator: it exposes its
    [size] and [batch(batch_size, colwise, shuffle)].  The batches of one
    pass are taken when the loop starts; shuffling draws on the world. *)

Record Dataset := {
  ds_size : Z;
  ds_truthy : bool;             (* bool(dataset) *)
  ds_batch : Z -> bool -> Ext (list value)
}.

(** An argument of [fit]: a dataset object or any other value. *)
Inductive pyobj :=
| ODataset (d : Dataset)
| OValue (v : value).

Definition is_None (o : pyobj) : bool :=
  match o with
  | OValue VNone => true
  | _ => false
  end.

(** [Dataset(x, y)], the constructor wrapping raw arrays. *)
Variable Dataset_new : pyobj -> pyobj -> Dataset.

(** ** Listeners and the dispatcher *)

(** Modelled from the spec: a listener is an object with an identity, at
    most one callback per event (the method named after the event) and an
    optional [initialize]. *)
Record Listener := {
  l_id : nat;                                   (* object identity *)
  l_on : TrainEvent -> option Callback;         (* method named after the event *)
  l_initialize : option (Ext unit)
}.

(** Who is being called back. *)
Inductive CbId :=
| ByListener (id : nat)
| ByHook (index : nat).

(** ** The trace *)

Inductive Call :=
| CBatch (dataset : Dataset) (batch_size : Z) (shuffle : bool)
                                            (* dataset.batch(batch_size, shuffle=shuffle) *)
| CConvert (arg : value)
| CForward (args : list value)
| CLoss (ys ts : value)
| CUpdate (opt : Optimizer) (loss : value).

Inductive Action :=
| ANotify (ev : TrainEvent) (log : Log)     (* notify(ev, log) is entered *)
| ACbCall (who : CbId) (ev : TrainEvent) (log : Log) (fs : list Frame)
                                            (* a callback is entered with this record,
                                               the reporter frames being [fs] *)
| ACbRet (log : Log)                        (* the callback returned *)
| ACbExn (e : exn)                          (* the callback raised *)
| ACall (c : Call)                          (* an injected callable is entered *)
| ARet (v : value)                          (* it returned [v] *)
| AExn (e : exn).                           (* it raised *)

(** Trace entries that belong to callbacks run inside a notification. *)
Definition is_cb (a : Action) : bool :=
  match a with
  | ACbCall _ _ _ _ | ACbRet _ | ACbExn _ => true
  | _ => false
  end.

(** What the trainer itself did: notifications and calls of the injected
    callables, callbacks left out. *)
Definition core (t : list Action) : list Action :=
  filter (fun a => is_cb a = false) t.

(** The events notified, in order. *)
Definition events_of (t : list Action) : list TrainEvent :=
  omap (fun a => match a with ANotify ev _ => Some ev | _ => None end) t.

(** The exception an entry reports, if it reports one. *)
Definition raised (a : Action) : option exn :=
  match a with
  | ACbExn e | AExn e => Some e
  | _ => None
  end.

(** ** The trainer object *)

(** [self._forward]: a callable, an object with a [forward] attribute, or
    neither. *)
Inductive Forward :=
| FCallable (f : list value -> Ext value)
| FModule (forward : list value -> Ext value)
| FInvalid.

Record Trainer := {
  _optimizer : Optimizer;
  _forward : Forward;
  _loss_func : value -> value -> Ext value;
  _acc_func : option (value -> value -> Ext value);
  _update : Optimizer -> value -> Ext unit;
  _converter : option (value -> Ext value);   (* None: not callable *)
  _reporter : option Listener;
  (* Dispatcher *)
  _listeners : list (Z * Listener);           (* (priority, listener), in notification order *)
  _hooks : list (TrainEvent * Callback)       (* in registration order *)
}.

Definition set_update (u : Optimizer -> value -> Ext unit) (t : Trainer) : Trainer :=
  {| _optimizer := _optimizer t; _forward := _forward t;
     _loss_func := _loss_func t; _acc_func := _acc_func t;
     _update := u; _converter := _converter t;
     _reporter := _reporter t; _listeners := _listeners t;
     _hooks := _hooks t |}.

Definition set_reporter (r : option Listener) (t : Trainer) : Trainer :=
  {| _optimizer := _optimizer t; _forward := _forward t;
     _loss_func := _loss_func t; _acc_func := _acc_func t;
     _update := _update t; _converter := _converter t;
     _reporter := r; _listeners := _listeners t;
     _hooks := _hooks t |}.

Definition set_listeners (ls : list (Z * Listener)) (t : Trainer) : Trainer :=
  {| _optimizer := _optimizer t; _forward := _forward t;
     _loss_func := _loss_func t; _acc_func := _acc_func t;
     _update := _update t; _converter := _converter t;
     _reporter := _reporter t; _listeners := ls;
     _hooks := _hooks t |}.

Definition set_hooks (hs : list (TrainEvent * Callback)) (t : Trainer) : Trainer :=
  {| _optimizer := _optimizer t; _forward := _forward t;
     _loss_func := _loss_func t; _acc_func := _acc_func t;
     _update := _update t; _converter := _converter t;
     _reporter := _reporter t; _listeners := _listeners t;
     _hooks := hs |}.

(** The default update strategy of [_initialize] (clear the gradients,
    back-propagate, step): calls into the optimizer's own API. *)
Variable default_update : Optimizer -> value -> Ext unit.

(** [Trainer.__init__] *)
Definition Trainer_init (optimizer : Optimizer) (forward : Forward)
    (loss_func : value -> value -> Ext value)
    (accuracy_func : option (value -> value -> Ext value)) : Trainer :=
  {| _optimizer := optimizer; _forward := forward;
     _loss_func := loss_func; _acc_func := accuracy_func;
     _update := default_update; _converter := None;
     _reporter := None; _listeners := []; _hooks := [] |}.

(** ** The machine: the world and the trainer object *)

Record Machine := {
  world : World;
  self : Trainer
}.

(** A trainer method: it changes the machine, writes a trace and returns
    or raises. *)
Definition M (A : Type) : Type := Machine -> Machine * list Action * Res A.

Definition mret {A} (a : A) : M A := fun s => (s, [], Ok a).

Definition mraise {A} (e : exn) : M A := fun s => (s, [], Raise e).

Definition mbind {A B} (m : M A) (k : A -> M B) : M B :=
  fun s => match m s with
           | (s1, t1, Ok a) =>
               match k a s1 with
               | (s2, t2, r) => (s2, t1 ++ t2, r)
               end
           | (s1, t1, Raise e) => (s1, t1, Raise e)
           end.

Notation "x <- m ;; k" := (mbind m (fun x => k))
  (at level 100, m at next level, right associativity) : se_scope.
Notation "m ;;; k" := (mbind m (fun _ => k))
  (at level 100, right associativity) : se_scope.

Definition lift_res {A} (r : Res A) : M A := fun s => (s, [], r).

Definition get_self : M Trainer := fun s => (s, [], Ok (self s)).

Definition modify_self (f : Trainer -> Trainer) : M unit :=
  fun s => ({| world := world s; self := f (self s) |}, [], Ok tt).

Definition modify_world (f : World -> World) : M unit :=
  fun s => ({| world := f (world s); self := self s |}, [], Ok tt).

(** A call that is not traced (a listener's [initialize]). *)
Definition lift_ext {A} (f : Ext A) : M A :=
  fun s => match f (world s) with
           | (w, r) => ({| world := w; self := self s |}, [], r)
           end.

(** Call an injected callable, tracing the call and its outcome. *)
Definition ext_call {A} (c : Call) (enc : A -> value) (f : Ext A) : M A :=
  fun s => match f (world s) with
           | (w, Ok a) =>
               ({| world := w; self := self s |}, [ACall c; ARet (enc a)], Ok a)
           | (w, Raise e) =>
               ({| world := w; self := self s |}, [ACall c; AExn e], Raise e)
           end.

(** Run one callback on the record. *)
Definition call_cb (who : CbId) (ev : TrainEvent) (cb : Callback) (log : Log) : M Log :=
  fun s => match cb log (world s) with
           | (w, Ok log') =>
               ({| world := w; self := self s |},
                [ACbCall who ev log (frames (world s)); ACbRet log'], Ok log')
           | (w, Raise e) =>
               ({| world := w; self := self s |},
                [ACbCall who ev log (frames (world s)); ACbExn e], Raise e)
           end.

(** Modelled from the spec: [with self._reporter: body].  The scope is
    left on every exit path and an exception of the body goes on to the
    caller. *)
Definition with_reporter {A} (body : M A) : M A :=
  fun s =>
    match body {| world := reporter_enter (world s); self := self s |} with
    | (s1, t, r) => ({| world := reporter_exit (world s1); self := self s1 |}, t, r)
    end.

(** ** The dispatcher

    [Dispatcher] (teras/training/event.py) is not part of the sources at
    hand; what follows is the dispatcher of the spec.  Listeners are
    notified by ascending priority, ties by registration order; hooks
    follow all listeners, in registration order; every callback gets the
    same record; an exception of a callback goes to the caller of
    [notify]. *)

(** Modelled from the spec: the listeners are kept in notification order;
    a new one goes behind every listener of lower or equal priority. *)
Fixpoint insert_by_priority (x : Z * Listener) (ls : list (Z * Listener))
    : list (Z * Listener) :=
  match ls with
  | [] => [x]
  | y :: ls' =>
      if fst x <? fst y then x :: y :: ls'
      else y :: insert_by_priority x ls'
  end.

(** Modelled from the spec: whether this very instance is attached. *)
Definition attached (id : nat) (ls : list (Z * Listener)) : bool :=
  existsb (fun pl => Nat.eqb (l_id (snd pl)) id) ls.

(** Modelled from the spec: [attach_listener(listener, priority)] fails
    with ConfigurationError if the same instance is attached already, and
    calls the listener's [initialize] if it has one. *)
Definition attach_listener (l : Listener) (priority : Z) : M unit :=
  t <- get_self ;;
  if attached (l_id l) (_listeners t) then mraise ConfigurationError
  else
    modify_self (set_listeners (insert_by_priority (priority, l) (_listeners t))) ;;;
    match l_initialize l with
    | Some init => lift_ext init
    | None => mret tt
    end.

(** Modelled from the spec: [add_hook(event, callable)]. *)
Definition add_hook (ev : TrainEvent) (hook : Callback) : M unit :=
  modify_self (fun t => set_hooks (_hooks t ++ [(ev, hook)]) t).

(** Modelled from the spec: the callbacks the listeners have for an
    event. *)
Definition listener_callbacks (ev : TrainEvent) (ls : list (Z * Listener))
    : list (CbId * Callback) :=
  omap (fun pl => match l_on (snd pl) ev with
                  | Some cb => Some (ByListener (l_id (snd pl)), cb)
                  | None => None
                  end) ls.

(** Modelled from the spec: the hooks registered for an event, each with
    its registration index. *)
Fixpoint hook_callbacks (ev : TrainEvent) (i : nat) (hs : list (TrainEvent * Callback))
    : list (CbId * Callback) :=
  match hs with
  | [] => []
  | (e, cb) :: hs' =>
      if decide (e = ev) then (ByHook i, cb) :: hook_callbacks ev (S i) hs'
      else hook_callbacks ev (S i) hs'
  end.

(** Modelled from the spec: the callbacks of one notification, in the
    order they run: the listeners first, then the hooks. *)
Definition callbacks_for (t : Trainer) (ev : TrainEvent) : list (CbId * Callback) :=
  listener_callbacks ev (_listeners t) ++ hook_callbacks ev 0 (_hooks t).

(** Modelled from the spec: the callbacks run one after the other on the
    same record; the first exception ends the notification. *)
Fixpoint run_callbacks (ev : TrainEvent) (cbs : list (CbId * Callback)) (log : Log)
    : M Log :=
  match cbs with
  | [] => mret log
  | (who, cb) :: cbs' =>
      log' <- call_cb who ev cb log ;;
      run_callbacks ev cbs' log'
  end.

(** Modelled from the spec: [notify(event, log_record)].  The record the
    callbacks leave behind is handed back: the caller's dict is the one
    they mutated. *)
Definition notify (ev : TrainEvent) (log : Log) : M Log :=
  fun s => match run_callbacks ev (callbacks_for (self s) ev) log s with
           | (s', t, r) => (s', ANotify ev log :: t, r)
           end.

(** ** [Trainer.fit] and [Trainer._process] *)

(** [__debug__]: whether [assert] statements are executed (they are not
    under [python -O]). *)
Variable py_debug : bool.

(** The methods of a [listeners.Reporter] object, as the dispatcher sees
    them. *)
Variable Reporter_on : TrainEvent -> option Callback.
Variable Reporter_initialize : option (Ext unit).

Definition fresh_id (ls : list (Z * Listener)) : nat :=
  S (foldr Nat.max 0%nat (map (fun pl => l_id (snd pl)) ls)).

(** Modelled from the spec: [listeners.Reporter()] makes a new listener. *)
Definition Reporter_new (id : nat) : Listener :=
  {| l_id := id; l_on := Reporter_on; l_initialize := Reporter_initialize |}.

(** The spec's name for the error [fit] raises on malformed arguments;
    the code raises [ValueError]. *)
Definition InvalidArgument : exn := ValueError.

(** fit, lines 49-56: the training data. *)
Definition train_data (x y : pyobj) : Res Dataset :=
  match x with
  | ODataset d =>
      if py_debug && negb (is_None y) then Raise AssertionError   (* assert y is None *)
      else Ok d
  | OValue _ =>
      if negb (is_None y) then Ok (Dataset_new x y)
      else Raise ValueError
  end.

Definition obj_truthy (o : pyobj) : bool :=
  match o with
  | ODataset d => ds_truthy d
  | OValue v => py_truthy v
  end.

(** fit, lines 58-71: the validation data; [None] stands for
    [do_validation = False]. *)
Definition validation (validation_data : pyobj) : Res (option Dataset) :=
  if obj_truthy validation_data then
    match validation_data with
    | ODataset d => Ok (Some d)
    | OValue v =>
        match py_len v with
        | Ok n =>
            if n =? 2 then
              match py_iter v with
              | Ok [val_x; val_y] =>
                  Ok (Some (Dataset_new (OValue val_x) (OValue val_y)))
              | Ok _ => Raise ValueError
              | Raise e => Raise e
              end
            else Raise ValueError
        | Raise e => Raise e
        end
    end
  else Ok None.

Definition of_res {St A} (r : Res A) : SE St A := fun s => (s, r).

(** fit, lines 76-78: the hook registered on BATCH_END when an accuracy
    function was given. *)
Definition _report_accuracy (acc_func : value -> value -> Ext value) : Callback :=
  fun data =>
    ys <~ of_res (py_getitem data "ys") ;;
    ts <~ of_res (py_getitem data "ts") ;;
    a <~ acc_func ys ts ;;
    _ <~ report [("accuracy"%string, a)] ;;
    ret data.

(** [convert(v)]; with no callable converter it is [lambda x: x]. *)
Definition apply_convert (convert : option (value -> Ext value)) (v : value) : M value :=
  match convert with
  | Some c => ext_call (CConvert v) (fun r => r) (c v)
  | None => mret v
  end.

Definition phase_begin (train : bool) : TrainEvent :=
  if train then EPOCH_TRAIN_BEGIN else EPOCH_VALIDATE_BEGIN.

Definition phase_end (train : bool) : TrainEvent :=
  if train then EPOCH_TRAIN_END else EPOCH_VALIDATE_END.

(** The record of one batch (lines 145-154). *)
Definition new_batch_logs (train : bool) (batch_index : nat) (batch_size : Z)
    (xs ts : value) (num_batches : Z) : Log :=
  <["train" := VBool train]>
  (<["batch_index" := VInt (Z.of_nat batch_index)]>
  (<["batch_size" := VInt batch_size]>
  (<["xs" := xs]>
  (<["ts" := ts]>
  (<["ys" := VNone]>
  (<["loss" := VNone]>
  (<["num_batches" := VInt num_batches]> ∅))))))).

(** _process, lines 138-167: the body of the loop over the batches.
    [logs] is the record of the phase; the body hands it back with the
    loss of this batch added. *)
Definition batch_step (forward : list value -> Ext value)
    (lossfun : value -> value -> Ext value)
    (convert : option (value -> Ext value))
    (num_batches : Z) (train : bool)
    (batch_index : nat) (batch : value) (logs : Log) : M Log :=
  xs <- lift_res (py_init batch) ;;
  ts <- lift_res (py_last batch) ;;
  xs <- match xs with
        | [x0] => c <- apply_convert convert x0 ;; mret (VSeq [c])
        | _ => apply_convert convert (VSeq xs)
        end ;;
  ts <- apply_convert convert ts ;;
  n <- lift_res (py_len ts) ;;
  batch_logs <- notify BATCH_BEGIN
                  (new_batch_logs train batch_index n xs ts num_batches) ;;
  args <- lift_res (py_iter xs) ;;
  ys <- ext_call (CForward args) (fun r => r) (forward args) ;;
  loss <- ext_call (CLoss ys ts) (fun r => r) (lossfun ys ts) ;;
  let batch_logs := <["ys" := ys]> batch_logs in
  l <- lift_res (py_float loss) ;;
  let batch_logs := <["loss" := VFloat l]> batch_logs in
  cur <- lift_res (py_getitem logs "loss") ;;
  l' <- lift_res (py_float loss) ;;
  sum <- lift_res (py_add_float cur l') ;;
  let logs := <["loss" := sum]> logs in
  (if train then
     t <- get_self ;;
     ext_call (CUpdate (_optimizer t) loss) (fun _ => VNone)
       (_update t (_optimizer t) loss)
   else mret tt) ;;;
  _ <- notify BATCH_END batch_logs ;;
  mret logs.

(** [for batch_index, batch in enumerate(...)] *)
Fixpoint batch_loop (body : nat -> value -> Log -> M Log)
    (batch_index : nat) (batches : list value) (logs : Log) : M Log :=
  match batches with
  | [] => mret logs
  | batch :: rest =>
      logs' <- body batch_index batch logs ;;
      batch_loop body (S batch_index) rest logs'
  end.

(** [Trainer._process].  The caller's record comes in as [logs0] and is
    handed back as the call leaves it; the method works on a copy. *)
Definition _process (forward : list value -> Ext value) (dataset : Dataset)
    (lossfun : value -> value -> Ext value)
    (convert : option (value -> Ext value))
    (batch_size : Z) (logs0 : Log) (train : bool) : M Log :=
  let logs := logs0 in                                   (* logs.copy() *)
  let logs := <["size" := VInt (ds_size dataset)]> logs in
  num_batches <- lift_res (py_ceil_div (ds_size dataset) batch_size) ;;
  let logs := <["num_batches" := VInt num_batches]> logs in
  let logs := <["loss" := VNone]> logs in
  logs <- notify (phase_begin train) logs ;;
  let logs := <["loss" := VFloat f0]> logs in
  batches <- ext_call (CBatch dataset batch_size train) VSeq
               (ds_batch dataset batch_size train) ;;
  logs <- batch_loop (batch_step forward lossfun convert num_batches train)
            0 batches logs ;;
  cur <- lift_res (py_getitem logs "loss") ;;
  mean <- lift_res (py_div_int cur num_batches) ;;
  let logs := <["loss" := mean]> logs in
  _ <- notify (phase_end train) logs ;;
  mret logs0.

(** [range(1, epochs + 1)] *)
Definition epoch_range (epochs : Z) : list Z :=
  map (fun i => 1 + Z.of_nat i) (seq 0 (Z.to_nat epochs)).

(** main_loop, lines 97-109: the body of the loop over the epochs. *)
Definition epoch_step (forward : list value -> Ext value)
    (train_dataset : Dataset) (val_dataset : option Dataset)
    (lossfun : value -> value -> Ext value)
    (convert : option (value -> Ext value))
    (batch_size : Z) (epoch : Z) : M unit :=
  let epoch_logs : Log :=
    <["epoch" := VInt epoch]> (<["size" := VInt (ds_size train_dataset)]> ∅) in
  epoch_logs <- notify EPOCH_BEGIN epoch_logs ;;
  epoch_logs <- _process forward train_dataset lossfun convert batch_size
                  epoch_logs true ;;
  epoch_logs <- match val_dataset with
                | Some vd => _process forward vd lossfun convert batch_size
                               epoch_logs false
                | None => mret epoch_logs
                end ;;
  _ <- notify EPOCH_END epoch_logs ;;
  mret tt.

Fixpoint epoch_loop (body : Z -> M unit) (epochs : list Z) : M unit :=
  match epochs with
  | [] => mret tt
  | epoch :: rest => body epoch ;;; epoch_loop body rest
  end.

Definition main_loop (forward : list value -> Ext value)
    (train_dataset : Dataset) (val_dataset : option Dataset)
    (lossfun : value -> value -> Ext value)
    (convert : option (value -> Ext value))
    (batch_size : Z) (epochs : Z) : M unit :=
  epoch_loop (epoch_step forward train_dataset val_dataset lossfun convert batch_size)
    (epoch_range epochs).

(** [Trainer.fit] *)
Definition fit (x y : pyobj) (batch_size epochs : Z) (validation_data : pyobj)
    : M (list value) :=
  train_dataset <- lift_res (train_data x y) ;;
  val_dataset <- lift_res (validation validation_data) ;;
  t <- get_self ;;
  let reporter := Reporter_new (fresh_id (_listeners t)) in
  modify_self (set_reporter (Some reporter)) ;;;
  attach_listener reporter 150 ;;;
  match _acc_func t with
  | Some acc_func => add_hook BATCH_END (_report_accuracy acc_func)
  | None => mret tt
  end ;;;
  forward <- match _forward t with
             | FCallable f => mret f
             | FModule f => mret f
             | FInvalid => mraise RuntimeError
             end ;;
  let lossfun := _loss_func t in
  let convert := _converter t in
  let history : list value := [] in
  _ <- notify TRAIN_BEGIN ∅ ;;
  t <- get_self ;;
  match _reporter t with
  | Some _ =>
      with_reporter
        (main_loop forward train_dataset val_dataset lossfun convert batch_size epochs)
  | None =>
      main_loop forward train_dataset val_dataset lossfun convert batch_size epochs
  end ;;;
  _ <- notify TRAIN_END ∅ ;;
  mret history.

(** * Reasoning about runs *)

(** ** Taking a run apart *)

Lemma mbind_inv {A B} (m : M A) (k : A -> M B) s s' t r :
  mbind m k s = (s', t, r) ->
  (exists s1 t1 a t2,
      m s = (s1, t1, Ok a) /\ k a s1 = (s', t2, r) /\ t = t1 ++ t2) \/
  (exists e, m s = (s', t, Raise e) /\ r = Raise e).
Proof.
  unfold mbind. destruct (m s) as [[s1 t1] [a|e]].
  - destruct (k a s1) as [[s2 t2] r2] eqn:Hk. intros [= <- <- <-].
    left. by exists s1, t1, a, t2.
  - intros [= <- <- <-]. right. by exists e.
Qed.

Lemma mret_inv {A} (a : A) s s' t r :
  mret a s = (s', t, r) -> s' = s /\ t = [] /\ r = Ok a.
Proof. by intros [= <- <- <-]. Qed.

Lemma mraise_inv {A} e s s' t (r : Res A) :
  mraise e s = (s', t, r) -> s' = s /\ t = [] /\ r = Raise e.
Proof. by intros [= <- <- <-]. Qed.

Lemma lift_res_inv {A} (x : Res A) s s' t r :
  lift_res x s = (s', t, r) -> s' = s /\ t = [] /\ r = x.
Proof. by intros [= <- <- <-]. Qed.

Lemma get_self_inv s s' t r :
  get_self s = (s', t, r) -> s' = s /\ t = [] /\ r = Ok (self s).
Proof. by intros [= <- <- <-]. Qed.

Lemma ext_call_inv {A} c enc (f : Ext A) s s' t r :
  ext_call c enc f s = (s', t, r) ->
  self s' = self s /\
  ((exists a, r = Ok a /\ f (world s) = (world s', Ok a) /\
              t = [ACall c; ARet (enc a)]) \/
   (exists e, r = Raise e /\ f (world s) = (world s', Raise e) /\
              t = [ACall c; AExn e])).
Proof.
  unfold ext_call. destruct (f (world s)) as [w [a|e]]; intros [= <- <- <-];
    (split; [done|]); [left|right]; eauto.
Qed.

Lemma call_cb_inv who ev cb log s s' t r :
  call_cb who ev cb log s = (s', t, r) ->
  self s' = self s /\
  ((exists log', r = Ok log' /\ cb log (world s) = (world s', Ok log') /\
                 t = [ACbCall who ev log (frames (world s)); ACbRet log']) \/
   (exists e, r = Raise e /\ cb log (world s) = (world s', Raise e) /\
              t = [ACbCall who ev log (frames (world s)); ACbExn e])).
Proof.
  unfold call_cb. destruct (cb log (world s)) as [w [a|e]]; intros [= <- <- <-];
    (split; [done|]); [left|right]; eauto.
Qed.

(** Split a run at its first bind; primitive steps are resolved on the
    spot. *)
Ltac msplit H :=
  let s1 := fresh "s" in
  let t1 := fresh "t" in
  let a := fresh "a" in
  let t2 := fresh "t" in
  let e := fresh "e" in
  let Hm := fresh "Hm" in
  let Hk := fresh "Hk" in
  apply mbind_inv in H;
  destruct H as [(s1 & t1 & a & t2 & Hm & Hk & ->) | (e & Hm & ->)].

Tactic Notation "mcase" hyp(H) "as" ident(s1) ident(t1) ident(a) ident(t2)
    ident(Hm) ident(Hk) :=
  let e := fresh "e" in
  apply mbind_inv in H;
  destruct H as [(s1 & t1 & a & t2 & Hm & Hk & ->) | (e & Hm & ->)];
  cbv beta in *.

Ltac mprim H :=
  first
    [ apply mret_inv in H; destruct H as (-> & -> & ?)
    | apply mraise_inv in H; destruct H as (-> & -> & ?)
    | apply lift_res_inv in H; destruct H as (-> & -> & ?)
    | apply get_self_inv in H; destruct H as (-> & -> & ?) ];
  simplify_eq.

(** ** The trainer object is not touched while the loop runs *)

Definition keeps_self {A} (m : M A) : Prop :=
  forall s s' t r, m s = (s', t, r) -> self s' = self s.

Lemma keeps_self_bind {A B} (m : M A) (k : A -> M B) :
  keeps_self m -> (forall a, keeps_self (k a)) -> keeps_self (mbind m k).
Proof.
  intros Hm Hk s s' t r H. msplit H.
  - apply Hm in Hm0. apply Hk in Hk0. congruence.
  - by apply Hm in Hm0.
Qed.

Lemma keeps_self_ret {A} (a : A) : keeps_self (mret a).
Proof. intros s s' t r H. by mprim H. Qed.

Lemma keeps_self_raise {A} e : keeps_self (@mraise A e).
Proof. intros s s' t r H. by mprim H. Qed.

Lemma keeps_self_lift_res {A} (x : Res A) : keeps_self (lift_res x).
Proof. intros s s' t r H. by mprim H. Qed.

Lemma keeps_self_get : keeps_self get_self.
Proof. intros s s' t r H. by mprim H. Qed.

Lemma keeps_self_ext_call {A} c enc (f : Ext A) : keeps_self (ext_call c enc f).
Proof. intros s s' t r H. by apply ext_call_inv in H as [? _]. Qed.

Lemma keeps_self_call_cb who ev cb log : keeps_self (call_cb who ev cb log).
Proof. intros s s' t r H. by apply call_cb_inv in H as [? _]. Qed.

Lemma keeps_self_run_callbacks ev cbs log : keeps_self (run_callbacks ev cbs log).
Proof.
  revert log. induction cbs as [|[who cb] cbs IH]; intros log; simpl.
  - apply keeps_self_ret.
  - apply keeps_self_bind; [apply keeps_self_call_cb | intros; apply IH].
Qed.

Lemma notify_inv ev log s s' t r :
  notify ev log s = (s', t, r) ->
  exists t', t = ANotify ev log :: t' /\
             run_callbacks ev (callbacks_for (self s) ev) log s = (s', t', r).
Proof.
  unfold notify.
  destruct (run_callbacks _ _ _ _) as [[s1 t1] r1]. intros [= <- <- <-]. eauto.
Qed.

Lemma keeps_self_notify ev log : keeps_self (notify ev log).
Proof.
  intros s s' t r H. apply notify_inv in H as (t' & _ & H).
  by apply keeps_self_run_callbacks in H.
Qed.

Lemma with_reporter_inv {A} (body : M A) s s' t r :
  with_reporter body s = (s', t, r) ->
  exists s1,
    body {| world := reporter_enter (world s); self := self s |} = (s1, t, r) /\
    s' = {| world := reporter_exit (world s1); self := self s1 |}.
Proof.
  unfold with_reporter. destruct (body _) as [[s1 t1] r1]. intros [= <- <- <-]. eauto.
Qed.

Lemma keeps_self_with_reporter {A} (body : M A) :
  keeps_self body -> keeps_self (with_reporter body).
Proof.
  intros Hb s s' t r H. apply with_reporter_inv in H as (s1 & H & ->).
  by apply Hb in H.
Qed.

Create HintDb keeps discriminated.
#[local] Hint Resolve keeps_self_ret keeps_self_raise keeps_self_lift_res
  keeps_self_get keeps_self_ext_call keeps_self_call_cb keeps_self_notify
  keeps_self_run_callbacks : keeps.

Ltac keeps_step :=
  match goal with
  | |- keeps_self (mbind _ _) => apply keeps_self_bind; [|intros]
  | |- keeps_self (match ?x with _ => _ end) => destruct x
  | |- keeps_self _ => solve [auto with keeps]
  end.

Lemma keeps_self_apply_convert convert v : keeps_self (apply_convert convert v).
Proof. unfold apply_convert. repeat keeps_step. Qed.

Lemma keeps_self_batch_step forward lossfun convert nb train i batch logs :
  keeps_self (batch_step forward lossfun convert nb train i batch logs).
Proof.
  pose proof keeps_self_apply_convert.
  unfold batch_step. repeat keeps_step; auto.
Qed.

Lemma keeps_self_batch_loop body i batches logs :
  (forall i b l, keeps_self (body i b l)) -> keeps_self (batch_loop body i batches logs).
Proof.
  intros Hb. revert i logs. induction batches as [|b bs IH]; intros i logs; simpl.
  - apply keeps_self_ret.
  - apply keeps_self_bind; [apply Hb | intros; apply IH].
Qed.

Lemma keeps_self_process forward dataset lossfun convert batch_size logs0 train :
  keeps_self (_process forward dataset lossfun convert batch_size logs0 train).
Proof.
  unfold _process. repeat keeps_step.
  apply keeps_self_batch_loop. intros. apply keeps_self_batch_step.
Qed.

(** ** An exception of a callable ends the run

    [clean t]: nothing in [t] raised.  [raise_ok t r]: a run with trace
    [t] and outcome [r] raised at most once, as its very last step, and
    then [r] is that exception. *)

Definition clean (t : list Action) : Prop :=
  Forall (fun a => raised a = None) t.

Definition raise_ok {A} (t : list Action) (r : Res A) : Prop :=
  match r with
  | Ok _ => clean t
  | Raise e =>
      clean t \/
      exists pre a, t = pre ++ [a] /\ clean pre /\ raised a = Some e
  end.

Definition raises_last {A} (m : M A) : Prop :=
  forall s s' t r, m s = (s', t, r) -> raise_ok t r.

Lemma clean_nil : clean [].
Proof. constructor. Qed.

Lemma clean_app t1 t2 : clean t1 -> clean t2 -> clean (t1 ++ t2).
Proof. intros. by apply Forall_app. Qed.

Lemma raise_ok_app {A} t1 t2 (r : Res A) :
  clean t1 -> raise_ok t2 r -> raise_ok (t1 ++ t2) r.
Proof.
  intros H1. destruct r as [a|e]; simpl.
  - by apply clean_app.
  - intros [H2 | (pre & a & -> & Hpre & Ha)].
    + left. by apply clean_app.
    + right. exists (t1 ++ pre), a. rewrite app_assoc.
      split_and!; [done | by apply clean_app | done].
Qed.

Lemma raise_ok_retype {A B} t e : @raise_ok A t (Raise e) -> @raise_ok B t (Raise e).
Proof. done. Qed.

Lemma raises_last_bind {A B} (m : M A) (k : A -> M B) :
  raises_last m -> (forall a, raises_last (k a)) -> raises_last (mbind m k).
Proof.
  intros Hm Hk s s' t r H. msplit H.
  - apply Hm in Hm0. apply Hk in Hk0. by apply raise_ok_app.
  - apply Hm in Hm0. by apply (raise_ok_retype (A:=A)).
Qed.

Lemma raises_last_ret {A} (a : A) : raises_last (mret a).
Proof. intros s s' t r H. mprim H. apply clean_nil. Qed.

Lemma raises_last_raise {A} e : raises_last (@mraise A e).
Proof. intros s s' t r H. mprim H. left. apply clean_nil. Qed.

Lemma raises_last_lift_res {A} (x : Res A) : raises_last (lift_res x).
Proof.
  intros s s' t r H. mprim H. destruct x; simpl; [|left]; apply clean_nil.
Qed.

Lemma raises_last_get : raises_last get_self.
Proof. intros s s' t r H. mprim H. apply clean_nil. Qed.

Lemma raises_last_modify_self f : raises_last (modify_self f).
Proof. intros s s' t r [= <- <- <-]. apply clean_nil. Qed.

Lemma raises_last_ext_call {A} c enc (f : Ext A) : raises_last (ext_call c enc f).
Proof.
  intros s s' t r H.
  apply ext_call_inv in H as [_ [(a & -> & _ & ->) | (e & -> & _ & ->)]]; simpl.
  - by repeat constructor.
  - right. exists [ACall c], (AExn e). by repeat constructor.
Qed.

Lemma raises_last_call_cb who ev cb log : raises_last (call_cb who ev cb log).
Proof.
  intros s s' t r H.
  apply call_cb_inv in H as [_ [(a & -> & _ & ->) | (e & -> & _ & ->)]]; simpl.
  - by repeat constructor.
  - right. eexists [_], (ACbExn e). by repeat constructor.
Qed.

Lemma raises_last_run_callbacks ev cbs log : raises_last (run_callbacks ev cbs log).
Proof.
  revert log. induction cbs as [|[who cb] cbs IH]; intros log; simpl.
  - apply raises_last_ret.
  - apply raises_last_bind; [apply raises_last_call_cb | intros; apply IH].
Qed.

Lemma raises_last_notify ev log : raises_last (notify ev log).
Proof.
  intros s s' t r H. apply notify_inv in H as (t' & -> & H).
  apply raises_last_run_callbacks in H.
  apply (raise_ok_app [ANotify ev log]); [by repeat constructor | done].
Qed.

Lemma raises_last_with_reporter {A} (body : M A) :
  raises_last body -> raises_last (with_reporter body).
Proof.
  intros Hb s s' t r H. apply with_reporter_inv in H as (s1 & H & ->).
  by apply Hb in H.
Qed.

Create HintDb raises discriminated.
#[local] Hint Resolve raises_last_ret raises_last_raise raises_last_lift_res
  raises_last_get raises_last_modify_self raises_last_ext_call
  raises_last_call_cb raises_last_notify raises_last_run_callbacks : raises.

Ltac raises_step :=
  match goal with
  | |- raises_last (mbind _ _) => apply raises_last_bind; [|intros]
  | |- raises_last (match ?x with _ => _ end) => destruct x
  | |- raises_last _ => solve [auto with raises]
  end.

Lemma raises_last_apply_convert convert v : raises_last (apply_convert convert v).
Proof. unfold apply_convert. repeat raises_step. Qed.

Lemma raises_last_batch_step forward lossfun convert nb train i batch logs :
  raises_last (batch_step forward lossfun convert nb train i batch logs).
Proof.
  pose proof raises_last_apply_convert.
  unfold batch_step. repeat raises_step; auto.
Qed.

Lemma raises_last_batch_loop body i batches logs :
  (forall i b l, raises_last (body i b l)) ->
  raises_last (batch_loop body i batches logs).
Proof.
  intros Hb. revert i logs. induction batches as [|b bs IH]; intros i logs; simpl.
  - apply raises_last_ret.
  - apply raises_last_bind; [apply Hb | intros; apply IH].
Qed.

Lemma raises_last_process forward dataset lossfun convert batch_size logs0 train :
  raises_last (_process forward dataset lossfun convert batch_size logs0 train).
Proof.
  unfold _process. repeat raises_step.
  apply raises_last_batch_loop. intros. apply raises_last_batch_step.
Qed.

Lemma raises_last_epoch_step forward td vd lossfun convert batch_size epoch :
  raises_last (epoch_step forward td vd lossfun convert batch_size epoch).
Proof.
  pose proof raises_last_process.
  unfold epoch_step. repeat raises_step; auto.
Qed.

Lemma raises_last_epoch_loop body epochs :
  (forall e, raises_last (body e)) -> raises_last (epoch_loop body epochs).
Proof.
  intros Hb. induction epochs as [|e es IH]; simpl.
  - apply raises_last_ret.
  - apply raises_last_bind; [apply Hb | intros; apply IH].
Qed.

Lemma raises_last_main_loop forward td vd lossfun convert batch_size epochs :
  raises_last (main_loop forward td vd lossfun convert batch_size epochs).
Proof.
  apply raises_last_epoch_loop. intros. apply raises_last_epoch_step.
Qed.

Lemma lift_ext_trace {A} (f : Ext A) s s' t r :
  lift_ext f s = (s', t, r) -> t = [].
Proof. unfold lift_ext. destruct (f (world s)). by intros [= <- <- <-]. Qed.

(** ** The order of the events

    A language is a set of event sequences.  [evs m L]: the events of a
    run of [m] that returns form a word of [L]; the events of a run that
    raises form the beginning of one. *)

Definition lang : Type := list TrainEvent -> Prop.

Definition eps : lang := fun w => w = [].

Definition lcons (ev : TrainEvent) (L : lang) : lang :=
  fun w => exists v, w = ev :: v /\ L v.

Definition lapp (P Q : lang) : lang :=
  fun w => exists u v, w = u ++ v /\ P u /\ Q v.

Definition silent {A} (m : M A) : Prop :=
  forall s s' t r, m s = (s', t, r) -> events_of t = [].

Definition evs {A} (m : M A) (L : lang) : Prop :=
  forall s s' t r, m s = (s', t, r) ->
    match r with
    | Ok _ => L (events_of t)
    | Raise _ => exists w, L w /\ events_of t `prefix_of` w
    end.

Lemma events_of_app t1 t2 : events_of (t1 ++ t2) = events_of t1 ++ events_of t2.
Proof. apply omap_app. Qed.

Lemma silent_bind {A B} (m : M A) (k : A -> M B) :
  silent m -> (forall a, silent (k a)) -> silent (mbind m k).
Proof.
  intros Hm Hk s s' t r H. msplit H.
  - rewrite events_of_app. by rewrite (Hm _ _ _ _ Hm0), (Hk _ _ _ _ _ Hk0).
  - by apply Hm in Hm0.
Qed.

Lemma silent_ret {A} (a : A) : silent (mret a).
Proof. intros s s' t r H. by mprim H. Qed.

Lemma silent_raise {A} e : silent (@mraise A e).
Proof. intros s s' t r H. by mprim H. Qed.

Lemma silent_lift_res {A} (x : Res A) : silent (lift_res x).
Proof. intros s s' t r H. by mprim H. Qed.

Lemma silent_get : silent get_self.
Proof. intros s s' t r H. by mprim H. Qed.

Lemma silent_modify_self f : silent (modify_self f).
Proof. by intros s s' t r [= <- <- <-]. Qed.

Lemma silent_lift_ext {A} (f : Ext A) : silent (lift_ext f).
Proof. intros s s' t r H. by apply lift_ext_trace in H as ->. Qed.

Lemma silent_ext_call {A} c enc (f : Ext A) : silent (ext_call c enc f).
Proof.
  intros s s' t r H.
  by apply ext_call_inv in H as [_ [(a & -> & _ & ->) | (e & -> & _ & ->)]].
Qed.

Lemma silent_call_cb who ev cb log : silent (call_cb who ev cb log).
Proof.
  intros s s' t r H.
  by apply call_cb_inv in H as [_ [(a & -> & _ & ->) | (e & -> & _ & ->)]].
Qed.

Lemma silent_run_callbacks ev cbs log : silent (run_callbacks ev cbs log).
Proof.
  revert log. induction cbs as [|[who cb] cbs IH]; intros log; simpl.
  - apply silent_ret.
  - apply silent_bind; [apply silent_call_cb | intros; apply IH].
Qed.

Lemma events_notify ev log s s' t r :
  notify ev log s = (s', t, r) -> events_of t = [ev].
Proof.
  intros H. apply notify_inv in H as (t' & -> & H).
  apply silent_run_callbacks in H. simpl. by rewrite H.
Qed.

Create HintDb silence discriminated.
#[local] Hint Resolve silent_ret silent_raise silent_lift_res silent_get
  silent_modify_self silent_lift_ext silent_ext_call silent_call_cb
  silent_run_callbacks : silence.

Ltac silent_step :=
  match goal with
  | |- silent (mbind _ _) => apply silent_bind; [|intros]
  | |- silent (match ?x with _ => _ end) => destruct x
  | |- silent _ => solve [auto with silence]
  end.

Lemma silent_apply_convert convert v : silent (apply_convert convert v).
Proof. unfold apply_convert. repeat silent_step. Qed.

#[local] Hint Resolve silent_apply_convert : silence.

Lemma evs_conseq {A} (m : M A) (L L' : lang) :
  evs m L -> (forall w, L w -> L' w) -> evs m L'.
Proof.
  intros Hm HL s s' t r H. apply Hm in H. destruct r; [by apply HL|].
  destruct H as (w & Hw & Hp). exists w. split; [by apply HL | done].
Qed.

Lemma evs_silent {A} (m : M A) : silent m -> evs m eps.
Proof.
  intros Hm s s' t r H. apply Hm in H. rewrite H.
  destruct r; [done|]. by exists [].
Qed.

Lemma evs_silent_bind {A B} (m : M A) (k : A -> M B) (L : lang) :
  silent m -> (forall a, evs (k a) L) -> (exists w, L w) -> evs (mbind m k) L.
Proof.
  intros Hm Hk [w0 Hw0] s s' t r H. msplit H.
  - apply Hm in Hm0. apply Hk in Hk0. by rewrite events_of_app, Hm0.
  - apply Hm in Hm0. rewrite Hm0. exists w0. split; [done | apply prefix_nil].
Qed.

Lemma evs_bind {A B} (m : M A) (k : A -> M B) (P Q : lang) :
  evs m P -> (forall a, evs (k a) Q) -> (exists w, Q w) -> evs (mbind m k) (lapp P Q).
Proof.
  intros Hm Hk [w0 Hw0] s s' t r H. msplit H.
  - apply Hm in Hm0. apply Hk in Hk0. rewrite events_of_app.
    destruct r as [b|e].
    + by exists (events_of t0), (events_of t1).
    + destruct Hk0 as (w & Hw & Hp). exists (events_of t0 ++ w). split.
      * by exists (events_of t0), w.
      * by apply prefix_app.
  - apply Hm in Hm0 as (w & Hw & Hp). exists (w ++ w0). split.
    + by exists w, w0.
    + by apply prefix_app_r.
Qed.

Lemma evs_notify ev log : evs (notify ev log) (lcons ev eps).
Proof.
  intros s s' t r H. apply events_notify in H. rewrite H.
  destruct r; [by exists [] | exists [ev]; split; [by exists [] | done]].
Qed.

Lemma evs_notify_bind {B} ev log (k : Log -> M B) (L : lang) :
  (forall a, evs (k a) L) -> (exists w, L w) -> evs (mbind (notify ev log) k) (lcons ev L).
Proof.
  intros Hk Hw. eapply evs_conseq.
  - apply evs_bind; [apply evs_notify | apply Hk | apply Hw].
  - intros w (u & v & -> & (v' & -> & ->) & Hv). by exists v.
Qed.

Lemma evs_with_reporter {A} (body : M A) L : evs body L -> evs (with_reporter body) L.
Proof.
  intros Hb s s' t r H. apply with_reporter_inv in H as (s1 & H & ->).
  by apply Hb in H.
Qed.

(** The complete sequences of the state machine. *)

Definition batch_pairs (k : nat) : list TrainEvent :=
  concat (replicate k [BATCH_BEGIN; BATCH_END]).

Definition phase_events (train : bool) (k : nat) : list TrainEvent :=
  phase_begin train :: batch_pairs k ++ [phase_end train].

(** One epoch with [c.1] training batches and, when there is validation
    data, [c.2] validation batches. *)
Definition epoch_events (validate : bool) (c : nat * nat) : list TrainEvent :=
  EPOCH_BEGIN :: phase_events true (fst c)
    ++ (if validate then phase_events false (snd c) else [])
    ++ [EPOCH_END].

Definition fit_events (validate : bool) (counts : list (nat * nat)) : list TrainEvent :=
  TRAIN_BEGIN :: flat_map (epoch_events validate) counts ++ [TRAIN_END].

Ltac evs_step :=
  match goal with
  | |- evs (mbind (notify _ _) _) _ => eapply evs_notify_bind; [intros|]
  | |- evs (mbind _ _) _ =>
      eapply evs_silent_bind; [solve [repeat silent_step] | intros | ]
  | |- evs (mret _) _ => apply evs_silent, silent_ret
  end.

Lemma evs_batch_step forward lossfun convert nb train i batch logs :
  evs (batch_step forward lossfun convert nb train i batch logs)
      (fun w => w = [BATCH_BEGIN; BATCH_END]).
Proof.
  eapply evs_conseq.
  - unfold batch_step. repeat evs_step; unfold lcons, eps; by repeat eexists.
  - intros w (v & -> & v' & -> & ->). done.
Qed.

Lemma evs_batch_loop body i batches logs :
  (forall i b l, evs (body i b l) (fun w => w = [BATCH_BEGIN; BATCH_END])) ->
  evs (batch_loop body i batches logs) (fun w => w = batch_pairs (length batches)).
Proof.
  intros Hb. revert i logs. induction batches as [|b bs IH]; intros i logs; simpl.
  - apply evs_silent, silent_ret.
  - eapply evs_conseq.
    + apply evs_bind; [apply Hb | intros; apply IH | eauto].
    + by intros w (u & v & -> & -> & ->).
Qed.

Lemma evs_res_bind {A B} (x : Res A) (k : A -> M B) (L : lang) :
  (forall a, x = Ok a -> evs (k a) L) -> (exists w, L w) -> evs (mbind (lift_res x) k) L.
Proof.
  intros Hk [w0 Hw0] s s' t r H. msplit H.
  - mprim Hm. by apply Hk in Hk0.
  - mprim Hm. exists w0. split; [done | apply prefix_nil].
Qed.

Lemma evs_process forward dataset lossfun convert batch_size logs0 train :
  evs (_process forward dataset lossfun convert batch_size logs0 train)
      (fun w => exists k, w = phase_events train k).
Proof.
  pose (Lrest := fun v : list TrainEvent =>
                   exists k, v = batch_pairs k ++ [phase_end train]).
  assert (HLrest : exists w, Lrest w) by (by exists [phase_end train], 0%nat).
  apply (evs_conseq _ (lcons (phase_begin train) Lrest)).
  - unfold _process.
    apply evs_silent_bind; [auto with silence | intros nb | ].
    2: { destruct HLrest as [w Hw]. by exists (phase_begin train :: w), w. }
    apply evs_notify_bind; [intros logs | done].
    apply evs_silent_bind; [auto with silence | intros batches | done].
    apply (evs_conseq _ (lapp (fun w => w = batch_pairs (length batches))
                              (lcons (phase_end train) eps))).
    + apply evs_bind.
      * apply evs_batch_loop. intros. apply evs_batch_step.
      * intros logs'. repeat evs_step; unfold lcons, eps; by repeat eexists.
      * by exists [phase_end train], [].
    + intros w (u & v & -> & -> & v' & -> & ->). by exists (length batches).
  - intros w (v & -> & k & ->). by exists k.
Qed.

Definition has_validation (val_dataset : option Dataset) : bool :=
  match val_dataset with Some _ => true | None => false end.

Lemma evs_epoch_step forward td vd lossfun convert batch_size epoch :
  evs (epoch_step forward td vd lossfun convert batch_size epoch)
      (fun w => exists c, w = epoch_events (has_validation vd) c).
Proof.
  pose (Lp := fun train (w : list TrainEvent) => exists k, w = phase_events train k).
  assert (HLp : forall train, exists w, Lp train w)
    by (intros train; by exists (phase_events train 0), 0%nat).
  unfold epoch_step. destruct vd as [vd|]; simpl.
  - apply (evs_conseq _ (lcons EPOCH_BEGIN
                           (lapp (Lp true) (lapp (Lp false) (lcons EPOCH_END eps))))).
    + apply evs_notify_bind; [intros logs|].
      * apply evs_bind; [apply evs_process | intros logs1 | ].
        -- apply evs_bind; [apply evs_process | intros logs2 | by exists [EPOCH_END], []].
           repeat evs_step; unfold lcons, eps; by repeat eexists.
        -- destruct (HLp false) as [w Hw].
           exists (w ++ [EPOCH_END]), w, [EPOCH_END]. split_and!; [done..|by exists []].
      * destruct (HLp true) as [w1 Hw1], (HLp false) as [w2 Hw2].
        exists (w1 ++ w2 ++ [EPOCH_END]), w1, (w2 ++ [EPOCH_END]).
        split_and!; [done..|]. exists w2, [EPOCH_END]. split_and!; [done..|by exists []].
    + intros w (v & -> & u1 & v1 & -> & [k1 ->] & u2 & v2 & -> & [k2 ->] & v3 & -> & ->).
      by exists (k1, k2).
  - apply (evs_conseq _ (lcons EPOCH_BEGIN (lapp (Lp true) (lcons EPOCH_END eps)))).
    + apply evs_notify_bind; [intros logs|].
      * apply evs_bind; [apply evs_process | intros logs1 | by exists [EPOCH_END], []].
        repeat evs_step; unfold lcons, eps; by repeat eexists.
      * destruct (HLp true) as [w1 Hw1].
        exists (w1 ++ [EPOCH_END]), w1, [EPOCH_END]. split_and!; [done..|by exists []].
    + intros w (v & -> & u1 & v1 & -> & [k1 ->] & v3 & -> & ->).
      by exists (k1, 0%nat).
Qed.

Lemma evs_epoch_loop body validate epochs :
  (forall e, evs (body e) (fun w => exists c, w = epoch_events validate c)) ->
  evs (epoch_loop body epochs)
      (fun w => exists counts, length counts = length epochs /\
                               w = flat_map (epoch_events validate) counts).
Proof.
  intros Hb. induction epochs as [|e es IH]; simpl.
  - apply (evs_conseq _ eps); [apply evs_silent, silent_ret|].
    intros w ->. by exists [].
  - eapply evs_conseq.
    + apply evs_bind; [apply Hb | intros; apply IH | ].
      eexists _, (replicate (length es) (0%nat, 0%nat)).
      split; [apply length_replicate | reflexivity].
    + intros w (u & v & -> & [c ->] & counts & Hlen & ->).
      exists (c :: counts). simpl. by rewrite Hlen.
Qed.

Lemma silent_attach_listener l priority : silent (attach_listener l priority).
Proof. unfold attach_listener. repeat silent_step. Qed.

Lemma silent_add_hook ev hook : silent (add_hook ev hook).
Proof. apply silent_modify_self. Qed.

#[local] Hint Resolve silent_attach_listener silent_add_hook : silence.

Lemma validation_has validation_data val_dataset :
  validation validation_data = Ok val_dataset ->
  has_validation val_dataset = obj_truthy validation_data.
Proof.
  unfold validation. destruct (obj_truthy validation_data); [|by intros [= <-]].
  destruct validation_data as [d|v]; [by intros [= <-]|].
  destruct (py_len v) as [n|]; [|done].
  destruct (n =? 2); [|done].
  destruct (py_iter v) as [[|a [|b [|c l]]]|]; try done. by intros [= <-].
Qed.

Lemma length_epoch_range epochs : length (epoch_range epochs) = Z.to_nat epochs.
Proof. unfold epoch_range. by rewrite length_map, length_seq. Qed.

Lemma evs_main_loop forward td vd lossfun convert batch_size epochs :
  evs (main_loop forward td vd lossfun convert batch_size epochs)
      (fun w => exists counts, length counts = Z.to_nat epochs /\
                               w = flat_map (epoch_events (has_validation vd)) counts).
Proof.
  eapply evs_conseq.
  - apply evs_epoch_loop. intros e. apply evs_epoch_step.
  - intros w (counts & Hlen & ->). exists counts.
    by rewrite Hlen, length_epoch_range.
Qed.

Lemma evs_fit x y batch_size epochs validation_data :
  evs (fit x y batch_size epochs validation_data)
      (fun w => exists counts, length counts = Z.to_nat epochs /\
                               w = fit_events (obj_truthy validation_data) counts).
Proof.
  set (validate := obj_truthy validation_data).
  pose (Lmain := fun w : list TrainEvent =>
                   exists counts, length counts = Z.to_nat epochs /\
                                  w = flat_map (epoch_events validate) counts).
  assert (HLmain : exists w, Lmain w).
  { eexists _, (replicate (Z.to_nat epochs) (0%nat, 0%nat)).
    split; [apply length_replicate | reflexivity]. }
  pose (Ltail := lapp Lmain (lcons TRAIN_END eps)).
  assert (HLtail : exists w, Ltail w).
  { destruct HLmain as [w Hw]. exists (w ++ [TRAIN_END]), w, [TRAIN_END].
    split_and!; [done | done | by exists []]. }
  assert (HLfit : exists w, lcons TRAIN_BEGIN Ltail w).
  { destruct HLtail as [w Hw]. by exists (TRAIN_BEGIN :: w), w. }
  apply (evs_conseq _ (lcons TRAIN_BEGIN Ltail)).
  - unfold fit.
    apply evs_res_bind; [intros td Htd | done].
    apply evs_res_bind; [intros val Hval | done].
    apply validation_has in Hval. fold validate in Hval.
    do 5 (apply evs_silent_bind; [solve [repeat silent_step] | intros | done]).
    apply evs_notify_bind; [intros _ | done].
    apply evs_silent_bind; [auto with silence | intros t' | done].
    apply evs_bind.
    + assert (Hmain : forall fwd, evs (main_loop fwd td val (_loss_func a)
                                         (_converter a) batch_size epochs) Lmain).
      { intros fwd. eapply evs_conseq; [apply evs_main_loop|].
        intros w Hw. by rewrite Hval in Hw. }
      destruct (_reporter t'); [apply evs_with_reporter|]; apply Hmain.
    + intros _. repeat evs_step; unfold lcons, eps; by repeat eexists.
    + by exists [TRAIN_END], [].
  - intros w (v & -> & u & v' & -> & (counts & Hlen & ->) & v'' & -> & ->).
    by exists counts.
Qed.

(** Events of the validation phase. *)
Definition is_validate_event (ev : TrainEvent) : bool :=
  match ev with
  | EPOCH_VALIDATE_BEGIN | EPOCH_VALIDATE_END => true
  | _ => false
  end.

Lemma batch_pairs_no_validate k :
  Forall (fun ev => is_validate_event ev = false) (batch_pairs k).
Proof.
  unfold batch_pairs. induction k as [|k IH]; simpl; [constructor|].
  by repeat constructor.
Qed.

Lemma epoch_events_no_validate c :
  Forall (fun ev => is_validate_event ev = false) (epoch_events false c).
Proof.
  unfold epoch_events, phase_events. constructor; [done|]. constructor; [done|].
  repeat (apply Forall_app; split); try by repeat constructor.
  apply batch_pairs_no_validate.
Qed.

Lemma fit_events_no_validate counts :
  Forall (fun ev => is_validate_event ev = false) (fit_events false counts).
Proof.
  unfold fit_events. constructor; [done|].
  apply Forall_app. split; [|by repeat constructor].
  induction counts as [|c counts IH]; [constructor|].
  change (flat_map (epoch_events false) (c :: counts))
    with (epoch_events false c ++ flat_map (epoch_events false) counts).
  apply Forall_app. split; [apply epoch_events_no_validate | done].
Qed.

(** ** The state machine

    What a run shows of the state machine: the events it notified and,
    for each pass over a dataset, how many batches the dataset yielded. *)

Inductive Obs :=
| OEvent (ev : TrainEvent)                  (* [ev] was notified *)
| OBatches (dataset : Dataset) (n : nat).   (* [dataset.batch] returned [n] batches *)

Fixpoint observed (t : list Action) : list Obs :=
  match t with
  | [] => []
  | ANotify ev _ :: t' => OEvent ev :: observed t'
  | ACall (CBatch d _ _) :: t' =>
      match t' with
      | ARet (VSeq l) :: _ => OBatches d (length l) :: observed t'
      | _ => observed t'
      end
  | _ :: t' => observed t'
  end.

(** The events among the observations. *)
Definition obs_events (w : list Obs) : list TrainEvent :=
  omap (fun o => match o with OEvent ev => Some ev | OBatches _ _ => None end) w.

(** The state machine of the spec (section 4.3), written out event by
    event.  A pass over a dataset that yields [n] batches is followed by
    [n] pairs BATCH_BEGIN, BATCH_END; [c] holds the numbers of batches of
    the training pass and of the validation pass of one epoch. *)
Definition machine_batches (n : nat) : list Obs :=
  concat (replicate n [OEvent BATCH_BEGIN; OEvent BATCH_END]).

Definition machine_pass (dataset : Dataset) (n : nat) : list Obs :=
  OBatches dataset n :: machine_batches n.

Definition machine_epoch (td : Dataset) (vd : option Dataset) (c : nat * nat)
    : list Obs :=
  [OEvent EPOCH_BEGIN; OEvent EPOCH_TRAIN_BEGIN]
  ++ machine_pass td (fst c)
  ++ [OEvent EPOCH_TRAIN_END]
  ++ match vd with
     | Some d =>
         [OEvent EPOCH_VALIDATE_BEGIN]
         ++ machine_pass d (snd c)
         ++ [OEvent EPOCH_VALIDATE_END]
     | None => []
     end
  ++ [OEvent EPOCH_END].

Definition state_machine (td : Dataset) (vd : option Dataset)
    (counts : list (nat * nat)) : list Obs :=
  [OEvent TRAIN_BEGIN] ++ flat_map (machine_epoch td vd) counts ++ [OEvent TRAIN_END].

Lemma observed_events t : obs_events (observed t) = events_of t.
Proof.
  induction t as [|a t IH]; [done|].
  destruct a as [ev log| | | |c| |]; simpl; try done.
  - unfold obs_events in *. simpl. by rewrite IH.
  - destruct c; try done.
    destruct t as [|[| | | | |v|] t]; try done. by destruct v.
Qed.

(** [splits t]: what is observed of a trace that goes on after [t] is
    what is observed of [t], then what is observed of the rest. *)
Definition splits (t : list Action) : Prop :=
  forall t2, observed (t ++ t2) = observed t ++ observed t2.

Definition is_batch_call (a : Action) : bool :=
  match a with
  | ACall (CBatch _ _ _) => true
  | _ => false
  end.

Lemma splits_nil : splits [].
Proof. by intros t2. Qed.

Lemma splits_app t1 t2 : splits t1 -> splits t2 -> splits (t1 ++ t2).
Proof.
  intros H1 H2 t3. by rewrite <- app_assoc, H1, H2, H1, app_assoc.
Qed.

Lemma splits_cons a t : is_batch_call a = false -> splits t -> splits (a :: t).
Proof.
  intros Ha Ht t2. destruct a as [ev log| | | |c| |]; simpl; rewrite ?Ht; try done.
  by destruct c.
Qed.

Lemma splits_call c v : splits [ACall c; ARet v].
Proof. intros t2. destruct c; try done. by destruct v. Qed.

Lemma splits_call_exn c e : splits [ACall c; AExn e].
Proof. intros t2. by destruct c. Qed.

(** [quiet m]: a run of [m] notifies nothing and goes through no
    dataset. *)
Definition quiet {A} (m : M A) : Prop :=
  forall s s' t r, m s = (s', t, r) -> splits t /\ observed t = [].

Lemma quiet_bind {A B} (m : M A) (k : A -> M B) :
  quiet m -> (forall a, quiet (k a)) -> quiet (mbind m k).
Proof.
  intros Hm Hk s s' t r H. msplit H.
  - apply Hm in Hm0 as [Hs1 H1]. apply Hk in Hk0 as [Hs2 H2].
    split; [by apply splits_app|]. by rewrite Hs1, H1, H2.
  - by apply Hm in Hm0.
Qed.

Lemma quiet_ret {A} (a : A) : quiet (mret a).
Proof. intros s s' t r H. mprim H. split; [apply splits_nil | done]. Qed.

Lemma quiet_raise {A} e : quiet (@mraise A e).
Proof. intros s s' t r H. mprim H. split; [apply splits_nil | done]. Qed.

Lemma quiet_lift_res {A} (x : Res A) : quiet (lift_res x).
Proof. intros s s' t r H. mprim H. split; [apply splits_nil | done]. Qed.

Lemma quiet_get : quiet get_self.
Proof. intros s s' t r H. mprim H. split; [apply splits_nil | done]. Qed.

Lemma quiet_modify_self f : quiet (modify_self f).
Proof. intros s s' t r [= <- <- <-]. split; [apply splits_nil | done]. Qed.

Lemma quiet_lift_ext {A} (f : Ext A) : quiet (lift_ext f).
Proof.
  intros s s' t r H. apply lift_ext_trace in H as ->. split; [apply splits_nil | done].
Qed.

Lemma quiet_ext_call {A} c enc (f : Ext A) :
  is_batch_call (ACall c) = false -> quiet (ext_call c enc f).
Proof.
  intros Hc s s' t r H.
  apply ext_call_inv in H as [_ [(a & -> & _ & ->) | (e & -> & _ & ->)]].
  - split; [apply splits_call | by destruct c].
  - split; [apply splits_call_exn | by destruct c].
Qed.

Lemma quiet_call_cb who ev cb log : quiet (call_cb who ev cb log).
Proof.
  intros s s' t r H.
  apply call_cb_inv in H as [_ [(a & -> & _ & ->) | (e & -> & _ & ->)]];
    (split; [|done]); repeat (apply splits_cons; [done|]); apply splits_nil.
Qed.

Lemma quiet_run_callbacks ev cbs log : quiet (run_callbacks ev cbs log).
Proof.
  revert log. induction cbs as [|[who cb] cbs IH]; intros log; simpl.
  - apply quiet_ret.
  - apply quiet_bind; [apply quiet_call_cb | intros; apply IH].
Qed.

Lemma observed_notify ev log s s' t r :
  notify ev log s = (s', t, r) -> splits t /\ observed t = [OEvent ev].
Proof.
  intros H. apply notify_inv in H as (t' & -> & H).
  apply quiet_run_callbacks in H as [Hs H]. split.
  - by apply splits_cons.
  - simpl. by rewrite H.
Qed.

Create HintDb quietness discriminated.
#[local] Hint Resolve quiet_ret quiet_raise quiet_lift_res quiet_get
  quiet_modify_self quiet_lift_ext quiet_call_cb quiet_run_callbacks : quietness.

Ltac quiet_step :=
  match goal with
  | |- quiet (mbind _ _) => apply quiet_bind; [|intros]
  | |- quiet (ext_call _ _ _) => by apply quiet_ext_call
  | |- quiet (match ?x with _ => _ end) => destruct x
  | |- quiet _ => solve [auto with quietness]
  end.

Lemma quiet_apply_convert convert v : quiet (apply_convert convert v).
Proof. unfold apply_convert. repeat quiet_step. Qed.

Lemma quiet_attach_listener l priority : quiet (attach_listener l priority).
Proof. unfold attach_listener. repeat quiet_step. Qed.

Lemma quiet_add_hook ev hook : quiet (add_hook ev hook).
Proof. apply quiet_modify_self. Qed.

#[local] Hint Resolve quiet_apply_convert quiet_attach_listener quiet_add_hook
  : quietness.

(** [sees m L]: what is observed of a run of [m] that returns is a word
    of [L]; of a run that raises, the beginning of one. *)
Definition olang : Type := list Obs -> Prop.

Definition oeps : olang := fun w => w = [].

Definition ocons (o : Obs) (L : olang) : olang :=
  fun w => exists v, w = o :: v /\ L v.

Definition oapp (P Q : olang) : olang :=
  fun w => exists u v, w = u ++ v /\ P u /\ Q v.

Definition sees {A} (m : M A) (L : olang) : Prop :=
  forall s s' t r, m s = (s', t, r) ->
    splits t /\
    match r with
    | Ok _ => L (observed t)
    | Raise _ => exists w, L w /\ observed t `prefix_of` w
    end.

Lemma sees_conseq {A} (m : M A) (L L' : olang) :
  sees m L -> (forall w, L w -> L' w) -> sees m L'.
Proof.
  intros Hm HL s s' t r H. apply Hm in H as [Hs H]. split; [done|].
  destruct r; [by apply HL|].
  destruct H as (w & Hw & Hp). exists w. split; [by apply HL | done].
Qed.

Lemma sees_quiet {A} (m : M A) : quiet m -> sees m oeps.
Proof.
  intros Hm s s' t r H. apply Hm in H as [Hs H]. split; [done|]. rewrite H.
  destruct r; [done|]. by exists [].
Qed.

Lemma sees_quiet_bind {A B} (m : M A) (k : A -> M B) (L : olang) :
  quiet m -> (forall a, sees (k a) L) -> (exists w, L w) -> sees (mbind m k) L.
Proof.
  intros Hm Hk [w0 Hw0] s s' t r H. msplit H.
  - apply Hm in Hm0 as [Hs1 H1]. apply Hk in Hk0 as [Hs2 H2].
    split; [by apply splits_app|]. by rewrite Hs1, H1.
  - apply Hm in Hm0 as [Hs1 H1]. split; [done|]. rewrite H1.
    exists w0. split; [done | apply prefix_nil].
Qed.

Lemma sees_res_bind {A B} (x : Res A) (k : A -> M B) (L : olang) :
  (forall a, x = Ok a -> sees (k a) L) -> (exists w, L w) ->
  sees (mbind (lift_res x) k) L.
Proof.
  intros Hk [w0 Hw0] s s' t r H. msplit H.
  - mprim Hm. by apply Hk in Hk0.
  - mprim Hm. split; [apply splits_nil|].
    exists w0. split; [done | apply prefix_nil].
Qed.

Lemma sees_bind {A B} (m : M A) (k : A -> M B) (P Q : olang) :
  sees m P -> (forall a, sees (k a) Q) -> (exists w, Q w) ->
  sees (mbind m k) (oapp P Q).
Proof.
  intros Hm Hk [w0 Hw0] s s' t r H. msplit H.
  - apply Hm in Hm0 as [Hs1 H1]. apply Hk in Hk0 as [Hs2 H2].
    split; [by apply splits_app|]. rewrite Hs1.
    destruct r as [b|e].
    + by exists (observed t0), (observed t1).
    + destruct H2 as (w & Hw & Hp). exists (observed t0 ++ w). split.
      * by exists (observed t0), w.
      * by apply prefix_app.
  - apply Hm in Hm0 as [Hs1 (w & Hw & Hp)]. split; [done|].
    exists (w ++ w0). split.
    + by exists w, w0.
    + by apply prefix_app_r.
Qed.

Lemma sees_notify ev log : sees (notify ev log) (ocons (OEvent ev) oeps).
Proof.
  intros s s' t r H. apply observed_notify in H as [Hs H]. split; [done|].
  rewrite H.
  destruct r; [by exists [] | exists [OEvent ev]; split; [by exists [] | done]].
Qed.

Lemma sees_notify_bind {B} ev log (k : Log -> M B) (L : olang) :
  (forall a, sees (k a) L) -> (exists w, L w) ->
  sees (mbind (notify ev log) k) (ocons (OEvent ev) L).
Proof.
  intros Hk Hw. eapply sees_conseq.
  - apply sees_bind; [apply sees_notify | apply Hk | apply Hw].
  - intros w (u & v & -> & (v' & -> & ->) & Hv). by exists v.
Qed.

(** A pass: the dataset is asked for its batches, and what follows may
    depend on them. *)
Lemma sees_batch_bind {B} dataset batch_size shuffle f (k : list value -> M B)
    (L : list value -> olang) :
  (forall l, sees (k l) (L l)) -> (exists l w, L l w) ->
  sees (mbind (ext_call (CBatch dataset batch_size shuffle) VSeq f) k)
       (fun w => exists l v, w = OBatches dataset (length l) :: v /\ L l v).
Proof.
  intros Hk (l0 & w0 & Hw0) s s' t r H. msplit H.
  - apply ext_call_inv in Hm as [_ [(a' & [= <-] & _ & ->) | (e & [=] & _)]].
    apply Hk in Hk0 as [Hs2 H2]. split.
    + apply splits_app; [apply splits_call | done].
    + simpl. destruct r as [b|e].
      * by exists a, (observed t1).
      * destruct H2 as (w & Hw & Hp). exists (OBatches dataset (length a) :: w).
        split; [by exists a, w | by apply prefix_cons].
  - apply ext_call_inv in Hm as [_ [(a' & [=] & _) | (e' & _ & _ & ->)]].
    split; [apply splits_call_exn|]. simpl.
    exists (OBatches dataset (length l0) :: w0).
    split; [by exists l0, w0 | apply prefix_nil].
Qed.

Lemma sees_with_reporter {A} (body : M A) L : sees body L -> sees (with_reporter body) L.
Proof.
  intros Hb s s' t r H. apply with_reporter_inv in H as (s1 & H & ->).
  by apply Hb in H.
Qed.

Ltac sees_step :=
  match goal with
  | |- sees (mbind (notify _ _) _) _ => eapply sees_notify_bind; [intros|]
  | |- sees (mbind _ _) _ =>
      eapply sees_quiet_bind; [solve [repeat quiet_step] | intros | ]
  | |- sees (mret _) _ => apply sees_quiet, quiet_ret
  end.

Lemma sees_batch_step forward lossfun convert nb train i batch logs :
  sees (batch_step forward lossfun convert nb train i batch logs)
       (fun w => w = [OEvent BATCH_BEGIN; OEvent BATCH_END]).
Proof.
  eapply sees_conseq.
  - unfold batch_step. repeat sees_step; unfold ocons, oeps; by repeat eexists.
  - intros w (v & -> & v' & -> & ->). done.
Qed.

Lemma sees_batch_loop body i batches logs :
  (forall i b l, sees (body i b l) (fun w => w = [OEvent BATCH_BEGIN; OEvent BATCH_END])) ->
  sees (batch_loop body i batches logs) (fun w => w = machine_batches (length batches)).
Proof.
  intros Hb. revert i logs. induction batches as [|b bs IH]; intros i logs; simpl.
  - apply sees_quiet, quiet_ret.
  - eapply sees_conseq.
    + apply sees_bind; [apply Hb | intros; apply IH | eauto].
    + by intros w (u & v & -> & -> & ->).
Qed.

(** A phase: its begin event, the pass over the dataset with a pair of
    events for each batch the dataset yielded, its end event. *)
Lemma sees_process forward dataset lossfun convert batch_size logs0 train :
  sees (_process forward dataset lossfun convert batch_size logs0 train)
       (fun w => exists n,
            w = OEvent (phase_begin train)
                :: machine_pass dataset n ++ [OEvent (phase_end train)]).
Proof.
  pose (Lloop := fun (l : list value) (v : list Obs) =>
                   v = machine_batches (length l) ++ [OEvent (phase_end train)]).
  pose (Lrest := fun v : list Obs =>
                   exists l v', v = OBatches dataset (length l) :: v' /\ Lloop l v').
  assert (HLrest : exists w, Lrest w) by (by eexists _, [], _).
  apply (sees_conseq _ (ocons (OEvent (phase_begin train)) Lrest)).
  - unfold _process.
    apply sees_quiet_bind; [auto with quietness | intros nb | ].
    2: { destruct HLrest as [w Hw]. by exists (OEvent (phase_begin train) :: w), w. }
    apply sees_notify_bind; [intros logs | done].
    apply sees_batch_bind; [intros batches | by eexists [], _].
    apply (sees_conseq _ (oapp (fun w => w = machine_batches (length batches))
                               (ocons (OEvent (phase_end train)) oeps))).
    + apply sees_bind.
      * apply sees_batch_loop. intros. apply sees_batch_step.
      * intros logs'. repeat sees_step; unfold ocons, oeps; by repeat eexists.
      * by exists [OEvent (phase_end train)], [].
    + by intros w (u & v & -> & -> & v' & -> & ->).
  - intros w (v & -> & l & v' & -> & ->). by exists (length l).
Qed.

Lemma sees_epoch_step forward td vd lossfun convert batch_size epoch :
  sees (epoch_step forward td vd lossfun convert batch_size epoch)
       (fun w => exists c, w = machine_epoch td vd c).
Proof.
  pose (Lp := fun train d (w : list Obs) =>
                exists n, w = OEvent (phase_begin train)
                              :: machine_pass d n ++ [OEvent (phase_end train)]).
  assert (HLp : forall train d, exists w, Lp train d w)
    by (intros train d; by eexists _, 0%nat).
  unfold epoch_step. destruct vd as [vd|]; simpl.
  - apply (sees_conseq _ (ocons (OEvent EPOCH_BEGIN)
                            (oapp (Lp true td)
                               (oapp (Lp false vd) (ocons (OEvent EPOCH_END) oeps))))).
    + apply sees_notify_bind; [intros logs|].
      * apply sees_bind; [apply sees_process | intros logs1 | ].
        -- apply sees_bind;
             [apply sees_process | intros logs2 | by exists [OEvent EPOCH_END], []].
           repeat sees_step; unfold ocons, oeps; by repeat eexists.
        -- destruct (HLp false vd) as [w Hw].
           exists (w ++ [OEvent EPOCH_END]), w, [OEvent EPOCH_END].
           split_and!; [done..|by exists []].
      * destruct (HLp true td) as [w1 Hw1], (HLp false vd) as [w2 Hw2].
        exists (w1 ++ w2 ++ [OEvent EPOCH_END]), w1, (w2 ++ [OEvent EPOCH_END]).
        split_and!; [done..|]. exists w2, [OEvent EPOCH_END].
        split_and!; [done..|by exists []].
    + intros w (v & -> & u1 & v1 & -> & [k1 ->] & u2 & v2 & -> & [k2 ->] & v3 & -> & ->).
      exists (k1, k2). unfold machine_epoch. simpl. by rewrite <- !app_assoc.
  - apply (sees_conseq _ (ocons (OEvent EPOCH_BEGIN)
                            (oapp (Lp true td) (ocons (OEvent EPOCH_END) oeps)))).
    + apply sees_notify_bind; [intros logs|].
      * apply sees_bind;
          [apply sees_process | intros logs1 | by exists [OEvent EPOCH_END], []].
        repeat sees_step; unfold ocons, oeps; by repeat eexists.
      * destruct (HLp true td) as [w1 Hw1].
        exists (w1 ++ [OEvent EPOCH_END]), w1, [OEvent EPOCH_END].
        split_and!; [done..|by exists []].
    + intros w (v & -> & u1 & v1 & -> & [k1 ->] & v3 & -> & ->).
      exists (k1, 0%nat). unfold machine_epoch. simpl. by rewrite <- !app_assoc.
Qed.

Lemma sees_epoch_loop body td vd epochs :
  (forall e, sees (body e) (fun w => exists c, w = machine_epoch td vd c)) ->
  sees (epoch_loop body epochs)
       (fun w => exists counts, length counts = length epochs /\
                                w = flat_map (machine_epoch td vd) counts).
Proof.
  intros Hb. induction epochs as [|e es IH]; simpl.
  - apply (sees_conseq _ oeps); [apply sees_quiet, quiet_ret|].
    intros w ->. by exists [].
  - eapply sees_conseq.
    + apply sees_bind; [apply Hb | intros; apply IH | ].
      eexists _, (replicate (length es) (0%nat, 0%nat)).
      split; [apply length_replicate | reflexivity].
    + intros w (u & v & -> & [c ->] & counts & Hlen & ->).
      exists (c :: counts). simpl. by rewrite Hlen.
Qed.

Lemma sees_main_loop forward td vd lossfun convert batch_size epochs :
  sees (main_loop forward td vd lossfun convert batch_size epochs)
       (fun w => exists counts, length counts = Z.to_nat epochs /\
                                w = flat_map (machine_epoch td vd) counts).
Proof.
  eapply sees_conseq.
  - apply sees_epoch_loop. intros e. apply sees_epoch_step.
  - intros w (counts & Hlen & ->). exists counts.
    by rewrite Hlen, length_epoch_range.
Qed.

Lemma sees_fit x y batch_size epochs validation_data td vd :
  train_data x y = Ok td -> validation validation_data = Ok vd ->
  sees (fit x y batch_size epochs validation_data)
       (fun w => exists counts, length counts = Z.to_nat epochs /\
                                w = state_machine td vd counts).
Proof.
  intros Htd Hvd.
  pose (Lmain := fun w : list Obs =>
                   exists counts, length counts = Z.to_nat epochs /\
                                  w = flat_map (machine_epoch td vd) counts).
  assert (HLmain : exists w, Lmain w).
  { eexists _, (replicate (Z.to_nat epochs) (0%nat, 0%nat)).
    split; [apply length_replicate | reflexivity]. }
  pose (Ltail := oapp Lmain (ocons (OEvent TRAIN_END) oeps)).
  assert (HLtail : exists w, Ltail w).
  { destruct HLmain as [w Hw]. exists (w ++ [OEvent TRAIN_END]), w, [OEvent TRAIN_END].
    split_and!; [done | done | by exists []]. }
  assert (HLfit : exists w, ocons (OEvent TRAIN_BEGIN) Ltail w).
  { destruct HLtail as [w Hw]. by exists (OEvent TRAIN_BEGIN :: w), w. }
  apply (sees_conseq _ (ocons (OEvent TRAIN_BEGIN) Ltail)).
  - unfold fit. rewrite Htd, Hvd.
    apply sees_res_bind; [intros td' [= <-] | done].
    apply sees_res_bind; [intros vd' [= <-] | done].
    do 5 (apply sees_quiet_bind; [solve [repeat quiet_step] | intros | done]).
    apply sees_notify_bind; [intros _ | done].
    apply sees_quiet_bind; [auto with quietness | intros t' | done].
    apply sees_bind.
    + destruct (_reporter t'); [apply sees_with_reporter|]; apply sees_main_loop.
    + intros _. repeat sees_step; unfold ocons, oeps; by repeat eexists.
    + by exists [OEvent TRAIN_END], [].
  - intros w (v & -> & u & v' & -> & (counts & Hlen & ->) & v'' & -> & ->).
    by exists counts.
Qed.

(** C1. Every call of [fit] goes through the state machine of the spec.
    What it shows, the events it notifies and the batches each pass over a
    dataset yields, is for a call that returns: TRAIN_BEGIN; then for each
    of the [epochs] epochs EPOCH_BEGIN, EPOCH_TRAIN_BEGIN, the pass over
    the training data with a BATCH_BEGIN / BATCH_END pair for each batch
    it yielded, EPOCH_TRAIN_END, then (only when there is validation data)
    EPOCH_VALIDATE_BEGIN, the pass over the validation data with a pair
    for each of its batches and EPOCH_VALIDATE_END, then EPOCH_END; and at
    the end TRAIN_END.  A call that raises has shown the beginning of such
    a sequence; a call whose arguments are rejected has shown nothing.
    Without validation data no EPOCH_VALIDATE_BEGIN or EPOCH_VALIDATE_END
    is notified at all. *)
Theorem fit_event_order x y batch_size epochs validation_data s s' t r :
  fit x y batch_size epochs validation_data s = (s', t, r) ->
  events_of t = obs_events (observed t) /\
  (forall td vd,
      train_data x y = Ok td -> validation validation_data = Ok vd ->
      exists counts : list (nat * nat),
        length counts = Z.to_nat epochs /\
        match r with
        | Ok _ => observed t = state_machine td vd counts
        | Raise _ => observed t `prefix_of` state_machine td vd counts
        end) /\
  (forall e, train_data x y = Raise e -> t = [] /\ r = Raise e) /\
  (forall td e,
      train_data x y = Ok td -> validation validation_data = Raise e ->
      t = [] /\ r = Raise e) /\
  (obj_truthy validation_data = false ->
   Forall (fun ev => is_validate_event ev = false) (events_of t)).
Proof.
  intros H. split_and!.
  - by rewrite observed_events.
  - intros td vd Htd Hvd.
    destruct (sees_fit _ _ _ _ _ _ _ Htd Hvd _ _ _ _ H) as [_ Hs].
    destruct r as [h|e].
    + destruct Hs as (counts & Hlen & ->). by exists counts.
    + destruct Hs as (w & (counts & Hlen & ->) & Hp). by exists counts.
  - intros e Htd. unfold fit, mbind, lift_res in H. rewrite Htd in H.
    by injection H as <- <- <-.
  - intros td e Htd Hvd. unfold fit, mbind, lift_res in H. rewrite Htd, Hvd in H.
    by injection H as <- <- <-.
  - intros Hnone. apply evs_fit in H.
    pose proof (fit_events_no_validate) as Hall. rewrite Hnone in H.
    destruct r as [h|e].
    + destruct H as (counts & _ & ->). apply Hall.
    + destruct H as (w & (counts & _ & ->) & [k Hk]). specialize (Hall counts).
      rewrite Hk in Hall. by apply Forall_app in Hall as [? _].
Qed.


(** ** Exceptions go through [fit] *)

Lemma raises_last_lift_ext {A} (f : Ext A) : raises_last (lift_ext f).
Proof.
  intros s s' t r H. apply lift_ext_trace in H as ->.
  destruct r; simpl; [|left]; apply clean_nil.
Qed.

#[local] Hint Resolve raises_last_lift_ext : raises.

Lemma raises_last_attach_listener l priority : raises_last (attach_listener l priority).
Proof. unfold attach_listener. repeat raises_step. Qed.

Lemma raises_last_add_hook ev hook : raises_last (add_hook ev hook).
Proof. apply raises_last_modify_self. Qed.

#[local] Hint Resolve raises_last_attach_listener raises_last_add_hook : raises.

Lemma raises_last_fit x y batch_size epochs validation_data :
  raises_last (fit x y batch_size epochs validation_data).
Proof.
  pose proof raises_last_main_loop.
  unfold fit. repeat raises_step; auto using raises_last_with_reporter.
Qed.

Lemma clean_not_raised t pre a post e :
  clean t -> t = pre ++ a :: post -> raised a = Some e -> False.
Proof.
  intros Hc -> Ha. apply Forall_app in Hc as [_ Hc].
  apply Forall_cons in Hc as [Hc _]. congruence.
Qed.

(** Wherever an entry of the trace reports an exception, the trace ends
    there and the run raised that exception. *)
Lemma raise_ok_last {A} t (r : Res A) pre a post e :
  raise_ok t r -> t = pre ++ a :: post -> raised a = Some e ->
  post = [] /\ r = Raise e.
Proof.
  intros Hok Ht Ha. destruct r as [x|e']; simpl in Hok.
  - destruct (clean_not_raised _ _ _ _ _ Hok Ht Ha).
  - destruct Hok as [Hc | (pre' & a' & Ht' & Hc & Ha')].
    + destruct (clean_not_raised _ _ _ _ _ Hc Ht Ha).
    + destruct post as [|b post _] using rev_ind.
      * rewrite Ht in Ht'. apply app_inj_tail in Ht' as [_ <-].
        split; [done | congruence].
      * rewrite Ht, app_comm_cons, app_assoc in Ht'.
        apply app_inj_tail in Ht' as [<- _].
        destruct (clean_not_raised _ pre a post e Hc eq_refl Ha).
Qed.

(** ** The shape of a run that returns *)

Lemma mbind_ok_inv {A B} (m : M A) (k : A -> M B) s s' t b :
  mbind m k s = (s', t, Ok b) ->
  exists s1 t1 a t2,
    m s = (s1, t1, Ok a) /\ k a s1 = (s', t2, Ok b) /\ t = t1 ++ t2.
Proof.
  intros H. apply mbind_inv in H as [H | (e & _ & [=])]. done.
Qed.

Ltac mnext H :=
  let s1 := fresh "s" in
  let t1 := fresh "t" in
  let a := fresh "a" in
  let t2 := fresh "t" in
  let Hm := fresh "Hm" in
  apply mbind_ok_inv in H;
  destruct H as (s1 & t1 & a & t2 & Hm & H & ->);
  cbv beta in H.

Tactic Notation "mok" hyp(H) "as" ident(s1) ident(t1) ident(a) ident(Hm) :=
  let t2 := fresh "t" in
  apply mbind_ok_inv in H;
  destruct H as (s1 & t1 & a & t2 & Hm & H & ->);
  cbv beta in H.

(** A pure step at the head of a run that returns. *)
Tactic Notation "mpure" hyp(H) "as" ident(a) ident(Ha) :=
  let s1 := fresh "s" in
  let t1 := fresh "t" in
  let t2 := fresh "t" in
  let Hm := fresh "Hm" in
  apply mbind_ok_inv in H;
  destruct H as (s1 & t1 & a & t2 & Hm & H & ->);
  cbv beta in H;
  first [ apply lift_res_inv in Hm | apply get_self_inv in Hm | apply mret_inv in Hm ];
  destruct Hm as (-> & -> & Ha);
  rewrite ?app_nil_l.

Lemma core_app t1 t2 : core (t1 ++ t2) = core t1 ++ core t2.
Proof. apply filter_app. Qed.

Lemma core_run_callbacks ev cbs log s s' t r :
  run_callbacks ev cbs log s = (s', t, r) -> core t = [].
Proof.
  revert log s t. induction cbs as [|[who cb] cbs IH]; intros log s t H; simpl in H.
  - by mprim H.
  - msplit H.
    + apply call_cb_inv in Hm as [_ [(l & [= <-] & _ & ->) | (e & [=] & _)]].
      apply IH in Hk. by rewrite core_app, Hk.
    + by apply call_cb_inv in Hm as [_ [(l & [=] & _) | (e' & _ & _ & ->)]].
Qed.

Lemma core_notify ev log s s' t r :
  notify ev log s = (s', t, r) -> core t = [ANotify ev log] /\ self s' = self s.
Proof.
  intros H. split; [|by apply keeps_self_notify in H].
  apply notify_inv in H as (t' & -> & H). apply core_run_callbacks in H.
  unfold core in *. rewrite filter_cons_True by done. by rewrite H.
Qed.

Lemma core_ext_call {A} c enc (f : Ext A) s s' t a :
  ext_call c enc f s = (s', t, Ok a) ->
  core t = [ACall c; ARet (enc a)] /\ self s' = self s.
Proof.
  intros H. by apply ext_call_inv in H as [? [(a' & [= <-] & _ & ->) | (e & [=] & _)]].
Qed.

(** What [convert] leaves in the trace: nothing when it is the identity. *)
Definition convert_trace (convert : option (value -> Ext value)) (arg r : value)
    : list Action :=
  match convert with
  | Some _ => [ACall (CConvert arg); ARet r]
  | None => []
  end.

Lemma core_apply_convert convert v s s' t r :
  apply_convert convert v s = (s', t, Ok r) ->
  core t = convert_trace convert v r /\ self s' = self s /\
  (convert = None -> r = v).
Proof.
  unfold apply_convert. destruct convert as [c|]; intros H.
  - apply core_ext_call in H as [-> ->]. done.
  - by mprim H.
Qed.

(** What was observed while one batch was processed. *)
Record BatchRun := {
  br_inputs : list value;       (* batch[:-1] *)
  br_targets : value;           (* batch[-1] *)
  br_conv : value;              (* what [convert] returned for the inputs *)
  br_ts : value;                (* the converted targets *)
  br_size : Z;                  (* len(ts) *)
  br_log : Log;                 (* the record as the BATCH_BEGIN callbacks left it *)
  br_args : list value;         (* the positional arguments of [forward] *)
  br_ys : value;                (* the predictions *)
  br_loss : value;              (* what the loss function returned *)
  br_float : F                  (* loss.__float__() *)
}.

(** What [convert] is applied to for the inputs: the column itself when
    there is exactly one input column, the tuple of columns otherwise. *)
Definition convert_arg (xs : list value) : value :=
  match xs with
  | [x0] => x0
  | _ => VSeq xs
  end.

(** The converted inputs [xs], as they are unpacked for [forward]. *)
Definition br_xs (b : BatchRun) : value :=
  match br_inputs b with
  | [_] => VSeq [br_conv b]
  | _ => br_conv b
  end.

Definition batch_run_ok (convert : option (value -> Ext value)) (b : BatchRun) : Prop :=
  py_len (br_ts b) = Ok (br_size b) /\
  py_iter (br_xs b) = Ok (br_args b) /\
  py_float (br_loss b) = Ok (br_float b) /\
  (convert = None ->
   br_conv b = convert_arg (br_inputs b) /\ br_ts b = br_targets b).

(** The trainer's part of the trace of one batch. *)
Definition batch_core (convert : option (value -> Ext value)) (train : bool)
    (opt : Optimizer) (num_batches : Z) (batch_index : nat) (b : BatchRun)
    : list Action :=
  convert_trace convert (convert_arg (br_inputs b)) (br_conv b) ++
  convert_trace convert (br_targets b) (br_ts b) ++
  [ANotify BATCH_BEGIN
     (new_batch_logs train batch_index (br_size b) (br_xs b) (br_ts b) num_batches);
   ACall (CForward (br_args b)); ARet (br_ys b);
   ACall (CLoss (br_ys b) (br_ts b)); ARet (br_loss b)] ++
  (if train then [ACall (CUpdate opt (br_loss b)); ARet VNone] else []) ++
  [ANotify BATCH_END
     (<["loss" := VFloat (br_float b)]> (<["ys" := br_ys b]> (br_log b)))].

Lemma py_init_last_inv batch xs ts :
  py_init batch = Ok xs -> py_last batch = Ok ts -> batch = VSeq (xs ++ [ts]).
Proof.
  destruct batch as [| | | |l]; try done. simpl.
  intros [= <-]. destruct (last l) as [x|] eqn:Hl; [|done]. intros [= <-].
  f_equal. destruct l as [|a l] using rev_ind; [done|].
  rewrite last_snoc in Hl. injection Hl as ->. by rewrite removelast_last.
Qed.

Lemma batch_step_shape forward lossfun convert nb train i batch logs s s' t logs' :
  batch_step forward lossfun convert nb train i batch logs s = (s', t, Ok logs') ->
  exists b cur sum,
    batch = VSeq (br_inputs b ++ [br_targets b]) /\
    batch_run_ok convert b /\
    core t = batch_core convert train (_optimizer (self s)) nb i b /\
    self s' = self s /\
    py_getitem logs "loss" = Ok cur /\
    py_add_float cur (br_float b) = Ok sum /\
    logs' = <["loss" := sum]> logs.
Proof.
  unfold batch_step. intros H.
  mpure H as xs Hxs. mpure H as ts0 Hts0.
  mok H as s1 tr1 cxs Hcx.
  assert (Hconv : exists r, core tr1 = convert_trace convert (convert_arg xs) r
            /\ self s1 = self s /\ cxs = match xs with [_] => VSeq [r] | _ => r end
            /\ (convert = None -> r = convert_arg xs)).
  { destruct xs as [|x0 [|x1 xs]].
    - apply core_apply_convert in Hcx as (Hc & Hs & Hn). by exists cxs.
    - mok Hcx as s1' tr1' c Hc. mprim Hcx. apply core_apply_convert in Hc as (Hc & Hs & Hn).
      exists c. by rewrite app_nil_r.
    - apply core_apply_convert in Hcx as (Hc & Hs & Hn). by exists cxs. }
  clear Hcx. destruct Hconv as (r & Hc1 & Hs1 & Hcxs & Hn1).
  mok H as s2 tr2 ts Hct. apply core_apply_convert in Hct as (Hc2 & Hs2 & Hn2).
  mpure H as n Hn.
  mok H as s3 tr3 blog Hbb. apply core_notify in Hbb as (Hc3 & Hs3).
  mpure H as args Hargs.
  mok H as s4 tr4 ys Hf. apply core_ext_call in Hf as (Hc4 & Hs4).
  mok H as s5 tr5 loss Hl. apply core_ext_call in Hl as (Hc5 & Hs5).
  mpure H as l Hfl. mpure H as cur Hcur. mpure H as l' Hfl'. mpure H as sum Hsum.
  mok H as s6 tr6 u Hu.
  mok H as s7 tr7 blog' Hbe. apply core_notify in Hbe as (Hc7 & Hs7).
  mprim H.
  assert (Hupd : core tr6 =
                 (if train then [ACall (CUpdate (_optimizer (self s)) loss); ARet VNone]
                  else []) /\ self s6 = self s5).
  { destruct train.
    - mpure Hu as slf Hslf. apply core_ext_call in Hu as [-> ->].
      injection Hslf as ->. by rewrite Hs5, Hs4, Hs3, Hs2, Hs1.
    - by mprim Hu. }
  destruct Hupd as [Hc6 Hs6].
  exists {| br_inputs := xs; br_targets := ts0; br_conv := r; br_ts := ts;
            br_size := n; br_log := blog; br_args := args; br_ys := ys;
            br_loss := loss; br_float := l |}, cur, sum.
  simpl. split_and!.
  - by apply py_init_last_inv.
  - unfold batch_run_ok, br_xs. simpl. split_and!; auto.
  - rewrite !core_app, Hc1, Hc2, Hc3, Hc4, Hc5, Hc6, Hc7.
    unfold batch_core, br_xs. simpl. by rewrite <- ?app_assoc.
  - congruence.
  - done.
  - congruence.
  - done.
Qed.

(** The batch as the dataset yielded it: the input columns, then the
    targets. *)
Definition br_batch (b : BatchRun) : value :=
  VSeq (br_inputs b ++ [br_targets b]).

Fixpoint batch_cores (convert : option (value -> Ext value)) (train : bool)
    (opt : Optimizer) (num_batches : Z) (batch_index : nat) (runs : list BatchRun)
    : list Action :=
  match runs with
  | [] => []
  | b :: runs' =>
      batch_core convert train opt num_batches batch_index b
        ++ batch_cores convert train opt num_batches (S batch_index) runs'
  end.

(** The sum as the loop forms it: from the left, starting from [acc]. *)
Definition fsum (acc : F) (xs : list F) : F := fold_left fadd xs acc.

Lemma batch_loop_shape forward lossfun convert nb train batches :
  forall i logs s s' t logs' acc,
    batch_loop (batch_step forward lossfun convert nb train) i batches logs s
      = (s', t, Ok logs') ->
    logs !! "loss" = Some (VFloat acc) ->
    exists runs,
      batches = map br_batch runs /\
      Forall (batch_run_ok convert) runs /\
      core t = batch_cores convert train (_optimizer (self s)) nb i runs /\
      self s' = self s /\
      logs' = <["loss" := VFloat (fsum acc (map br_float runs))]> logs.
Proof.
  induction batches as [|batch batches IH]; intros i logs s s' t logs' acc H Hacc;
    simpl in H.
  - mprim H. exists []. split_and!; try done. simpl. by rewrite insert_id.
  - mok H as s1 tr1 logs1 Hb.
    apply batch_step_shape in Hb
      as (b & cur & sum & -> & Hok & Hc & Hs1 & Hcur & Hsum & ->).
    unfold py_getitem in Hcur. rewrite Hacc in Hcur. injection Hcur as <-.
    simpl in Hsum. injection Hsum as <-.
    eapply IH in H as (runs & -> & Hoks & Hcs & Hs' & ->);
      [|by rewrite lookup_insert_eq].
    exists (b :: runs). split_and!.
    + done.
    + by constructor.
    + rewrite core_app, Hc, Hcs, Hs1. done.
    + congruence.
    + by rewrite insert_insert_eq.
Qed.

Lemma process_shape forward dataset lossfun convert batch_size logs0 train s s' t out :
  _process forward dataset lossfun convert batch_size logs0 train s = (s', t, Ok out) ->
  let nb := ceil_div (ds_size dataset) batch_size in
  exists runs blog,
    batch_size <> 0 /\ nb <> 0 /\
    out = logs0 /\ self s' = self s /\
    Forall (batch_run_ok convert) runs /\
    core t =
      [ANotify (phase_begin train)
         (<["loss" := VNone]>
            (<["num_batches" := VInt nb]>
               (<["size" := VInt (ds_size dataset)]> logs0)));
       ACall (CBatch dataset batch_size train); ARet (VSeq (map br_batch runs))]
      ++ batch_cores convert train (_optimizer (self s)) nb 0 runs
      ++ [ANotify (phase_end train)
            (<["loss" := VFloat (fdiv (fsum f0 (map br_float runs)) (f_of_Z nb))]> blog)].
Proof.
  intros H nb. unfold _process in H.
  mpure H as nb' Hnb. unfold py_ceil_div in Hnb.
  destruct (batch_size =? 0) eqn:Hbs; [done|]. injection Hnb as ->. fold nb in H.
  mok H as s1 tr1 blog Hbeg. apply core_notify in Hbeg as (Hc1 & Hs1).
  mok H as s2 tr2 batches Hba. apply core_ext_call in Hba as (Hc2 & Hs2).
  mok H as s3 tr3 logs3 Hloop.
  eapply batch_loop_shape in Hloop as (runs & Hbs' & Hoks & Hc3 & Hs3 & Hl3);
    [|by rewrite lookup_insert_eq].
  subst batches logs3.
  mpure H as cur Hcur. unfold py_getitem in Hcur.
  rewrite lookup_insert_eq in Hcur. injection Hcur as ->.
  mpure H as mean Hmean. simpl in Hmean.
  destruct (nb =? 0) eqn:Hnb0; [done|]. injection Hmean as ->.
  mok H as s4 tr4 elog Hend. apply core_notify in Hend as (Hc4 & Hs4).
  mprim H.
  exists runs, blog. split_and!.
  - by apply Z.eqb_neq.
  - by apply Z.eqb_neq.
  - done.
  - congruence.
  - done.
  - rewrite !core_app, Hc1, Hc2, Hc3, Hc4, Hs2, Hs1.
    rewrite !insert_insert_eq. simpl. by rewrite <- ?app_assoc, ?app_nil_r.
Qed.

(** ** What the notifications carry *)

(** The records handed to the notifications of [ev], in order. *)
Definition records_of (ev : TrainEvent) (t : list Action) : list Log :=
  omap (fun a => match a with
                 | ANotify e log => if decide (e = ev) then Some log else None
                 | _ => None
                 end) t.


Lemma records_of_app ev t1 t2 :
  records_of ev (t1 ++ t2) = records_of ev t1 ++ records_of ev t2.
Proof. apply omap_app. Qed.

Lemma records_of_core ev t : records_of ev (core t) = records_of ev t.
Proof.
  induction t as [|a t IH]; [done|]. unfold core in *.
  destruct a; simpl; rewrite ?filter_cons_True, ?filter_cons_False by (simpl; congruence);
    simpl; by rewrite IH.
Qed.

Lemma records_of_absent ev t : ev ∉ events_of t -> records_of ev t = [].
Proof.
  induction t as [|a t IH]; [done|]. destruct a; simpl; auto.
  intros Hn. apply not_elem_of_cons in Hn as [Hne Hn].
  destruct (decide (ev0 = ev)) as [->|_]; [done | by apply IH].
Qed.



Lemma records_of_convert_trace ev convert arg r :
  records_of ev (convert_trace convert arg r) = [].
Proof. by destruct convert. Qed.

Lemma batch_core_records ev convert train opt nb i b :
  records_of ev (batch_core convert train opt nb i b) =
  (if decide (BATCH_BEGIN = ev)
   then [new_batch_logs train i (br_size b) (br_xs b) (br_ts b) nb] else [])
  ++ (if decide (BATCH_END = ev)
      then [<["loss" := VFloat (br_float b)]> (<["ys" := br_ys b]> (br_log b))]
      else []).
Proof.
  unfold batch_core. rewrite !records_of_app, !records_of_convert_trace.
  destruct train; simpl; by repeat case_decide.
Qed.


Lemma batch_cores_records ev convert train opt nb i runs :
  ev <> BATCH_BEGIN -> ev <> BATCH_END ->
  records_of ev (batch_cores convert train opt nb i runs) = [].
Proof.
  intros H1 H2. revert i. induction runs as [|b runs IH]; intros i; [done|].
  simpl. rewrite records_of_app, IH, batch_core_records.
  by repeat case_decide.
Qed.


(** ** Where the update strategy is called *)

Definition is_update (a : Action) : bool :=
  match a with
  | ACall (CUpdate _ _) => true
  | _ => false
  end.

Definition no_update {A} (m : M A) : Prop :=
  forall s s' t r, m s = (s', t, r) -> Forall (fun a => is_update a = false) t.

Lemma no_update_bind {A B} (m : M A) (k : A -> M B) :
  no_update m -> (forall a, no_update (k a)) -> no_update (mbind m k).
Proof.
  intros Hm Hk s s' t r H. msplit H.
  - apply Forall_app. split; [by apply Hm in Hm0 | by apply Hk in Hk0].
  - by apply Hm in Hm0.
Qed.

Lemma no_update_ret {A} (a : A) : no_update (mret a).
Proof. intros s s' t r H. mprim H. constructor. Qed.

Lemma no_update_lift_res {A} (x : Res A) : no_update (lift_res x).
Proof. intros s s' t r H. mprim H. constructor. Qed.

Lemma no_update_ext_call {A} c enc (f : Ext A) :
  is_update (ACall c) = false -> no_update (ext_call c enc f).
Proof.
  intros Hc s s' t r H.
  apply ext_call_inv in H as [_ [(a & -> & _ & ->) | (e & -> & _ & ->)]];
    by repeat constructor.
Qed.

Lemma no_update_run_callbacks ev cbs log : no_update (run_callbacks ev cbs log).
Proof.
  revert log. induction cbs as [|[who cb] cbs IH]; intros log; simpl.
  - apply no_update_ret.
  - apply no_update_bind; [|intros; apply IH].
    intros s s' t r H.
    apply call_cb_inv in H as [_ [(a & -> & _ & ->) | (e & -> & _ & ->)]];
      by repeat constructor.
Qed.

Lemma no_update_notify ev log : no_update (notify ev log).
Proof.
  intros s s' t r H. apply notify_inv in H as (t' & -> & H).
  apply no_update_run_callbacks in H. by constructor.
Qed.

Create HintDb updates discriminated.
#[local] Hint Resolve no_update_ret no_update_lift_res no_update_notify : updates.

Ltac no_update_step :=
  match goal with
  | |- no_update (mbind _ _) => apply no_update_bind; [|intros]
  | |- no_update (ext_call _ _ _) => by apply no_update_ext_call
  | |- no_update (match ?x with _ => _ end) => destruct x
  | |- no_update _ => solve [auto with updates]
  end.

Lemma no_update_apply_convert convert v : no_update (apply_convert convert v).
Proof. unfold apply_convert. repeat no_update_step. Qed.

#[local] Hint Resolve no_update_apply_convert : updates.

Lemma no_update_batch_step forward lossfun convert nb i batch logs :
  no_update (batch_step forward lossfun convert nb false i batch logs).
Proof. unfold batch_step. repeat no_update_step. Qed.

Lemma no_update_batch_loop body i batches logs :
  (forall i b l, no_update (body i b l)) -> no_update (batch_loop body i batches logs).
Proof.
  intros Hb. revert i logs. induction batches as [|b bs IH]; intros i logs; simpl.
  - apply no_update_ret.
  - apply no_update_bind; [apply Hb | intros; apply IH].
Qed.

Lemma no_update_process forward dataset lossfun convert batch_size logs0 :
  no_update (_process forward dataset lossfun convert batch_size logs0 false).
Proof.
  unfold _process. repeat no_update_step.
  apply no_update_batch_loop. intros. apply no_update_batch_step.
Qed.

(** A list cut at one of its elements, when the list is a concatenation:
    the element lies in the first part or in the second. *)
Lemma app_cut {A} (l k pre post : list A) (y : A) :
  l ++ k = pre ++ y :: post ->
  (exists post0, l = pre ++ y :: post0 /\ post = post0 ++ k) \/
  (exists pre0, k = pre0 ++ y :: post /\ pre = l ++ pre0).
Proof.
  revert pre. induction l as [|x l IH]; intros pre H; simpl in H.
  - right. by exists pre.
  - destruct pre as [|p pre]; simpl in H.
    + injection H as -> <-. left. by exists l.
    + injection H as -> H. apply IH in H as [(post0 & -> & ->) | (pre0 & -> & ->)].
      * left. by exists post0.
      * right. by exists pre0.
Qed.

Lemma Forall_core (P : Action -> Prop) t : Forall P t -> Forall P (core t).
Proof.
  intros H. apply Forall_forall. intros a Ha.
  apply list_elem_of_filter in Ha as [_ Ha]. by eapply Forall_forall in H.
Qed.

(** ** The end of a batch, whatever the outcome *)

Definition is_ok {A} (r : Res A) : bool :=
  match r with
  | Ok _ => true
  | Raise _ => false
  end.

(** The entries that end a batch: the call of the loss function, the call
    of the update strategy and the BATCH_END notification. *)
Definition is_late (a : Action) : bool :=
  match a with
  | ACall (CLoss _ _) | ACall (CUpdate _ _) | ANotify BATCH_END _ => true
  | _ => false
  end.

(** What the update strategy leaves in the trace of a batch that goes on
    to BATCH_END. *)
Definition update_trace (train : bool) (opt : Optimizer) (loss : value) : list Action :=
  if train then [ACall (CUpdate opt loss); ARet VNone] else [].

(** [late_shape train opt finished t]: in [t] the loss function, the
    update strategy and BATCH_END come only in this order: the loss is
    returned, then (in training only) the update strategy is called with
    [opt] and that loss and returns, then BATCH_END is notified.  Only
    when [finished] is false may [t] end inside such a group: with the
    loss function raising, after the loss was returned, or with the update
    strategy raising. *)
Inductive late_shape (train : bool) (opt : Optimizer) : bool -> list Action -> Prop :=
| late_nil finished : late_shape train opt finished []
| late_early finished a t :
    is_late a = false -> late_shape train opt finished t ->
    late_shape train opt finished (a :: t)
| late_batch finished ys ts l log t :
    late_shape train opt finished t ->
    late_shape train opt finished
      ([ACall (CLoss ys ts); ARet l] ++ update_trace train opt l
         ++ ANotify BATCH_END log :: t)
| late_loss_exn ys ts e :
    late_shape train opt false [ACall (CLoss ys ts); AExn e]
| late_loss_only ys ts l :
    late_shape train opt false [ACall (CLoss ys ts); ARet l]
| late_update_exn ys ts l e :
    train = true ->
    late_shape train opt false
      [ACall (CLoss ys ts); ARet l; ACall (CUpdate opt l); AExn e].

Lemma late_shape_early train opt finished t :
  Forall (fun a => is_late a = false) t -> late_shape train opt finished t.
Proof.
  induction 1 as [|a t Ha _ IH]; [constructor | by apply late_early].
Qed.

Lemma late_shape_app train opt finished t1 t2 :
  late_shape train opt true t1 -> late_shape train opt finished t2 ->
  late_shape train opt finished (t1 ++ t2).
Proof.
  intros H1 H2. remember true as b eqn:Hb.
  induction H1 as [b|b a t Ha _ IH|b ys ts l log t _ IH| | |]; try discriminate.
  - done.
  - simpl. apply late_early; auto.
  - replace (([ACall (CLoss ys ts); ARet l] ++ update_trace train opt l
                ++ ANotify BATCH_END log :: t) ++ t2)
      with ([ACall (CLoss ys ts); ARet l] ++ update_trace train opt l
              ++ ANotify BATCH_END log :: (t ++ t2))
      by (by rewrite <- !app_assoc).
    apply late_batch; auto.
Qed.

Definition early {A} (m : M A) : Prop :=
  forall s s' t r, m s = (s', t, r) -> Forall (fun a => is_late a = false) t.

Lemma early_bind {A B} (m : M A) (k : A -> M B) :
  early m -> (forall a, early (k a)) -> early (mbind m k).
Proof.
  intros Hm Hk s s' t r H. msplit H.
  - apply Forall_app. split; [by apply Hm in Hm0 | by apply Hk in Hk0].
  - by apply Hm in Hm0.
Qed.

Lemma early_ret {A} (a : A) : early (mret a).
Proof. intros s s' t r H. mprim H. constructor. Qed.

Lemma early_lift_res {A} (x : Res A) : early (lift_res x).
Proof. intros s s' t r H. mprim H. constructor. Qed.

Lemma early_ext_call {A} c enc (f : Ext A) :
  is_late (ACall c) = false -> early (ext_call c enc f).
Proof.
  intros Hc s s' t r H.
  apply ext_call_inv in H as [_ [(a & -> & _ & ->) | (e & -> & _ & ->)]];
    by repeat constructor.
Qed.

Lemma early_run_callbacks ev cbs log : early (run_callbacks ev cbs log).
Proof.
  revert log. induction cbs as [|[who cb] cbs IH]; intros log; simpl.
  - apply early_ret.
  - apply early_bind; [|intros; apply IH].
    intros s s' t r H.
    apply call_cb_inv in H as [_ [(a & -> & _ & ->) | (e & -> & _ & ->)]];
      by repeat constructor.
Qed.

Lemma early_notify ev log : ev <> BATCH_END -> early (notify ev log).
Proof.
  intros Hev s s' t r H. apply notify_inv in H as (t' & -> & H).
  apply early_run_callbacks in H. constructor; [by destruct ev | done].
Qed.

Lemma early_apply_convert convert v : early (apply_convert convert v).
Proof.
  unfold apply_convert. destruct convert; [by apply early_ext_call | apply early_ret].
Qed.

Ltac early_piece :=
  match goal with
  | |- Forall _ [] => constructor
  | H : notify _ _ _ = (_, ?t, _) |- Forall _ ?t =>
      refine (early_notify _ _ _ _ _ _ _ H); first [assumption | done]
  | H : apply_convert _ _ _ = (_, ?t, _) |- Forall _ ?t =>
      exact (early_apply_convert _ _ _ _ _ _ H)
  | H : ext_call ?c _ _ _ = (_, ?t, _) |- Forall _ ?t =>
      exact (early_ext_call c _ _ eq_refl _ _ _ _ H)
  | H : Forall _ ?t |- Forall _ ?t => exact H
  end.

Ltac early_here :=
  apply late_shape_early, Forall_core; rewrite ?app_nil_r;
  repeat (apply Forall_app; split); early_piece.

(** One batch. *)
Lemma batch_step_late forward lossfun convert nb train i batch logs s s' t r :
  batch_step forward lossfun convert nb train i batch logs s = (s', t, r) ->
  late_shape train (_optimizer (self s)) (is_ok r) (core t).
Proof.
  unfold batch_step. intros H.
  mcase H as s1 u1 xs u1' Hxs H; [|mprim Hxs; early_here].
  mprim Hxs.
  mcase H as s2 u2 ts0 u2' Hts0 H; [|mprim Hts0; early_here].
  mprim Hts0.
  assert (Hex : early (match xs with
                       | [x0] => c <- apply_convert convert x0;; mret (VSeq [c])
                       | _ => apply_convert convert (VSeq xs)
                       end)).
  { destruct xs as [|x0 [|x1 xs]]; try apply early_apply_convert.
    apply early_bind; [apply early_apply_convert | intros; apply early_ret]. }
  assert (Hkx : keeps_self (match xs with
                            | [x0] => c <- apply_convert convert x0;; mret (VSeq [c])
                            | _ => apply_convert convert (VSeq xs)
                            end))
    by (pose proof keeps_self_apply_convert; repeat keeps_step; auto).
  mcase H as s3 ucx cxs u3' Hcx H;
    [|pose proof (Hex _ _ _ _ Hcx); early_here].
  pose proof (Hex _ _ _ _ Hcx) as Hecx. apply Hkx in Hcx as Hs3.
  mcase H as s4 uct ts u4' Hct H; [|early_here].
  pose proof (keeps_self_apply_convert _ _ _ _ _ _ Hct) as Hs4.
  mcase H as s5 u5 n u5' Hn H; [|mprim Hn; early_here].
  mprim Hn.
  mcase H as s6 ubb blog u6' Hbb H; [|early_here].
  pose proof (keeps_self_notify _ _ _ _ _ _ Hbb) as Hs6.
  mcase H as s7 u7 args u7' Hargs H; [|mprim Hargs; early_here].
  mprim Hargs.
  mcase H as s8 uf ys u8' Hf H; [|early_here].
  pose proof (keeps_self_ext_call _ _ _ _ _ _ _ Hf) as Hs8.
  assert (Hopt : _optimizer (self s8) = _optimizer (self s)) by congruence.
  rewrite <- Hopt. clear Hopt Hs3 Hs4 Hs6 Hs8 Hkx.
  rewrite ?app_nil_l, !core_app.
  repeat (apply late_shape_app; [apply late_shape_early, Forall_core; early_piece|]).
  clear Hcx Hct Hbb Hf Hex Hecx.
  mcase H as s9 ul loss u9' Hl H.
  2: { apply ext_call_inv in Hl as [_ [(a' & [=] & _) | (e' & _ & _ & ->)]].
       apply late_loss_exn. }
  apply core_ext_call in Hl as (Hc & Hs9).
  assert (Hstop : late_shape train (_optimizer (self s8)) false (core ul))
    by (rewrite Hc; apply late_loss_only).
  mcase H as s10 u10 l u10' Hfl H; [|mprim Hfl; by rewrite ?app_nil_r]. mprim Hfl.
  mcase H as s11 u11 cur u11' Hcur H; [|mprim Hcur; by rewrite ?app_nil_r]. mprim Hcur.
  mcase H as s12 u12 l' u12' Hfl' H; [|mprim Hfl'; by rewrite ?app_nil_r]. mprim Hfl'.
  mcase H as s13 u13 sum u13' Hsum H; [|mprim Hsum; by rewrite ?app_nil_r]. mprim Hsum.
  clear Hstop. simpl.
  assert (Hend : forall s0 s1 v (r1 : Res Log),
             (notify BATCH_END (<["loss":=VFloat l]> (<["ys":=ys]> blog));;;
              mret (<["loss":=sum]> logs)) s0 = (s1, v, r1) ->
             core v = [ANotify BATCH_END (<["loss":=VFloat l]> (<["ys":=ys]> blog))]).
  { intros s0 s1 v r1 Hn. mcase Hn as s2 v2 x2 v2' Hn2 Hn.
    - mprim Hn. rewrite app_nil_r. by apply core_notify in Hn2 as [? _].
    - by apply core_notify in Hn2 as [? _]. }
  destruct train.
  - mcase H as s14 uu x14 u14' Hu H.
    + mpure Hu as slf Hslf. injection Hslf as ->.
      apply core_ext_call in Hu as (Hcu & Hs14).
      apply Hend in H. rewrite !core_app, Hc, Hcu, H, Hs9.
      apply (late_batch true (_optimizer (self s8)) _ ys ts loss _ []). constructor.
    + apply mbind_inv in Hu as [(s15 & u15 & slf & u15' & Hg & Hu & ->) | (e0 & Hg & _)];
        [|by mprim Hg].
      mprim Hg.
      apply ext_call_inv in Hu as [_ [(a' & [=] & _) | (e' & _ & _ & ->)]].
      rewrite core_app, Hc, Hs9. by apply late_update_exn.
  - mcase H as s14 uu x14 u14' Hu H; [|by mprim Hu]. mprim Hu.
    apply Hend in H. rewrite !core_app, Hc, H.
    apply (late_batch false (_optimizer (self s8)) _ ys ts loss _ []). constructor.
Qed.

Lemma batch_loop_late forward lossfun convert nb train batches :
  forall i logs s s' t r,
    batch_loop (batch_step forward lossfun convert nb train) i batches logs s
      = (s', t, r) ->
    late_shape train (_optimizer (self s)) (is_ok r) (core t).
Proof.
  induction batches as [|b bs IH]; intros i logs s s' t r H; simpl in H.
  - mprim H. constructor.
  - mcase H as s1 u1 logs1 u1' Hb H.
    + pose proof (keeps_self_batch_step _ _ _ _ _ _ _ _ _ _ _ _ Hb) as Hs1.
      apply batch_step_late in Hb. apply IH in H. rewrite Hs1 in H.
      rewrite core_app. by apply late_shape_app.
    + by apply batch_step_late in Hb.
Qed.

Lemma process_late forward dataset lossfun convert batch_size logs0 train s s' t r :
  _process forward dataset lossfun convert batch_size logs0 train s = (s', t, r) ->
  late_shape train (_optimizer (self s)) (is_ok r) (core t).
Proof.
  unfold _process. intros H.
  assert (Hb : phase_begin train <> BATCH_END) by (by destruct train).
  assert (He : phase_end train <> BATCH_END) by (by destruct train).
  mcase H as s1 u1 nb u1' Hnb H; [|mprim Hnb; constructor]. mprim Hnb.
  mcase H as s2 u2 blog u2' Hbeg H; [|early_here].
  pose proof (keeps_self_notify _ _ _ _ _ _ Hbeg) as Hs2.
  mcase H as s3 u3 batches u3' Hba H; [|early_here].
  pose proof (keeps_self_ext_call _ _ _ _ _ _ _ Hba) as Hs3.
  assert (Hopt : _optimizer (self s3) = _optimizer (self s)) by congruence.
  rewrite <- Hopt. rewrite ?app_nil_l, !core_app.
  apply late_shape_app; [apply late_shape_early, Forall_core; early_piece|].
  apply late_shape_app; [apply late_shape_early, Forall_core; early_piece|].
  mcase H as s4 u4 logs4 u4' Hl H; [|by apply batch_loop_late in Hl].
  pose proof (keeps_self_batch_loop _ _ _ _
                (fun i b l => keeps_self_batch_step _ _ _ _ _ i b l) _ _ _ _ Hl) as Hs4.
  apply batch_loop_late in Hl. rewrite core_app. apply late_shape_app; [done|].
  mcase H as s5 u5 cur u5' Hcur H; [|mprim Hcur; constructor]. mprim Hcur.
  mcase H as s6 u6 mean u6' Hmean H; [|mprim Hmean; constructor]. mprim Hmean.
  mcase H as s7 u7 x7 u7' Hend H.
  - mprim H. early_here.
  - early_here.
Qed.

(** Where the update strategy is called in such a trace. *)
Lemma late_shape_update train opt finished t :
  late_shape train opt finished t ->
  forall pre o l post,
    t = pre ++ ACall (CUpdate o l) :: post ->
    train = true /\ o = opt /\
    (exists pre' ys ts, pre = pre' ++ [ACall (CLoss ys ts); ARet l]) /\
    ((exists log post', post = ARet VNone :: ANotify BATCH_END log :: post') \/
     (exists e, post = [AExn e])).
Proof.
  induction 1 as [b|b a t Ha _ IH|b ys ts l0 log t _ IH|ys ts e|ys ts l0|ys ts l0 e Htr];
    intros pre o l post Hcut.
  - by destruct pre.
  - destruct pre as [|p pre]; simplify_eq/=.
    destruct (IH _ _ _ _ eq_refl) as (Ht & Ho & (pre' & ys & ts & ->) & Hpost).
    split_and!; [done | done | by exists (p :: pre'), ys, ts | done].
  - destruct train; simpl in Hcut.
    + destruct pre as [|p0 [|p1 [|p2 [|p3 [|p4 pre]]]]]; simplify_eq/=.
      * split_and!; [done | done | by exists [], ys, ts | left; by eexists _, _].
      * destruct (IH _ _ _ _ eq_refl) as (Ht & Ho & (pre' & ys' & ts' & ->) & Hpost).
        split_and!; [done | done | | done].
        by exists (ACall (CLoss ys ts) :: ARet l0 :: ACall (CUpdate opt l0) :: ARet VNone
                   :: ANotify BATCH_END log :: pre'), ys', ts'.
    + destruct pre as [|p0 [|p1 [|p2 pre]]]; simplify_eq/=.
      destruct (IH _ _ _ _ eq_refl) as (Ht & _). done.
  - destruct pre as [|p0 [|p1 [|p2 pre]]]; simplify_eq/=.
  - destruct pre as [|p0 [|p1 [|p2 pre]]]; simplify_eq/=.
  - destruct pre as [|p0 [|p1 [|p2 [|p3 [|p4 pre]]]]]; simplify_eq/=.
    split_and!; [done | done | by exists [], ys, ts | right; by eexists].
Qed.

(** What comes before BATCH_END in such a trace. *)
Lemma late_shape_batch_end train opt finished t :
  late_shape train opt finished t ->
  forall pre log post,
    t = pre ++ ANotify BATCH_END log :: post ->
    exists pre' ys ts l,
      pre = pre' ++ [ACall (CLoss ys ts); ARet l] ++ update_trace train opt l.
Proof.
  induction 1 as [b|b a t Ha _ IH|b ys ts l0 log0 t _ IH|ys ts e|ys ts l0|ys ts l0 e Htr];
    intros pre log post Hcut.
  - by destruct pre.
  - destruct pre as [|p pre]; simplify_eq/=.
    destruct (IH _ _ _ eq_refl) as (pre' & ys & ts & l & ->).
    by exists (p :: pre'), ys, ts, l.
  - destruct train; simpl in Hcut.
    + destruct pre as [|p0 [|p1 [|p2 [|p3 [|p4 pre]]]]]; simplify_eq/=.
      * by exists [], ys, ts, l0.
      * destruct (IH _ _ _ eq_refl) as (pre' & ys' & ts' & l & ->).
        by exists (ACall (CLoss ys ts) :: ARet l0 :: ACall (CUpdate opt l0) :: ARet VNone
                   :: ANotify BATCH_END log0 :: pre'), ys', ts', l.
    + destruct pre as [|p0 [|p1 [|p2 pre]]]; simplify_eq/=.
      * by exists [], ys, ts, l0.
      * destruct (IH _ _ _ eq_refl) as (pre' & ys' & ts' & l & ->).
        by exists (ACall (CLoss ys ts) :: ARet l0 :: ANotify BATCH_END log0 :: pre'),
             ys', ts', l.
  - destruct pre as [|p0 [|p1 [|p2 pre]]]; simplify_eq/=.
  - destruct pre as [|p0 [|p1 [|p2 pre]]]; simplify_eq/=.
  - destruct pre as [|p0 [|p1 [|p2 [|p3 [|p4 pre]]]]]; simplify_eq/=.
Qed.

(** What comes after the loss was returned. *)
Lemma late_shape_loss train opt finished t :
  late_shape train opt finished t ->
  forall pre ys ts l post,
    t = pre ++ ACall (CLoss ys ts) :: ARet l :: post ->
    (finished = false /\ post = []) \/
    (train = true /\ exists post', post = ACall (CUpdate opt l) :: post') \/
    (train = false /\ exists log post', post = ANotify BATCH_END log :: post').
Proof.
  induction 1 as [b|b a t Ha _ IH|b ys0 ts0 l0 log0 t _ IH|ys0 ts0 e|ys0 ts0 l0
                 |ys0 ts0 l0 e Htr];
    intros pre ys ts l post Hcut.
  - by destruct pre.
  - destruct pre as [|p pre]; simplify_eq/=. by eapply IH.
  - destruct train; simpl in Hcut.
    + destruct pre as [|p0 [|p1 [|p2 [|p3 [|p4 pre]]]]]; simplify_eq/=.
      * right. left. split; [done | by eexists].
      * by eapply IH.
    + destruct pre as [|p0 [|p1 [|p2 pre]]]; simplify_eq/=.
      * right. right. split; [done | by eexists _, _].
      * by eapply IH.
  - destruct pre as [|p0 [|p1 [|p2 pre]]]; simplify_eq/=.
  - destruct pre as [|p0 [|p1 [|p2 pre]]]; simplify_eq/=. by left.
  - destruct pre as [|p0 [|p1 [|p2 [|p3 [|p4 pre]]]]]; simplify_eq/=.
    right. left. split; [done | by eexists].
Qed.

Lemma core_elem a t : a ∈ core t -> a ∈ t.
Proof. by intros [_ ?]%list_elem_of_filter. Qed.

(** C5. The update strategy is called in training batches only, and in
    every one of them.  A validation phase never calls it, whatever its
    outcome.  In a training phase, whatever its outcome: every call of it
    is made with the trainer's optimizer and the loss of the batch, right
    after the loss function returned that loss, and is followed by
    BATCH_END, unless it raises and ends the phase; every BATCH_END is
    notified right after the update strategy returned; and once the loss
    function has returned, the next call is the update strategy with that
    loss, unless the loss cannot be added up and the phase ends there. *)
Theorem update_only_when_training forward dataset lossfun convert batch_size logs0
    train s s' t r :
  _process forward dataset lossfun convert batch_size logs0 train s = (s', t, r) ->
  let opt := _optimizer (self s) in
  (train = false -> Forall (fun a => is_update a = false) t) /\
  (forall pre o l post,
      core t = pre ++ ACall (CUpdate o l) :: post ->
      train = true /\
      o = opt /\
      (exists pre' ys ts, pre = pre' ++ [ACall (CLoss ys ts); ARet l]) /\
      ((exists log post', post = ARet VNone :: ANotify BATCH_END log :: post') \/
       (exists e, post = [AExn e] /\ r = Raise e))) /\
  (forall pre log post,
      core t = pre ++ ANotify BATCH_END log :: post ->
      exists pre' ys ts l,
        pre = pre' ++ [ACall (CLoss ys ts); ARet l]
                ++ (if train then [ACall (CUpdate opt l); ARet VNone] else [])) /\
  (train = true ->
   forall pre ys ts l post,
     core t = pre ++ ACall (CLoss ys ts) :: ARet l :: post ->
     (post = [] /\ exists e, r = Raise e) \/
     (exists post', post = ACall (CUpdate opt l) :: post')).
Proof.
  intros H opt. pose proof (process_late _ _ _ _ _ _ _ _ _ _ _ H) as Hlate.
  fold opt in Hlate. split_and!.
  - intros ->. by apply no_update_process in H.
  - intros pre o l post Hcut.
    destruct (late_shape_update _ _ _ _ Hlate _ _ _ _ Hcut)
      as (Htr & Ho & Hpre & [Hpost|[e ->]]).
    + split_and!; [done | done | done | by left].
    + split_and!; [done | done | done | right].
      exists e. split; [done|].
      assert (Hin : AExn e ∈ t).
      { apply core_elem. rewrite Hcut, elem_of_app, !elem_of_cons. auto. }
      apply list_elem_of_split in Hin as (p & q & Ht).
      apply raises_last_process in H.
      by destruct (raise_ok_last _ _ _ _ _ _ H Ht eq_refl).
  - intros pre log post Hcut.
    by destruct (late_shape_batch_end _ _ _ _ Hlate _ _ _ Hcut) as (pre' & ys & ts & l & ->);
      eexists _, _, _, _.
  - intros -> pre ys ts l post Hcut.
    destruct (late_shape_loss _ _ _ _ Hlate _ _ _ _ _ Hcut)
      as [[Hr ->]|[[_ Hp]|[[=] _]]].
    + left. split; [done|]. destruct r; [done | by eexists].
    + by right.
Qed.

(** ** One batch *)

(** C8. A batch is split into its input columns (all but the last) and
    its targets (the last column).  The conversion function, when one is
    configured, is called on the inputs and then on the targets, before
    BATCH_BEGIN and so before forwarding; without one nothing is called
    and inputs and targets go through unchanged.  The forward function
    is called with the converted inputs unpacked, and the loss function
    with what it returned and the converted targets. *)
Theorem batch_data_flow forward lossfun convert nb train i batch logs s s' t logs' :
  batch_step forward lossfun convert nb train i batch logs s = (s', t, Ok logs') ->
  exists inputs targets conv ts log0 args ys loss post,
    let xs := match inputs with [_] => VSeq [conv] | _ => conv end in
    batch = VSeq (inputs ++ [targets]) /\
    core t =
      convert_trace convert (convert_arg inputs) conv
      ++ convert_trace convert targets ts
      ++ ANotify BATCH_BEGIN log0
         :: ACall (CForward args) :: ARet ys
         :: ACall (CLoss ys ts) :: ARet loss :: post /\
    log0 !! "xs" = Some xs /\ log0 !! "ts" = Some ts /\
    py_iter xs = Ok args /\
    (convert = None -> xs = VSeq inputs /\ ts = targets).
Proof.
  intros H.
  apply batch_step_shape in H as (b & cur & sum & Hb & Hok & Hc & _).
  destruct Hok as (_ & Hargs & _ & Hnone).
  exists (br_inputs b), (br_targets b), (br_conv b), (br_ts b).
  eexists _, (br_args b), (br_ys b), (br_loss b), _.
  split_and!.
  - done.
  - rewrite Hc. unfold batch_core. reflexivity.
  - unfold new_batch_logs. by simplify_map_eq.
  - unfold new_batch_logs. by simplify_map_eq.
  - done.
  - intros Hn. destruct (Hnone Hn) as [Hconv Hts]. split; [|done].
    rewrite Hconv. unfold convert_arg. by destruct (br_inputs b) as [|x0 [|x1 l]].
Qed.

(** ** The record of the epoch *)

Lemma batch_pairs_elem ev k :
  ev ∈ batch_pairs k -> ev = BATCH_BEGIN \/ ev = BATCH_END.
Proof.
  unfold batch_pairs. induction k as [|k IH]; simpl; [by intros ?%elem_of_nil|].
  rewrite !elem_of_cons. intros [->|[->|Hin]]; auto.
Qed.

Lemma phase_events_elem ev train k :
  ev ∈ phase_events train k ->
  ev = phase_begin train \/ ev = BATCH_BEGIN \/ ev = BATCH_END \/ ev = phase_end train.
Proof.
  unfold phase_events. rewrite elem_of_cons, elem_of_app, list_elem_of_singleton.
  intros [Hb|[[Hb|Hb]%batch_pairs_elem|He]]; auto.
Qed.

Lemma process_records ev forward dataset lossfun convert batch_size logs0 train
    s s' t out :
  _process forward dataset lossfun convert batch_size logs0 train s = (s', t, Ok out) ->
  ev <> phase_begin train -> ev <> BATCH_BEGIN -> ev <> BATCH_END ->
  ev <> phase_end train ->
  records_of ev t = [].
Proof.
  intros H Hn1 Hn2 Hn3 Hn4. apply evs_process in H as [k Hk].
  apply records_of_absent. rewrite Hk.
  intros [Hin|[Hin|[Hin|Hin]]]%phase_events_elem; congruence.
Qed.

Lemma process_begin_record forward dataset lossfun convert batch_size logs0 train
    s s' t out :
  _process forward dataset lossfun convert batch_size logs0 train s = (s', t, Ok out) ->
  records_of (phase_begin train) t =
    [<["loss" := VNone]>
       (<["num_batches" := VInt (ceil_div (ds_size dataset) batch_size)]>
          (<["size" := VInt (ds_size dataset)]> logs0))].
Proof.
  intros H. apply process_shape in H as (runs & blog & _ & _ & _ & _ & _ & Hc).
  rewrite <- records_of_core, Hc, !records_of_app.
  rewrite batch_cores_records by (by destruct train).
  destruct train; simpl; by repeat case_decide.
Qed.

(** The record of an epoch as line 97 builds it. *)
Definition new_epoch_logs (epoch size : Z) : Log :=
  <["epoch" := VInt epoch]> (<["size" := VInt size]> ∅).

(** C10. [_process] works on a copy: it hands the caller's record back
    as it got it.  So the record notified with EPOCH_END is the record of
    the epoch as the EPOCH_BEGIN callbacks left it, without the fields
    written during the phases, while the record of EPOCH_TRAIN_BEGIN is
    that record with [size], [num_batches] and [loss] written over; when
    no callback is registered for EPOCH_BEGIN, the EPOCH_END record holds
    [epoch] and [size] and nothing else. *)
Theorem epoch_record_untouched forward td vd lossfun convert batch_size epoch
    s s' t u :
  epoch_step forward td vd lossfun convert batch_size epoch s = (s', t, Ok u) ->
  (forall ds logs0 train s0 s1 t1 out,
      _process forward ds lossfun convert batch_size logs0 train s0 = (s1, t1, Ok out) ->
      out = logs0) /\
  exists s1 t1 log1,
    notify EPOCH_BEGIN (new_epoch_logs epoch (ds_size td)) s = (s1, t1, Ok log1) /\
    records_of EPOCH_END t = [log1] /\
    records_of EPOCH_TRAIN_BEGIN t =
      [<["loss" := VNone]>
         (<["num_batches" := VInt (ceil_div (ds_size td) batch_size)]>
            (<["size" := VInt (ds_size td)]> log1))] /\
    (callbacks_for (self s) EPOCH_BEGIN = [] ->
     log1 = new_epoch_logs epoch (ds_size td) /\
     dom log1 = ({["epoch"; "size"]} : gset string)).
Proof.
  intros H. split.
  { intros ds logs0 train s0 s1 t1 out Hp.
    by apply process_shape in Hp as (_ & _ & _ & _ & -> & _). }
  unfold epoch_step in H. fold (new_epoch_logs epoch (ds_size td)) in H.
  mok H as s1 tr1 log1 Hbeg. exists s1, tr1, log1. split; [done|].
  mok H as s2 tr2 log2 Hp.
  pose proof (process_shape _ _ _ _ _ _ _ _ _ _ _ Hp) as (_ & _ & _ & _ & -> & _).
  mok H as s3 tr3 log3 Hv.
  assert (Hval : log3 = log1 /\ records_of EPOCH_END tr3 = [] /\
                 records_of EPOCH_TRAIN_BEGIN tr3 = []).
  { destruct vd as [vd|].
    - pose proof (process_shape _ _ _ _ _ _ _ _ _ _ _ Hv) as (_ & _ & _ & _ & -> & _).
      split; [done|]. split; by eapply process_records.
    - by mprim Hv. }
  destruct Hval as (-> & Hv1 & Hv2).
  mok H as s4 tr4 log4 Hend. mprim H.
  pose proof (events_notify _ _ _ _ _ _ Hbeg) as Hev1.
  pose proof (core_notify _ _ _ _ _ _ Hend) as [Hc4 _].
  rewrite !records_of_app, app_nil_r.
  split_and!.
  - rewrite (records_of_absent _ tr1) by (rewrite Hev1; by intros ?%list_elem_of_singleton).
    rewrite (process_records EPOCH_END _ _ _ _ _ _ _ _ _ _ _ Hp) by done.
    rewrite Hv1, <- (records_of_core _ tr4), Hc4. simpl. by repeat case_decide.
  - rewrite (records_of_absent _ tr1) by (rewrite Hev1; by intros ?%list_elem_of_singleton).
    pose proof (process_begin_record _ _ _ _ _ _ true _ _ _ _ Hp) as Hpb.
    change (phase_begin true) with EPOCH_TRAIN_BEGIN in Hpb. rewrite Hpb.
    rewrite Hv2, <- (records_of_core _ tr4), Hc4. simpl. by repeat case_decide.
  - intros Hno. apply notify_inv in Hbeg as (t' & _ & Hrun).
    rewrite Hno in Hrun. simpl in Hrun. mprim Hrun. split; [done|].
    unfold new_epoch_logs. rewrite !dom_insert_L, dom_empty_L. set_solver.
Qed.

(** ** The arguments and the result of [fit] *)

(** C9. Whatever ran, a call of [fit] that returns returns the empty
    history. *)
Theorem fit_history_empty x y batch_size epochs validation_data s s' t history :
  fit x y batch_size epochs validation_data s = (s', t, Ok history) ->
  history = [].
Proof.
  unfold fit. intros H. repeat mnext H.
  by apply mret_inv in H as (_ & _ & [= ->]).
Qed.

Lemma fit_train_data_raises x y batch_size epochs validation_data e s :
  train_data x y = Raise e ->
  fit x y batch_size epochs validation_data s = (s, [], Raise e).
Proof. intros Hx. unfold fit, mbind, lift_res. by rewrite Hx. Qed.

Lemma fit_validation_raises x y batch_size epochs validation_data d e s :
  train_data x y = Ok d -> validation validation_data = Raise e ->
  fit x y batch_size epochs validation_data s = (s, [], Raise e).
Proof. intros Hx Hv. unfold fit, mbind, lift_res. by rewrite Hx, Hv. Qed.

(** C4, as the code has it. [fit] raises ValueError (the spec's
    InvalidArgument), before anything is notified, when [x] is not a
    dataset and [y] is not given.  When [x] is a dataset and [y] is given
    as well, the combination is rejected by an [assert]: the call raises
    AssertionError when assertions are executed, and goes on with the
    dataset, [y] ignored, when they are not.  With a dataset and no [y]
    the dataset is the training data; with any other [x] and a [y] the
    training data is [Dataset(x, y)]. *)
Theorem fit_training_arguments batch_size epochs validation_data s :
  (forall v,
      fit (OValue v) (OValue VNone) batch_size epochs validation_data s
        = (s, [], Raise InvalidArgument)) /\
  (forall d y,
      is_None y = false ->
      if py_debug
      then fit (ODataset d) y batch_size epochs validation_data s
             = (s, [], Raise AssertionError)
      else train_data (ODataset d) y = Ok d) /\
  (forall d, train_data (ODataset d) (OValue VNone) = Ok d) /\
  (forall v y,
      is_None y = false ->
      train_data (OValue v) y = Ok (Dataset_new (OValue v) y)).
Proof.
  split_and!.
  - intros v. by apply fit_train_data_raises.
  - intros d y Hy. destruct py_debug eqn:Hd.
    + apply fit_train_data_raises. simpl. by rewrite Hd, Hy.
    + simpl. by rewrite Hd.
  - intros d. simpl. by rewrite andb_false_r.
  - intros v y Hy. simpl. by rewrite Hy.
Qed.

(** C7, as the code has it. The validation data is first tested for
    truth: a value that is false (None, an empty sequence, 0, a dataset
    that is false) switches validation off and is not an error.  A
    dataset that is true is taken as it is, a sequence of two items
    [(x_val, y_val)] is wrapped into a dataset, a non-empty sequence of
    any other length raises ValueError (the spec's InvalidArgument), and a
    true value that has no length raises TypeError; either error leaves
    [fit] before anything is notified. *)
Theorem fit_validation_arguments :
  (forall o, obj_truthy o = false -> validation o = Ok None) /\
  (forall d, ds_truthy d = true -> validation (ODataset d) = Ok (Some d)) /\
  (forall a b,
      validation (OValue (VSeq [a; b]))
        = Ok (Some (Dataset_new (OValue a) (OValue b)))) /\
  (forall l,
      l <> [] -> length l <> 2%nat ->
      validation (OValue (VSeq l)) = Raise InvalidArgument) /\
  (forall v,
      py_truthy v = true -> (forall l, v <> VSeq l) ->
      validation (OValue v) = Raise TypeError) /\
  (forall x y d batch_size epochs o e s,
      train_data x y = Ok d -> validation o = Raise e ->
      fit x y batch_size epochs o s = (s, [], Raise e)).
Proof.
  split_and!.
  - intros o Ho. unfold validation. by rewrite Ho.
  - intros d Hd. unfold validation. simpl. by rewrite Hd.
  - done.
  - intros l Hne Hlen. destruct l as [|a l]; [done|].
    unfold validation, obj_truthy, py_truthy, py_len.
    destruct (Z.of_nat (length (a :: l)) =? 2) eqn:Heq; [|reflexivity].
    apply Z.eqb_eq in Heq. lia.
  - intros v Hv Hseq. unfold validation. simpl. rewrite Hv.
    destruct v; try done. by destruct (Hseq l).
  - intros. by eapply fit_validation_raises.
Qed.

(** ** The callbacks of a notification *)

(** Who was called back, in order. *)
Definition callers (t : list Action) : list CbId :=
  omap (fun a => match a with ACbCall who _ _ _ => Some who | _ => None end) t.

(** [in_order tr ev cbs]: [cbs], the callback entries of one notification
    of [ev] by trainer [tr], call the callbacks of [ev] in the order of
    the dispatcher, all of them unless one raised. *)
Definition in_order (tr : Trainer) (ev : TrainEvent) (cbs : list Action) : Prop :=
  Forall (fun a => is_cb a = true) cbs /\
  callers cbs `prefix_of` map fst (callbacks_for tr ev) /\
  (clean cbs -> callers cbs = map fst (callbacks_for tr ev)).

(** A trace cut into its notifications, each with its callbacks, and the
    calls of injected callables between them. *)
Inductive notifications (tr : Trainer) : list Action -> Prop :=
| notifications_nil : notifications tr []
| notifications_call a t :
    is_cb a = false -> (forall ev log, a <> ANotify ev log) ->
    notifications tr t -> notifications tr (a :: t)
| notifications_notify ev log cbs t :
    in_order tr ev cbs -> notifications tr t ->
    notifications tr (ANotify ev log :: cbs ++ t).

Lemma notifications_app tr t1 t2 :
  notifications tr t1 -> notifications tr t2 -> notifications tr (t1 ++ t2).
Proof.
  induction 1 as [|a t Ha Hn _ IH|ev log cbs t Hin _ IH]; intros H2; simpl.
  - done.
  - apply notifications_call; auto.
  - rewrite <- app_assoc. apply notifications_notify; auto.
Qed.

Lemma callers_app t1 t2 : callers (t1 ++ t2) = callers t1 ++ callers t2.
Proof. apply omap_app. Qed.

Lemma run_callbacks_callers ev cbs log s s' t r :
  run_callbacks ev cbs log s = (s', t, r) ->
  Forall (fun a => is_cb a = true) t /\
  callers t `prefix_of` map fst cbs /\
  (clean t -> callers t = map fst cbs).
Proof.
  revert log s t. induction cbs as [|[who cb] cbs IH]; intros log s t H; simpl in H.
  - mprim H. split_and!; [constructor | done | done].
  - msplit H.
    + apply call_cb_inv in Hm as [_ [(l & [= <-] & _ & ->) | (e & [=] & _)]].
      apply IH in Hk as (Hcb & Hpre & Hall). split_and!.
      * by repeat constructor.
      * simpl. by apply prefix_cons.
      * intros Hc. simpl. f_equal. apply Hall.
        by apply Forall_cons in Hc as [_ [_ Hc]%Forall_cons].
    + apply call_cb_inv in Hm as [_ [(l & [=] & _) | (e' & _ & _ & ->)]].
      split_and!.
      * by repeat constructor.
      * simpl. apply prefix_cons, prefix_nil.
      * intros Hc. by apply Forall_cons in Hc as [_ [[=] _]%Forall_cons].
Qed.

(** [ordered tr m]: started on trainer [tr], [m] leaves the trainer as it
    is and every notification of its run calls the callbacks in order. *)
Definition ordered (tr : Trainer) {A} (m : M A) : Prop :=
  forall s s' t r, self s = tr -> m s = (s', t, r) ->
    self s' = tr /\ notifications tr t.

Lemma ordered_bind tr {A B} (m : M A) (k : A -> M B) :
  ordered tr m -> (forall a, ordered tr (k a)) -> ordered tr (mbind m k).
Proof.
  intros Hm Hk s s' t r Hs H. msplit H.
  - apply Hm in Hm0 as [Hs1 Hn1]; [|done]. apply Hk in Hk0 as [Hs2 Hn2]; [|done].
    split; [done | by apply notifications_app].
  - by apply Hm in Hm0.
Qed.

Lemma ordered_ret tr {A} (a : A) : ordered tr (mret a).
Proof. intros s s' t r Hs H. mprim H. split; [done | constructor]. Qed.

Lemma ordered_raise tr {A} e : ordered tr (@mraise A e).
Proof. intros s s' t r Hs H. mprim H. split; [done | constructor]. Qed.

Lemma ordered_lift_res tr {A} (x : Res A) : ordered tr (lift_res x).
Proof. intros s s' t r Hs H. mprim H. split; [done | constructor]. Qed.

Lemma ordered_get tr : ordered tr get_self.
Proof. intros s s' t r Hs H. mprim H. split; [done | constructor]. Qed.

Lemma ordered_ext_call tr {A} c enc (f : Ext A) : ordered tr (ext_call c enc f).
Proof.
  intros s s' t r Hs H.
  apply ext_call_inv in H as [Hs' [(a & -> & _ & ->) | (e & -> & _ & ->)]];
    (split; [congruence|]);
    repeat (apply notifications_call; [done | done |]); constructor.
Qed.

Lemma ordered_notify tr ev log : ordered tr (notify ev log).
Proof.
  intros s s' t r Hs H. split; [by apply keeps_self_notify in H as ->|].
  apply notify_inv in H as (t' & -> & H). rewrite Hs in H.
  apply run_callbacks_callers in H.
  rewrite <- (app_nil_r t'). apply notifications_notify; [done | constructor].
Qed.

Lemma ordered_with_reporter tr {A} (body : M A) :
  ordered tr body -> ordered tr (with_reporter body).
Proof.
  intros Hb s s' t r Hs H. apply with_reporter_inv in H as (s1 & H & ->).
  by apply Hb in H.
Qed.

Create HintDb order discriminated.
#[local] Hint Resolve ordered_ret ordered_raise ordered_lift_res ordered_get
  ordered_ext_call ordered_notify : order.

Ltac ordered_step :=
  match goal with
  | |- ordered _ (mbind _ _) => apply ordered_bind; [|intros]
  | |- ordered _ (match ?x with _ => _ end) => destruct x
  | |- ordered _ _ => solve [auto with order]
  end.

Lemma ordered_apply_convert tr convert v : ordered tr (apply_convert convert v).
Proof. unfold apply_convert. repeat ordered_step. Qed.

#[local] Hint Resolve ordered_apply_convert : order.

Lemma ordered_batch_step tr forward lossfun convert nb train i batch logs :
  ordered tr (batch_step forward lossfun convert nb train i batch logs).
Proof. unfold batch_step. repeat ordered_step. Qed.

Lemma ordered_batch_loop tr body i batches logs :
  (forall i b l, ordered tr (body i b l)) -> ordered tr (batch_loop body i batches logs).
Proof.
  intros Hb. revert i logs. induction batches as [|b bs IH]; intros i logs; simpl.
  - apply ordered_ret.
  - apply ordered_bind; [apply Hb | intros; apply IH].
Qed.

Lemma ordered_process tr forward dataset lossfun convert batch_size logs0 train :
  ordered tr (_process forward dataset lossfun convert batch_size logs0 train).
Proof.
  unfold _process. repeat ordered_step.
  apply ordered_batch_loop. intros. apply ordered_batch_step.
Qed.

#[local] Hint Resolve ordered_process : order.

Lemma ordered_epoch_step tr forward td vd lossfun convert batch_size epoch :
  ordered tr (epoch_step forward td vd lossfun convert batch_size epoch).
Proof. unfold epoch_step. repeat ordered_step. Qed.

Lemma ordered_main_loop tr forward td vd lossfun convert batch_size epochs :
  ordered tr (main_loop forward td vd lossfun convert batch_size epochs).
Proof.
  unfold main_loop. induction (epoch_range epochs) as [|e es IH]; simpl.
  - apply ordered_ret.
  - apply ordered_bind; [apply ordered_epoch_step | intros; apply IH].
Qed.

(** ** The reporter and the accuracy hook *)

(** The trainer as lines 73-79 of [fit] leave it: a new reporter attached
    with priority 150 and, when there is an accuracy function, its hook
    added for BATCH_END. *)
Definition fit_setup (tr : Trainer) : Trainer :=
  let reporter := Reporter_new (fresh_id (_listeners tr)) in
  let tr1 := set_listeners (insert_by_priority (150, reporter) (_listeners tr))
               (set_reporter (Some reporter) tr) in
  match _acc_func tr with
  | Some acc_func => set_hooks (_hooks tr1 ++ [(BATCH_END, _report_accuracy acc_func)]) tr1
  | None => tr1
  end.

Lemma le_foldr_max (x : nat) (l : list nat) : x ∈ l -> (x <= foldr Nat.max 0 l)%nat.
Proof.
  induction l as [|y l IH]; [by intros ?%elem_of_nil|].
  intros [->|Hin]%elem_of_cons; simpl; [lia|]. apply IH in Hin. lia.
Qed.

Lemma fresh_id_not_attached ls : attached (fresh_id ls) ls = false.
Proof.
  unfold attached. apply not_true_iff_false. intros H.
  apply existsb_exists in H as (pl & Hin & Heq). apply Nat.eqb_eq in Heq.
  assert (Hle : (l_id (snd pl) <= foldr Nat.max 0 (map (fun pl => l_id (snd pl)) ls))%nat).
  { apply le_foldr_max. apply list_elem_of_In. apply in_map_iff. by exists pl. }
  unfold fresh_id in Heq. lia.
Qed.

Lemma attach_fresh_inv l priority s s' t r :
  attached (l_id l) (_listeners (self s)) = false ->
  attach_listener l priority s = (s', t, r) ->
  t = [] /\
  self s' = set_listeners (insert_by_priority (priority, l) (_listeners (self s))) (self s).
Proof.
  unfold attach_listener. intros Hfresh H.
  msplit H; [|by mprim Hm]. mprim Hm. rewrite Hfresh in Hk.
  msplit Hk.
  - injection Hm as <- <- _.
    destruct (l_initialize l) as [init|].
    + unfold lift_ext in Hk0. destruct (init _) as [w r']. by injection Hk0 as <- <- _.
    + by mprim Hk0.
  - by injection Hm.
Qed.

(** ** What [fit] does before the loop *)

(** The reporter's [initialize], run when the reporter is attached
    (line 74). *)
Definition reporter_init (w : World) : World * Res unit :=
  match Reporter_initialize with
  | Some init => init w
  | None => (w, Ok tt)
  end.

(** fit, lines 91-119: what follows the set-up. *)
Definition fit_main (forward : list value -> Ext value)
    (train_dataset : Dataset) (val_dataset : option Dataset)
    (lossfun : value -> value -> Ext value)
    (convert : option (value -> Ext value))
    (batch_size epochs : Z) : M (list value) :=
  _ <- notify TRAIN_BEGIN ∅ ;;
  t <- get_self ;;
  match _reporter t with
  | Some _ =>
      with_reporter
        (main_loop forward train_dataset val_dataset lossfun convert batch_size epochs)
  | None =>
      main_loop forward train_dataset val_dataset lossfun convert batch_size epochs
  end ;;;
  _ <- notify TRAIN_END ∅ ;;
  mret [].

Lemma attach_reporter_inv id priority s s' t r :
  attached id (_listeners (self s)) = false ->
  attach_listener (Reporter_new id) priority s = (s', t, r) ->
  t = [] /\
  self s' = set_listeners (insert_by_priority (priority, Reporter_new id)
                             (_listeners (self s))) (self s) /\
  reporter_init (world s) = (world s', r).
Proof.
  unfold attach_listener, reporter_init. intros Hfresh H.
  msplit H; [|by mprim Hm]. mprim Hm. simpl in Hk. rewrite Hfresh in Hk.
  msplit Hk.
  - injection Hm as <- <- _. simpl in *.
    destruct Reporter_initialize as [init|].
    + unfold lift_ext in Hk0. simpl in Hk0. destruct (init _) as [w r'].
      by injection Hk0 as <- <- <-.
    + by mprim Hk0.
  - by injection Hm.
Qed.

(** The set-up of [fit], step by step: the arguments being accepted, the
    reporter is attached and initialised, the accuracy hook is added, and
    only then is [forward] looked at. *)
Lemma fit_start x y batch_size epochs validation_data td vd s s' t r :
  train_data x y = Ok td -> validation validation_data = Ok vd ->
  fit x y batch_size epochs validation_data s = (s', t, r) ->
  let tr := self s in
  let rep := Reporter_new (fresh_id (_listeners tr)) in
  exists w r0,
    reporter_init (world s) = (w, r0) /\
    match r0 with
    | Raise e =>
        s' = {| world := w;
                self := set_listeners (insert_by_priority (150, rep) (_listeners tr))
                          (set_reporter (Some rep) tr) |} /\
        t = [] /\ r = Raise e
    | Ok _ =>
        match _forward tr with
        | FInvalid =>
            s' = {| world := w; self := fit_setup tr |} /\
            t = [] /\ r = Raise RuntimeError
        | FCallable f | FModule f =>
            fit_main f td vd (_loss_func tr) (_converter tr) batch_size epochs
              {| world := w; self := fit_setup tr |} = (s', t, r)
        end
    end.
Proof.
  intros Htd Hvd H tr rep. unfold fit in H. rewrite Htd, Hvd in H.
  mcase H as s1 u1 td' u1' Hx H; [|by mprim Hx]. mprim Hx.
  mcase H as s2 u2 vd' u2' Hv H; [|by mprim Hv]. mprim Hv.
  mcase H as s3 u3 tr' u3' Htr H; [|by mprim Htr]. mprim Htr.
  mcase H as s4 u4 x4 u4' Hmod H; [|by injection Hmod]. injection Hmod as <- <- _.
  mcase H as s5 u5 x5 u5' Hatt H.
  2: { apply attach_reporter_inv in Hatt as (-> & Hs & Hinit);
         [|apply fresh_id_not_attached].
       exists (world s'), (Raise e). split; [done|].
       destruct s' as [w' tr']. simpl in *. by subst. }
  apply attach_reporter_inv in Hatt as (-> & Hs5 & Hinit);
    [|apply fresh_id_not_attached].
  simpl in Hs5, Hinit. exists (world s5), (Ok x5). split; [done|].
  mcase H as s6 u6 x6 u6' Hacc H.
  2: { destruct (_acc_func (self s)); [by injection Hacc | by mprim Hacc]. }
  assert (Hs6 : s6 = {| world := world s5; self := fit_setup (self s) |} /\ u6 = []).
  { unfold fit_setup. destruct (_acc_func (self s)) as [acc|].
    - injection Hacc as <- <- _. simpl. by rewrite Hs5.
    - mprim Hacc. destruct s5 as [w5 tr5]. simpl in *. by subst. }
  destruct Hs6 as [-> ->]. clear Hacc. subst tr. simpl.
  mcase H as s7 u7 fwd u7' Hfwd H;
    destruct (_forward (self s)) as [f|f|]; mprim Hfwd; done.
Qed.

Lemma ordered_fit_main tr forward td vd lossfun convert batch_size epochs :
  ordered tr (fit_main forward td vd lossfun convert batch_size epochs).
Proof.
  pose proof ordered_main_loop. pose proof @ordered_with_reporter.
  unfold fit_main. repeat ordered_step; auto.
Qed.

Lemma fit_notifications x y batch_size epochs validation_data s s' t r :
  fit x y batch_size epochs validation_data s = (s', t, r) ->
  notifications (fit_setup (self s)) t.
Proof.
  unfold fit. intros H.
  mcase H as s1 u1 td u1' Htd H; [|mprim Htd; constructor]. mprim Htd.
  mcase H as s2 u2 vd u2' Hvd H; [|mprim Hvd; constructor]. mprim Hvd.
  mcase H as s3 u3 tr u3' Htr H; [|by mprim Htr]. mprim Htr.
  mcase H as s4 u4 x4 u4' Hmod H; [|by injection Hmod]. injection Hmod as <- <- _.
  mcase H as s5 u5 x5 u5' Hatt H.
  2: { apply attach_fresh_inv in Hatt as [-> _]; [constructor|].
       apply fresh_id_not_attached. }
  apply attach_fresh_inv in Hatt as [-> Hs5]; [|apply fresh_id_not_attached].
  simpl in Hs5.
  mcase H as s6 u6 x6 u6' Hacc H.
  2: { destruct (_acc_func (self s)); [by injection Hacc | by mprim Hacc]. }
  assert (Hs6 : self s6 = fit_setup (self s) /\ u6 = []).
  { unfold fit_setup. destruct (_acc_func (self s)) as [acc|].
    - injection Hacc as <- <- _. simpl. by rewrite Hs5.
    - mprim Hacc. by rewrite Hs5. }
  destruct Hs6 as [Hs6 ->]. clear Hacc.
  mcase H as s7 u7 fwd u7' Hfwd H.
  2: { destruct (_forward (self s)); mprim Hfwd; constructor. }
  assert (u7 = [] /\ s7 = s6) as [-> ->] by (destruct (_forward (self s)); by mprim Hfwd).
  clear Hfwd. simpl.
  match type of H with
  | ?m s6 = _ => assert (Hord : ordered (fit_setup (self s)) m)
  end.
  { pose proof ordered_main_loop. pose proof @ordered_with_reporter.
    repeat ordered_step; auto. }
  by apply Hord in H as [_ H].
Qed.

Lemma hook_callbacks_app ev i hs1 hs2 :
  hook_callbacks ev i (hs1 ++ hs2) =
  hook_callbacks ev i hs1 ++ hook_callbacks ev (i + length hs1) hs2.
Proof.
  revert i. induction hs1 as [|[e cb] hs1 IH]; intros i; simpl.
  - by rewrite Nat.add_0_r.
  - rewrite IH. replace (S i + length hs1)%nat with (i + S (length hs1))%nat by lia.
    by case_decide.
Qed.

Lemma insert_by_priority_elem x ls : x ∈ insert_by_priority x ls.
Proof.
  induction ls as [|y ls IH]; simpl; [by apply elem_of_cons; left|].
  destruct (fst x <? fst y); apply elem_of_cons; auto.
Qed.

(** What the accuracy hook does with the record it is given. *)
Lemma report_accuracy_inv acc_func data w w' data' :
  _report_accuracy acc_func data w = (w', Ok data') ->
  exists ys ts a w1 fr rest,
    data !! "ys" = Some ys /\ data !! "ts" = Some ts /\
    acc_func ys ts w = (w1, Ok a) /\
    frames w1 = fr :: rest /\
    w' = {| user := user w1; frames := (fr ++ [("accuracy"%string, a)]) :: rest |} /\
    data' = data.
Proof.
  unfold _report_accuracy, bind, of_res, py_getitem, report, ret.
  destruct (data !! "ys") as [ys|]; [|done].
  destruct (data !! "ts") as [ts|]; [|done].
  destruct (acc_func ys ts w) as [w1 [a|e]] eqn:Hacc; [|done].
  destruct (frames w1) as [|fr rest] eqn:Hfr; [done|].
  intros [= <- <-]. by exists ys, ts, a, w1, fr, rest.
Qed.

(** ** Every callback entry of the trace is a call that was made

    [called tr t r]: wherever the trace [t] of a run with outcome [r]
    on trainer [tr] enters a callback, that callback is one the trainer has
    for the event, it was run on the record of the entry in a world with
    the reporter frames of the entry, and what it did is what the trace
    goes on with: its return, or its exception, which ends the run. *)
Definition called (tr : Trainer) {A} (t : list Action) (r : Res A) : Prop :=
  forall pre who ev log fs post,
    t = pre ++ ACbCall who ev log fs :: post ->
    exists cb w w' res,
      (who, cb) ∈ callbacks_for tr ev /\ frames w = fs /\ cb log w = (w', res) /\
      match res with
      | Ok log' => exists post', post = ACbRet log' :: post'
      | Raise e => post = [ACbExn e] /\ r = Raise e
      end.

Lemma called_nil tr {A} (r : Res A) : called tr [] r.
Proof. intros pre who ev log fs post Hcut. by destruct pre. Qed.

Lemma called_cons tr {A} a t (r : Res A) :
  (forall who ev log fs, a <> ACbCall who ev log fs) ->
  called tr t r -> called tr (a :: t) r.
Proof.
  intros Ha Ht pre who ev log fs post Hcut. destruct pre as [|p pre]; simplify_eq/=.
  - by destruct (Ha who ev log fs).
  - by eapply Ht.
Qed.

Lemma called_app tr {A B} t1 t2 (a : A) (r : Res B) :
  called tr t1 (Ok a) -> called tr t2 r -> called tr (t1 ++ t2) r.
Proof.
  intros H1 H2 pre who ev log fs post Hcut.
  apply app_cut in Hcut as [(post0 & Hcut & ->) | (pre0 & Hcut & ->)].
  - destruct (H1 _ _ _ _ _ _ Hcut) as (cb & w & w' & res & Hin & Hfs & Hcb & Hres).
    exists cb, w, w', res. split_and!; try done.
    destruct res as [log'|e]; [|by destruct Hres].
    destruct Hres as [post' ->]. by exists (post' ++ t2).
  - by eapply H2.
Qed.

Lemma called_retype tr {A B} t e :
  @called tr A t (Raise e) -> @called tr B t (Raise e).
Proof.
  intros H pre who ev log fs post Hcut.
  destruct (H _ _ _ _ _ _ Hcut) as (cb & w & w' & res & Hin & Hfs & Hcb & Hres).
  exists cb, w, w', res. split_and!; try done.
  destruct res as [log'|e']; [done|]. destruct Hres as [-> [= ->]]. done.
Qed.

(** [faithful tr m]: started on trainer [tr], [m] leaves the trainer as
    it is and every callback entry of its trace is a call that was
    made. *)
Definition faithful (tr : Trainer) {A} (m : M A) : Prop :=
  forall s s' t r, self s = tr -> m s = (s', t, r) ->
    self s' = tr /\ called tr t r.

Lemma faithful_bind tr {A B} (m : M A) (k : A -> M B) :
  faithful tr m -> (forall a, faithful tr (k a)) -> faithful tr (mbind m k).
Proof.
  intros Hm Hk s s' t r Hs H. msplit H.
  - apply Hm in Hm0 as [Hs1 Hn1]; [|done]. apply Hk in Hk0 as [Hs2 Hn2]; [|done].
    split; [done | by eapply called_app].
  - apply Hm in Hm0 as [Hs1 Hn1]; [|done]. split; [done | by eapply called_retype].
Qed.

Lemma faithful_ret tr {A} (a : A) : faithful tr (mret a).
Proof. intros s s' t r Hs H. mprim H. split; [done | apply called_nil]. Qed.

Lemma faithful_raise tr {A} e : faithful tr (@mraise A e).
Proof. intros s s' t r Hs H. mprim H. split; [done | apply called_nil]. Qed.

Lemma faithful_lift_res tr {A} (x : Res A) : faithful tr (lift_res x).
Proof. intros s s' t r Hs H. mprim H. split; [done | apply called_nil]. Qed.

Lemma faithful_get tr : faithful tr get_self.
Proof. intros s s' t r Hs H. mprim H. split; [done | apply called_nil]. Qed.

Lemma faithful_ext_call tr {A} c enc (f : Ext A) : faithful tr (ext_call c enc f).
Proof.
  intros s s' t r Hs H.
  apply ext_call_inv in H as [Hs' [(a & -> & _ & ->) | (e & -> & _ & ->)]];
    (split; [congruence|]); repeat (apply called_cons; [done|]); apply called_nil.
Qed.

Lemma called_run_callbacks tr ev cbs log s s' t r :
  (forall x, x ∈ cbs -> x ∈ callbacks_for tr ev) ->
  run_callbacks ev cbs log s = (s', t, r) -> called tr t r.
Proof.
  revert log s t. induction cbs as [|[who cb] cbs IH]; intros log s t Hsub H;
    simpl in H.
  - mprim H. apply called_nil.
  - assert (Hhere : (who, cb) ∈ callbacks_for tr ev)
      by (apply Hsub, elem_of_cons; by left).
    msplit H.
    + apply call_cb_inv in Hm as [_ [(l & [= <-] & Hcb & ->) | (e & [=] & _)]].
      apply (called_app tr _ _ a).
      * intros pre who' ev' log' fs post Hcut.
        destruct pre as [|p0 [|p1 pre]]; simplify_eq/=; [|by destruct pre].
        exists cb, (world s), (world s0), (Ok a). split_and!; try done. by exists [].
      * eapply IH; [|done]. intros x Hx. apply Hsub, elem_of_cons. by right.
    + apply call_cb_inv in Hm as [_ [(l & [=] & _) | (e' & [= <-] & Hcb & ->)]].
      intros pre who' ev' log' fs post Hcut.
      destruct pre as [|p0 [|p1 pre]]; simplify_eq/=; [|by destruct pre].
      by exists cb, (world s), (world s'), (Raise e).
Qed.

Lemma faithful_notify tr ev log : faithful tr (notify ev log).
Proof.
  intros s s' t r Hs H. split; [by apply keeps_self_notify in H as ->|].
  apply notify_inv in H as (t' & -> & H). rewrite Hs in H.
  apply called_cons; [done|]. by eapply called_run_callbacks.
Qed.

Lemma faithful_with_reporter tr {A} (body : M A) :
  faithful tr body -> faithful tr (with_reporter body).
Proof.
  intros Hb s s' t r Hs H. apply with_reporter_inv in H as (s1 & H & ->).
  by apply Hb in H.
Qed.

Create HintDb faith discriminated.
#[local] Hint Resolve faithful_ret faithful_raise faithful_lift_res faithful_get
  faithful_ext_call faithful_notify : faith.

Ltac faithful_step :=
  match goal with
  | |- faithful _ (mbind _ _) => apply faithful_bind; [|intros]
  | |- faithful _ (match ?x with _ => _ end) => destruct x
  | |- faithful _ _ => solve [auto with faith]
  end.

Lemma faithful_apply_convert tr convert v : faithful tr (apply_convert convert v).
Proof. unfold apply_convert. repeat faithful_step. Qed.

#[local] Hint Resolve faithful_apply_convert : faith.

Lemma faithful_batch_step tr forward lossfun convert nb train i batch logs :
  faithful tr (batch_step forward lossfun convert nb train i batch logs).
Proof. unfold batch_step. repeat faithful_step. Qed.

Lemma faithful_batch_loop tr body i batches logs :
  (forall i b l, faithful tr (body i b l)) -> faithful tr (batch_loop body i batches logs).
Proof.
  intros Hb. revert i logs. induction batches as [|b bs IH]; intros i logs; simpl.
  - apply faithful_ret.
  - apply faithful_bind; [apply Hb | intros; apply IH].
Qed.

Lemma faithful_process tr forward dataset lossfun convert batch_size logs0 train :
  faithful tr (_process forward dataset lossfun convert batch_size logs0 train).
Proof.
  unfold _process. repeat faithful_step.
  apply faithful_batch_loop. intros. apply faithful_batch_step.
Qed.

#[local] Hint Resolve faithful_process : faith.

Lemma faithful_epoch_step tr forward td vd lossfun convert batch_size epoch :
  faithful tr (epoch_step forward td vd lossfun convert batch_size epoch).
Proof. unfold epoch_step. repeat faithful_step. Qed.

Lemma faithful_main_loop tr forward td vd lossfun convert batch_size epochs :
  faithful tr (main_loop forward td vd lossfun convert batch_size epochs).
Proof.
  unfold main_loop. induction (epoch_range epochs) as [|e es IH]; simpl.
  - apply faithful_ret.
  - apply faithful_bind; [apply faithful_epoch_step | intros; apply IH].
Qed.

Lemma faithful_fit_main tr forward td vd lossfun convert batch_size epochs :
  faithful tr (fit_main forward td vd lossfun convert batch_size epochs).
Proof.
  pose proof faithful_main_loop. pose proof @faithful_with_reporter.
  unfold fit_main. repeat faithful_step; auto.
Qed.

Lemma fit_called x y batch_size epochs validation_data s s' t r :
  fit x y batch_size epochs validation_data s = (s', t, r) ->
  called (fit_setup (self s)) t r.
Proof.
  intros H.
  destruct (train_data x y) as [td|e] eqn:Htd.
  2: { unfold fit, mbind, lift_res in H. rewrite Htd in H.
       injection H as <- <- <-. apply called_nil. }
  destruct (validation validation_data) as [vd|e] eqn:Hvd.
  2: { unfold fit, mbind, lift_res in H. rewrite Htd, Hvd in H.
       injection H as <- <- <-. apply called_nil. }
  destruct (fit_start _ _ _ _ _ _ _ _ _ _ _ Htd Hvd H) as (w & r0 & Hinit & Hr).
  destruct r0 as [u|e]; [|destruct Hr as (_ & -> & _); apply called_nil].
  destruct (_forward (self s)) as [f|f|];
    [| |destruct Hr as (_ & -> & _); apply called_nil];
    by apply faithful_fit_main with (tr := fit_setup (self s)) in Hr as [_ ?].
Qed.

(** The hooks are told apart by their registration index. *)
Lemma hook_callbacks_lookup ev k cb hs :
  forall i, (ByHook k, cb) ∈ hook_callbacks ev i hs ->
            exists j, k = (i + j)%nat /\ hs !! j = Some (ev, cb).
Proof.
  induction hs as [|[e h] hs IH]; intros i Hin; simpl in Hin.
  - by apply elem_of_nil in Hin.
  - case_decide as He.
    + apply elem_of_cons in Hin as [[= -> ->]|Hin].
      * exists 0%nat. split; [lia | by rewrite He].
      * apply IH in Hin as (j & -> & Hj). exists (S j). split; [lia | done].
    + apply IH in Hin as (j & -> & Hj). exists (S j). split; [lia | done].
Qed.

Lemma listener_callbacks_no_hook ev k cb ls :
  (ByHook k, cb) ∉ listener_callbacks ev ls.
Proof.
  unfold listener_callbacks. intros Hin. apply list_elem_of_omap in Hin as (pl & _ & Hpl).
  by destruct (l_on (snd pl) ev).
Qed.

(** The hook [fit] adds is the only callback with its index. *)
Lemma fit_setup_hook tr acc_func ev cb :
  _acc_func tr = Some acc_func ->
  (ByHook (length (_hooks tr)), cb) ∈ callbacks_for (fit_setup tr) ev ->
  ev = BATCH_END /\ cb = _report_accuracy acc_func.
Proof.
  intros Hacc Hin. unfold callbacks_for in Hin.
  apply elem_of_app in Hin as [Hin|Hin];
    [by apply listener_callbacks_no_hook in Hin|].
  apply hook_callbacks_lookup in Hin as (j & Hj & Hlook).
  unfold fit_setup in Hlook. rewrite Hacc in Hlook. simpl in Hlook, Hj. subst j.
  rewrite lookup_app_r in Hlook by lia. rewrite Nat.sub_diag in Hlook.
  by injection Hlook as <- <-.
Qed.

(** A notification whose callbacks end with [cb]: when it returns, [cb]
    was called last, on the record and in the world the callbacks before
    it left. *)
Lemma run_callbacks_last ev cbs who cb :
  forall log s s' t log',
    run_callbacks ev (cbs ++ [(who, cb)]) log s = (s', t, Ok log') ->
    exists s0 u0 log0,
      run_callbacks ev cbs log s = (s0, u0, Ok log0) /\
      cb log0 (world s0) = (world s', Ok log') /\
      t = u0 ++ [ACbCall who ev log0 (frames (world s0)); ACbRet log'].
Proof.
  induction cbs as [|[who1 cb1] cbs IH]; intros log s s' t log' H; simpl in H.
  - mok H as s1 t1 log1 Hc. mprim H.
    apply call_cb_inv in Hc as [_ [(l & [= <-] & Hcb & ->) | (e & [=] & _)]].
    by exists s, [], log.
  - mok H as s1 t1 log1 Hc.
    apply IH in H as (s0 & u0 & log0 & Hrun & Hcb & ->).
    exists s0, (t1 ++ u0), log0. split_and!; [|done|by rewrite app_assoc].
    simpl. unfold mbind. by rewrite Hc, Hrun.
Qed.

(** A trace cut at a notification: what follows are its callbacks, in
    order, and then the rest of the run. *)
Lemma notifications_cut tr t :
  notifications tr t ->
  forall pre ev log post,
    t = pre ++ ANotify ev log :: post ->
    exists cbs rest,
      post = cbs ++ rest /\ in_order tr ev cbs /\ notifications tr rest.
Proof.
  induction 1 as [|a t Ha Hn _ IH|ev0 log0 cbs t Hin Ht IH]; intros pre ev log post Hcut.
  - by destruct pre.
  - destruct pre as [|p pre]; simpl in Hcut;
      [injection Hcut as -> ->; by destruct (Hn ev log) | injection Hcut as -> Hcut].
    by eapply IH.
  - destruct pre as [|p pre]; simpl in Hcut;
      [injection Hcut as -> -> <-; by exists cbs, t | injection Hcut as <- Hcut].
    apply app_cut in Hcut as [(post0 & Hcut & _) | (pre0 & Hcut & _)].
    + destruct Hin as (Hcb & _). rewrite Hcut in Hcb.
      apply Forall_app in Hcb as [_ Hcb]. by apply Forall_cons in Hcb as [? _].
    + by eapply IH.
Qed.

(** C3. With an accuracy function, the accuracy of a batch reaches the
    reporter within the BATCH_END notification of that batch.  Every
    notification of a call of [fit] calls its callbacks in the order of the
    dispatcher, and for BATCH_END that order ends with the accuracy hook:
    in every BATCH_END notification of the run whose callbacks do not
    raise, the hook is the last one called.
    Wherever the trace enters the hook, the hook was run on the record of
    that notification, in a world with the reporter frames of the entry:
    if it returned, it has computed the accuracy from the predictions and
    the targets of the record and added it to the innermost frame of the
    reporter, the record left as it was, and the trace goes on with its
    return; if it raised, the call of [fit] ended there with its
    exception.  So a BATCH_END notification that returns leaves the
    accuracy of its batch as the last entry of the reporter's innermost
    frame. *)
Theorem accuracy_reported_at_batch_end x y batch_size epochs validation_data
    acc_func s s' t r :
  _acc_func (self s) = Some acc_func ->
  fit x y batch_size epochs validation_data s = (s', t, r) ->
  let tr := fit_setup (self s) in
  let hook := ByHook (length (_hooks (self s))) in
  notifications tr t /\
  (exists before,
      callbacks_for tr BATCH_END = before ++ [(hook, _report_accuracy acc_func)]) /\
  (forall pre log post,
      t = pre ++ ANotify BATCH_END log :: post ->
      exists cbs rest,
        post = cbs ++ rest /\ in_order tr BATCH_END cbs /\ notifications tr rest /\
        (clean cbs -> last (callers cbs) = Some hook)) /\
  (forall pre ev log fs post,
      t = pre ++ ACbCall hook ev log fs :: post ->
      ev = BATCH_END /\
      exists w w' res,
        frames w = fs /\ _report_accuracy acc_func log w = (w', res) /\
        match res with
        | Ok log' =>
            log' = log /\ (exists post', post = ACbRet log :: post') /\
            exists ys ts a w1 fr rest,
              log !! "ys" = Some ys /\ log !! "ts" = Some ts /\
              acc_func ys ts w = (w1, Ok a) /\
              frames w1 = fr :: rest /\
              frames w' = (fr ++ [("accuracy"%string, a)]) :: rest
        | Raise e => post = [ACbExn e] /\ r = Raise e
        end) /\
  (forall s0 log s1 t1 log1,
      self s0 = tr ->
      notify BATCH_END log s0 = (s1, t1, Ok log1) ->
      exists ys ts a w w1 fr rest,
        log1 !! "ys" = Some ys /\ log1 !! "ts" = Some ts /\
        acc_func ys ts w = (w1, Ok a) /\
        frames w1 = fr :: rest /\
        world s1 = {| user := user w1;
                      frames := (fr ++ [("accuracy"%string, a)]) :: rest |}).
Proof.
  intros Hacc H tr hook.
  assert (Hcbs : exists before,
             callbacks_for tr BATCH_END
             = before ++ [(hook, _report_accuracy acc_func)]).
  { unfold tr, fit_setup, callbacks_for. rewrite Hacc. simpl.
    rewrite hook_callbacks_app. simpl.
    eexists (_ ++ _). by rewrite app_assoc. }
  split_and!.
  - by apply fit_notifications in H.
  - done.
  - intros pre log post Hcut. apply fit_notifications in H.
    destruct (notifications_cut _ _ H _ _ _ _ Hcut) as (cbs & rest & -> & Hin & Hrest).
    exists cbs, rest. split_and!; try done.
    intros Hclean. destruct Hin as (_ & _ & Hall). destruct Hcbs as [before Hcbs].
    unfold tr in *. rewrite (Hall Hclean), Hcbs, map_app. simpl. apply last_snoc.
  - intros pre ev log fs post Hcut.
    destruct (fit_called _ _ _ _ _ _ _ _ _ H _ _ _ _ _ _ Hcut)
      as (cb & w & w' & res & Hin & Hfs & Hcb & Hres).
    destruct (fit_setup_hook _ _ _ _ Hacc Hin) as [-> ->].
    split; [done|]. exists w, w', res. split_and!; try done.
    destruct res as [log'|e]; [|done].
    destruct (report_accuracy_inv _ _ _ _ _ Hcb)
      as (ys & ts & a & w1 & fr & rest & Hys & Hts & Ha & Hfr & -> & ->).
    split_and!; [done | done |]. by exists ys, ts, a, w1, fr, rest.
  - intros s0 log s1 t1 log1 Hs0 Hn. destruct Hcbs as [before Hcbs].
    apply notify_inv in Hn as (t' & _ & Hn). rewrite Hs0, Hcbs in Hn.
    apply run_callbacks_last in Hn as (s2 & t2 & log2 & _ & Hcb & _).
    destruct (report_accuracy_inv _ _ _ _ _ Hcb)
      as (ys & ts & a & w1 & fr & rest & Hys & Hts & Ha & Hfr & Hw & ->).
    by exists ys, ts, a, (world s2), w1, fr, rest.
Qed.

(** Wherever a callable or a callback raised in a run of [fit], the run
    ended right there and [fit] raised that exception. *)
Lemma fit_raise_last x y batch_size epochs validation_data s s' t r pre a post e :
  fit x y batch_size epochs validation_data s = (s', t, r) ->
  t = pre ++ a :: post -> raised a = Some e ->
  post = [] /\ r = Raise e.
Proof.
  intros H. apply raises_last_fit in H. by apply raise_ok_last.
Qed.

(** * More of the trainer *)

(** ** A phase that cannot divide *)

Lemma batch_loop_events forward lossfun convert nb train i batches logs s s' t r ev :
  batch_loop (batch_step forward lossfun convert nb train) i batches logs s = (s', t, r) ->
  ev ∈ events_of t -> ev = BATCH_BEGIN \/ ev = BATCH_END.
Proof.
  intros H Hin.
  assert (Hev : evs (batch_loop (batch_step forward lossfun convert nb train)
                       i batches logs)
                    (fun w => w = batch_pairs (length batches))).
  { apply evs_batch_loop. intros. apply evs_batch_step. }
  apply Hev in H. apply batch_pairs_elem with (k := length batches).
  destruct r as [a|e].
  - by rewrite <- H.
  - destruct H as (w & -> & [k Hk]). rewrite Hk. apply elem_of_app. by left.
Qed.

(** X1. [_process] divides twice by numbers the caller controls: the size by
    [batch_size] (line 130) and the summed loss by the number of batches
    (line 169).  With [batch_size] 0 it raises ZeroDivisionError before
    anything is notified or called; and when [ceil(size / batch_size)] is
    0, as for an empty dataset, the phase cannot return: it raises, and
    its end event is never notified. *)
Theorem process_division_by_zero forward dataset lossfun convert batch_size logs0 train
    s s' t r :
  ceil_div (ds_size dataset) batch_size = 0 ->
  _process forward dataset lossfun convert batch_size logs0 train s = (s', t, r) ->
  (exists e, r = Raise e) /\
  (phase_end train ∉ events_of t) /\
  (batch_size = 0 -> s' = s /\ t = [] /\ r = Raise ZeroDivisionError).
Proof.
  intros Hnb H.
  assert (Hbs0 : batch_size = 0 -> s' = s /\ t = [] /\ r = Raise ZeroDivisionError).
  { intros ->. unfold _process, mbind, lift_res, py_ceil_div in H. simpl in H.
    by injection H as <- <- <-. }
  split_and!; [| |done].
  - destruct r as [out|e]; [|by eexists].
    by apply process_shape in H as (runs & blog & _ & Hne & _).
  - unfold _process in H.
    mcase H as s1 u1 nb u1' Hq H; [|mprim Hq; by intros ?%elem_of_nil].
    apply lift_res_inv in Hq as (-> & -> & Hq). unfold py_ceil_div in Hq.
    destruct (batch_size =? 0); [done|]. injection Hq as ->. rewrite Hnb in H.
    simpl.
    mcase H as s2 u2 blog u2' Hbeg H.
    2: { rewrite (events_notify _ _ _ _ _ _ Hbeg).
         intros ?%list_elem_of_singleton. by destruct train. }
    rewrite events_of_app, (events_notify _ _ _ _ _ _ Hbeg).
    mcase H as s3 u3 batches u3' Hba H.
    2: { rewrite (silent_ext_call _ _ _ _ _ _ _ Hba).
         intros ?%list_elem_of_singleton. by destruct train. }
    rewrite events_of_app, (silent_ext_call _ _ _ _ _ _ _ Hba).
    assert (Hloop : forall s4 u4 (r4 : Res Log),
               batch_loop (batch_step forward lossfun convert 0 train) 0 batches
                 (<["loss" := VFloat f0]> blog) s3 = (s4, u4, r4) ->
               phase_end train ∉ [phase_begin train] ++ [] ++ events_of u4).
    { intros s4 u4 r4 Hl. simpl. intros [Hx|Hx]%elem_of_cons; [by destruct train|].
      eapply batch_loop_events in Hx; [|done]. by destruct train, Hx. }
    mcase H as s4 u4 logs4 u4' Hl H; [|by eapply Hloop].
    pose proof Hl as Hsh.
    eapply batch_loop_shape in Hsh as (runs & _ & _ & _ & _ & Hl4);
      [|by rewrite lookup_insert_eq].
    subst logs4.
    mcase H as s5 u5 cur u5' Hcur H.
    2: { mprim Hcur. rewrite app_nil_r. by eapply Hloop. }
    apply lift_res_inv in Hcur as (-> & -> & Hcur).
    unfold py_getitem in Hcur. rewrite lookup_insert_eq in Hcur. injection Hcur as Hcur.
    subst cur.
    mcase H as s6 u6 mean u6' Hmean H.
    + by apply lift_res_inv in Hmean as (_ & _ & [=]).
    + mprim Hmean. rewrite !app_nil_r. by eapply Hloop.
Qed.

Lemma attached_insert_by_priority p l ls :
  attached (l_id l) (insert_by_priority (p, l) ls) = true.
Proof.
  unfold attached. apply existsb_exists. exists (p, l). split.
  - apply list_elem_of_In, insert_by_priority_elem.
  - apply Nat.eqb_refl.
Qed.

Lemma length_insert_by_priority x ls :
  length (insert_by_priority x ls) = S (length ls).
Proof.
  induction ls as [|y ls IH]; simpl; [done|].
  destruct (fst x <? fst y); simpl; by rewrite ?IH.
Qed.

(** X2. A [forward] that is neither callable nor has a [forward]
    attribute is found out late (lines 81-86): nothing has been notified
    and no callable has been called, but the new reporter has been attached
    and initialised and the accuracy hook has been added, and they stay.
    [fit] raises RuntimeError, unless the reporter's [initialize] raised
    first. *)
Theorem fit_forward_not_callable x y batch_size epochs validation_data td vd
    s s' t r :
  _forward (self s) = FInvalid ->
  train_data x y = Ok td -> validation validation_data = Ok vd ->
  fit x y batch_size epochs validation_data s = (s', t, r) ->
  t = [] /\
  attached (fresh_id (_listeners (self s))) (_listeners (self s')) = true /\
  match reporter_init (world s) with
  | (w, Ok _) =>
      r = Raise RuntimeError /\ s' = {| world := w; self := fit_setup (self s) |}
  | (w, Raise e) => r = Raise e /\ world s' = w
  end.
Proof.
  intros Hf Htd Hvd H.
  destruct (fit_start _ _ _ _ _ _ _ _ _ _ _ Htd Hvd H) as (w & r0 & Hinit & Hr).
  rewrite Hinit. rewrite Hf in Hr. destruct r0 as [u|e].
  - destruct Hr as (-> & -> & ->). split_and!; try done.
    unfold fit_setup. simpl.
    destruct (_acc_func (self s)); simpl;
      apply (attached_insert_by_priority 150 (Reporter_new _)).
  - destruct Hr as (-> & -> & ->). split_and!; try done.
    apply (attached_insert_by_priority 150 (Reporter_new _)).
Qed.

(** Once the loop of [fit] has started, the trainer is the one the set-up
    made. *)
Lemma fit_self_after x y batch_size epochs validation_data s s' t r :
  fit x y batch_size epochs validation_data s = (s', t, r) ->
  t <> [] -> self s' = fit_setup (self s).
Proof.
  intros H Ht.
  destruct (train_data x y) as [td|e] eqn:Htd.
  2: { rewrite (fit_train_data_raises _ _ _ _ _ _ _ Htd) in H. by simplify_eq. }
  destruct (validation validation_data) as [vd|e] eqn:Hvd.
  2: { rewrite (fit_validation_raises _ _ _ _ _ _ _ _ Htd Hvd) in H. by simplify_eq. }
  destruct (fit_start _ _ _ _ _ _ _ _ _ _ _ Htd Hvd H) as (w & r0 & Hinit & Hr).
  destruct r0 as [u|e]; [|by destruct Hr as (_ & -> & _)].
  destruct (_forward (self s)) as [f|f|];
    [| |by destruct Hr as (_ & -> & _)];
    by apply ordered_fit_main with (tr := fit_setup (self s)) in Hr as [? _].
Qed.

Lemma fit_trace_not_nil x y batch_size epochs validation_data s s' t history :
  fit x y batch_size epochs validation_data s = (s', t, Ok history) -> t <> [].
Proof.
  intros H Ht. apply evs_fit in H as (counts & _ & Hev).
  rewrite Ht in Hev. done.
Qed.

(** X3. [fit] never detaches the reporter it attached and never removes
    the accuracy hook it added (lines 73-79 have no counterpart at the
    end): once the loop has started, the trainer is left with one more
    listener, the new reporter as [_reporter], and, when there is an
    accuracy function, one more BATCH_END hook behind the hooks it had;
    nothing else of the trainer changes. *)
Theorem fit_keeps_reporter_attached x y batch_size epochs validation_data
    s s' t r :
  fit x y batch_size epochs validation_data s = (s', t, r) ->
  t <> [] ->
  let rep := Reporter_new (fresh_id (_listeners (self s))) in
  self s' = fit_setup (self s) /\
  _reporter (self s') = Some rep /\
  _listeners (self s') = insert_by_priority (150, rep) (_listeners (self s)) /\
  length (_listeners (self s')) = S (length (_listeners (self s))) /\
  _hooks (self s') =
    _hooks (self s) ++
    match _acc_func (self s) with
    | Some acc_func => [(BATCH_END, _report_accuracy acc_func)]
    | None => []
    end /\
  _optimizer (self s') = _optimizer (self s) /\
  _forward (self s') = _forward (self s) /\
  _loss_func (self s') = _loss_func (self s) /\
  _acc_func (self s') = _acc_func (self s) /\
  _update (self s') = _update (self s) /\
  _converter (self s') = _converter (self s).
Proof.
  intros H Ht rep.
  rewrite (fit_self_after _ _ _ _ _ _ _ _ _ H Ht). unfold fit_setup. fold rep.
  destruct (_acc_func (self s)) as [acc|] eqn:Hacc; simpl;
    rewrite ?app_nil_r, ?length_insert_by_priority; done.
Qed.

(** X4. So the hooks pile up: in a second call of [fit] on the same
    trainer the callbacks of every BATCH_END notification end with the
    accuracy hook of the first call and then that of the second, and the
    accuracy of each batch is reported twice. *)
Theorem fit_twice_reports_accuracy_twice x1 y1 batch_size1 epochs1 validation_data1
    x2 y2 batch_size2 epochs2 validation_data2 acc_func s s1 t1 history s2 t2 r2 :
  _acc_func (self s) = Some acc_func ->
  fit x1 y1 batch_size1 epochs1 validation_data1 s = (s1, t1, Ok history) ->
  fit x2 y2 batch_size2 epochs2 validation_data2 s1 = (s2, t2, r2) ->
  let tr2 := fit_setup (fit_setup (self s)) in
  let n := length (_hooks (self s)) in
  notifications tr2 t2 /\
  exists before,
    callbacks_for tr2 BATCH_END =
      before ++ [(ByHook n, _report_accuracy acc_func);
                 (ByHook (S n), _report_accuracy acc_func)].
Proof.
  intros Hacc H1 H2 tr2 n.
  assert (Hs1 : self s1 = fit_setup (self s)).
  { eapply fit_self_after; [done|]. by eapply fit_trace_not_nil. }
  split.
  - apply fit_notifications in H2. by rewrite Hs1 in H2.
  - unfold tr2, callbacks_for, fit_setup. rewrite Hacc. simpl. rewrite Hacc. simpl.
    rewrite !hook_callbacks_app. simpl. rewrite length_app. simpl.
    replace (length (_hooks (self s)) + 1)%nat with (S n) by (unfold n; lia).
    fold n.
    exists (listener_callbacks BATCH_END (_listeners tr2)
            ++ hook_callbacks BATCH_END 0 (_hooks (self s))).
    unfold tr2, fit_setup. rewrite Hacc. simpl. rewrite Hacc. simpl.
    by rewrite <- !app_assoc.
Qed.

(** ** A call without epochs *)

Lemma epoch_range_nonpos epochs : epochs <= 0 -> epoch_range epochs = [].
Proof.
  intros H. unfold epoch_range. by replace (Z.to_nat epochs) with 0%nat by lia.
Qed.

(** A notification raises only what one of its callbacks raised. *)
Lemma run_callbacks_raise ev cbs :
  forall log s s' t e,
    run_callbacks ev cbs log s = (s', t, Raise e) -> exists pre, t = pre ++ [ACbExn e].
Proof.
  induction cbs as [|[who cb] cbs IH]; intros log s s' t e H; simpl in H.
  - by mprim H.
  - apply mbind_inv in H as [(s1 & t1 & log1 & t2 & Hc & H & ->) | (e0 & Hc & [= <-])].
    + apply IH in H as [pre ->]. exists (t1 ++ pre). by rewrite app_assoc.
    + apply call_cb_inv in Hc as [_ [(l & [=] & _) | (e' & [= <-] & _ & ->)]].
      by eexists [_].
Qed.

Lemma notify_raise ev log s s' t e :
  notify ev log s = (s', t, Raise e) -> exists pre, t = pre ++ [ACbExn e].
Proof.
  intros H. apply notify_inv in H as (t' & -> & H).
  apply run_callbacks_raise in H as [pre ->]. by exists (ANotify ev log :: pre).
Qed.

Lemma fit_main_without_epochs forward td vd lossfun convert batch_size epochs
    s s' t r :
  epochs <= 0 ->
  fit_main forward td vd lossfun convert batch_size epochs s = (s', t, r) ->
  core t `prefix_of` [ANotify TRAIN_BEGIN ∅; ANotify TRAIN_END ∅] /\
  ((r = Ok [] /\ core t = [ANotify TRAIN_BEGIN ∅; ANotify TRAIN_END ∅]) \/
   (exists pre e, t = pre ++ [ACbExn e] /\ r = Raise e)).
Proof.
  intros Hep H. unfold fit_main, main_loop in H.
  rewrite (epoch_range_nonpos _ Hep) in H. simpl in H.
  mcase H as s1 u1 l1 u1' Hb H.
  2: { pose proof (core_notify _ _ _ _ _ _ Hb) as [Hc _].
       apply notify_raise in Hb as [pre Hpre]. rewrite Hc. split.
       - by exists [ANotify TRAIN_END ∅].
       - right. by exists pre, e. }
  apply core_notify in Hb as [Hc1 _].
  mcase H as s2 u2 tr u2' Hg H; [|by mprim Hg]. mprim Hg.
  assert (Hloop : forall s3 u3 (r3 : Res unit),
             match _reporter (self s1) with
             | Some _ => with_reporter (mret tt)
             | None => mret tt
             end s1 = (s3, u3, r3) -> u3 = [] /\ r3 = Ok tt).
  { intros s3 u3 r3 Hl. destruct (_reporter (self s1)).
    - apply with_reporter_inv in Hl as (s4 & Hl & _). by mprim Hl.
    - by mprim Hl. }
  mcase H as s3 u3 x3 u3' Hl H; [|by apply Hloop in Hl as [_ [=]]].
  apply Hloop in Hl as [-> _].
  mcase H as s4 u4 l4 u4' He H.
  2: { pose proof (core_notify _ _ _ _ _ _ He) as [Hc2 _].
       apply notify_raise in He as [pre Hpre].
       rewrite !core_app, Hc1, Hc2. simpl. split; [done|].
       right. exists (u1 ++ pre), e. by rewrite Hpre, <- app_assoc. }
  apply core_notify in He as [Hc2 _]. mprim H.
  rewrite !core_app, Hc1, Hc2. simpl. split; [done | by left].
Qed.

(** X5. [epochs] is not checked (line 96 is [range(1, epochs + 1)]):
    with [epochs] zero or negative the loop body never runs.  The call
    notifies TRAIN_BEGIN and TRAIN_END with an empty record and nothing
    else; neither the dataset nor any other callable is called.  And it
    does not raise for it: once the arguments are accepted, the reporter
    is initialised and [forward] is found callable, the call returns the
    empty history, unless a callback of one of the two notifications
    raises, and then the call raises that exception. *)
Theorem fit_without_epochs x y batch_size epochs validation_data s s' t r :
  epochs <= 0 ->
  fit x y batch_size epochs validation_data s = (s', t, r) ->
  core t `prefix_of` [ANotify TRAIN_BEGIN ∅; ANotify TRAIN_END ∅] /\
  (forall history, r = Ok history ->
     core t = [ANotify TRAIN_BEGIN ∅; ANotify TRAIN_END ∅]) /\
  (forall td vd w u,
     train_data x y = Ok td -> validation validation_data = Ok vd ->
     reporter_init (world s) = (w, Ok u) -> _forward (self s) <> FInvalid ->
     (r = Ok [] /\ core t = [ANotify TRAIN_BEGIN ∅; ANotify TRAIN_END ∅]) \/
     (exists pre e, t = pre ++ [ACbExn e] /\ r = Raise e)).
Proof.
  intros Hep H.
  assert (Hmain : forall f td vd w,
             fit_main f td vd (_loss_func (self s)) (_converter (self s)) batch_size
               epochs {| world := w; self := fit_setup (self s) |} = (s', t, r) ->
             core t `prefix_of` [ANotify TRAIN_BEGIN ∅; ANotify TRAIN_END ∅] /\
             (forall history, r = Ok history ->
                core t = [ANotify TRAIN_BEGIN ∅; ANotify TRAIN_END ∅]) /\
             ((r = Ok [] /\ core t = [ANotify TRAIN_BEGIN ∅; ANotify TRAIN_END ∅]) \/
              (exists pre e, t = pre ++ [ACbExn e] /\ r = Raise e))).
  { intros f td vd w Hm.
    destruct (fit_main_without_epochs _ _ _ _ _ _ _ _ _ _ _ Hep Hm) as [Hp Hr].
    split_and!; [done | | done].
    intros history ->. by destruct Hr as [[_ ?]|(pre & e & _ & [=])]. }
  destruct (train_data x y) as [td|e] eqn:Htd.
  2: { rewrite (fit_train_data_raises _ _ _ _ _ _ _ Htd) in H. simplify_eq.
       split_and!; [apply prefix_nil | done | done]. }
  destruct (validation validation_data) as [vd|e] eqn:Hvd.
  2: { rewrite (fit_validation_raises _ _ _ _ _ _ _ _ Htd Hvd) in H. simplify_eq.
       split_and!; [apply prefix_nil | done | done]. }
  destruct (fit_start _ _ _ _ _ _ _ _ _ _ _ Htd Hvd H) as (w & r0 & Hinit & Hr).
  destruct r0 as [u|e].
  2: { destruct Hr as (_ & -> & ->).
       split_and!; [apply prefix_nil | done |]. intros ? ? ? ? _ _ Hi. congruence. }
  destruct (_forward (self s)) as [f|f|].
  - destruct (Hmain _ _ _ _ Hr) as (? & ? & ?). split_and!; auto.
  - destruct (Hmain _ _ _ _ Hr) as (? & ? & ?). split_and!; auto.
  - destruct Hr as (_ & -> & ->). split_and!; [apply prefix_nil | done |].
    by intros ? ? ? ? _ _ _ ?.
Qed.

(** ** The records of the batches *)

Lemma batch_cores_begin_records convert train opt nb runs :
  forall i,
    records_of BATCH_BEGIN (batch_cores convert train opt nb i runs) =
    imap (fun j b => new_batch_logs train (i + j) (br_size b) (br_xs b) (br_ts b) nb)
      runs.
Proof.
  induction runs as [|b runs IH]; intros i; [done|].
  simpl. rewrite records_of_app, batch_core_records, IH. simpl.
  rewrite Nat.add_0_r. f_equal. apply imap_ext. intros j x _. simpl.
  f_equal. lia.
Qed.

Lemma batch_cores_end_records convert train opt nb runs :
  forall i,
    records_of BATCH_END (batch_cores convert train opt nb i runs) =
    map (fun b => <["loss" := VFloat (br_float b)]> (<["ys" := br_ys b]> (br_log b)))
      runs.
Proof.
  induction runs as [|b runs IH]; intros i; [done|].
  simpl. by rewrite records_of_app, batch_core_records, IH.
Qed.

(** X6. The records of the batches of a phase that returns (lines
    145-166).  There is one BATCH_BEGIN and one BATCH_END record per batch
    the dataset yielded.  The BATCH_BEGIN records are numbered 0, 1, 2, ...
    in [batch_index]; each holds exactly the eight keys of line 145, with
    the phase's [train] flag, [num_batches] computed from the size of the
    dataset, [ys] and [loss] still None, and as [batch_size] the length of
    the converted targets (not the [batch_size] argument).  Each BATCH_END
    record holds the predictions and the loss as a float. *)
Theorem batch_records forward dataset lossfun convert batch_size logs0 train
    s s' t out :
  _process forward dataset lossfun convert batch_size logs0 train s = (s', t, Ok out) ->
  exists batches,
    core t !! 2%nat = Some (ARet (VSeq batches)) /\
    length (records_of BATCH_BEGIN t) = length batches /\
    length (records_of BATCH_END t) = length batches /\
    (forall i log,
        records_of BATCH_BEGIN t !! i = Some log ->
        log !! "batch_index" = Some (VInt (Z.of_nat i)) /\
        log !! "train" = Some (VBool train) /\
        log !! "num_batches" = Some (VInt (ceil_div (ds_size dataset) batch_size)) /\
        log !! "ys" = Some VNone /\ log !! "loss" = Some VNone /\
        (exists ts n, log !! "ts" = Some ts /\ py_len ts = Ok n /\
                      log !! "batch_size" = Some (VInt n)) /\
        dom log = ({["train"; "batch_index"; "batch_size"; "xs"; "ts"; "ys"; "loss";
                     "num_batches"]} : gset string)) /\
    (forall i log,
        records_of BATCH_END t !! i = Some log ->
        exists ys x, log !! "ys" = Some ys /\ log !! "loss" = Some (VFloat x)).
Proof.
  intros H. apply process_shape in H as (runs & blog & _ & _ & _ & _ & Hok & Hc).
  exists (map br_batch runs).
  assert (Hbeg : records_of BATCH_BEGIN t =
                 imap (fun j b => new_batch_logs train j (br_size b) (br_xs b) (br_ts b)
                                    (ceil_div (ds_size dataset) batch_size)) runs).
  { rewrite <- records_of_core, Hc, !records_of_app, batch_cores_begin_records.
    destruct train; simpl; repeat case_decide; try done; by rewrite app_nil_r. }
  assert (Hend : records_of BATCH_END t =
                 map (fun b => <["loss" := VFloat (br_float b)]>
                                 (<["ys" := br_ys b]> (br_log b))) runs).
  { rewrite <- records_of_core, Hc, !records_of_app, batch_cores_end_records.
    destruct train; simpl; repeat case_decide; try done; by rewrite app_nil_r. }
  split_and!.
  - by rewrite Hc.
  - by rewrite Hbeg, length_imap, length_map.
  - by rewrite Hend, !length_map.
  - intros i log Hi. rewrite Hbeg, list_lookup_imap in Hi.
    destruct (runs !! i) as [b|] eqn:Hb; [|done]. injection Hi as <-.
    eapply Forall_lookup_1 in Hok as (Hlen & _); [|done].
    unfold new_batch_logs. split_and!; try by simplify_map_eq.
    exists (br_ts b), (br_size b). split_and!; [|done|]; by simplify_map_eq.
  - intros i log Hi. rewrite Hend, list_lookup_fmap in Hi.
    destruct (runs !! i) as [b|] eqn:Hb; [|done]. injection Hi as <-.
    exists (br_ys b), (br_float b). split; by simplify_map_eq.
Qed.

(** ** The passes over the data *)

(** The calls of [batch], in order: the dataset it was called on, the
    batch size and the [shuffle] flag of each. *)
Definition batch_calls (t : list Action) : list (Dataset * Z * bool) :=
  omap (fun a => match a with
                 | ACall (CBatch d b shuffle) => Some (d, b, shuffle)
                 | _ => None
                 end) t.

Lemma batch_calls_app t1 t2 : batch_calls (t1 ++ t2) = batch_calls t1 ++ batch_calls t2.
Proof. apply omap_app. Qed.

Lemma batch_calls_core t : batch_calls (core t) = batch_calls t.
Proof.
  induction t as [|a t IH]; [done|]. unfold core in *.
  destruct a; simpl; rewrite ?filter_cons_True, ?filter_cons_False by (simpl; congruence);
    simpl; by rewrite IH.
Qed.

Lemma batch_calls_notify ev log s s' t r :
  notify ev log s = (s', t, r) -> batch_calls t = [].
Proof. intros H. apply core_notify in H as [H _]. by rewrite <- batch_calls_core, H. Qed.

Lemma batch_cores_batch_calls convert train opt nb runs :
  forall i, batch_calls (batch_cores convert train opt nb i runs) = [].
Proof.
  induction runs as [|b runs IH]; intros i; [done|].
  simpl. rewrite batch_calls_app, IH, app_nil_r. unfold batch_core.
  rewrite !batch_calls_app. by destruct convert, train.
Qed.

Lemma process_batch_calls forward dataset lossfun convert batch_size logs0 train
    s s' t out :
  _process forward dataset lossfun convert batch_size logs0 train s = (s', t, Ok out) ->
  batch_calls t = [(dataset, batch_size, train)].
Proof.
  intros H. apply process_shape in H as (runs & blog & _ & _ & _ & _ & _ & Hc).
  rewrite <- batch_calls_core, Hc, !batch_calls_app, batch_cores_batch_calls. done.
Qed.

(** The passes of one epoch: the training data, shuffled, then the
    validation data, if there is any, as it is. *)
Definition epoch_passes (td : Dataset) (vd : option Dataset) (batch_size : Z)
    : list (Dataset * Z * bool) :=
  (td, batch_size, true) ::
  match vd with
  | Some d => [(d, batch_size, false)]
  | None => []
  end.

Lemma epoch_step_passes forward td vd lossfun convert batch_size epoch s s' t u :
  epoch_step forward td vd lossfun convert batch_size epoch s = (s', t, Ok u) ->
  batch_calls t = epoch_passes td vd batch_size /\
  records_of EPOCH_BEGIN t = [new_epoch_logs epoch (ds_size td)].
Proof.
  unfold epoch_step. fold (new_epoch_logs epoch (ds_size td)). intros H.
  mok H as s1 tr1 log1 Hbeg. mok H as s2 tr2 log2 Hp. mok H as s3 tr3 log3 Hv.
  mok H as s4 tr4 log4 Hend. mprim H.
  assert (Hval : batch_calls tr3 = match vd with
                                   | Some d => [(d, batch_size, false)]
                                   | None => []
                                   end
                 /\ records_of EPOCH_BEGIN tr3 = []).
  { destruct vd as [vd|]; simpl.
    - split; [by eapply process_batch_calls | by eapply process_records].
    - by mprim Hv. }
  destruct Hval as [Hv1 Hv2]. split.
  - rewrite !batch_calls_app, (batch_calls_notify _ _ _ _ _ _ Hbeg),
      (process_batch_calls _ _ _ _ _ _ _ _ _ _ _ Hp), Hv1,
      (batch_calls_notify _ _ _ _ _ _ Hend).
    simpl. by rewrite app_nil_r.
  - apply core_notify in Hbeg as [Hc1 _]. apply core_notify in Hend as [Hc4 _].
    rewrite !records_of_app, <- (records_of_core _ tr1), Hc1,
      (process_records EPOCH_BEGIN _ _ _ _ _ _ _ _ _ _ _ Hp) by done.
    rewrite Hv2, <- (records_of_core _ tr4), Hc4. simpl. by repeat case_decide.
Qed.

Lemma epoch_loop_passes forward td vd lossfun convert batch_size epochs :
  forall s s' t u,
    epoch_loop (epoch_step forward td vd lossfun convert batch_size) epochs s
      = (s', t, Ok u) ->
    batch_calls t =
      concat (replicate (length epochs) (epoch_passes td vd batch_size)) /\
    records_of EPOCH_BEGIN t = map (fun e => new_epoch_logs e (ds_size td)) epochs.
Proof.
  induction epochs as [|e es IH]; intros s s' t u H; simpl in H.
  - by mprim H.
  - mok H as s1 tr1 u1 He. apply epoch_step_passes in He as [Hc Hr].
    apply IH in H as [Hcs Hrs].
    rewrite batch_calls_app, records_of_app, Hc, Hr, Hcs, Hrs. done.
Qed.

Lemma epoch_range_seq epochs :
  epoch_range epochs = map Z.of_nat (seq 1 (Z.to_nat epochs)).
Proof.
  unfold epoch_range. rewrite <- seq_shift, map_map. apply map_ext. intros i. lia.
Qed.

Lemma fit_main_passes forward td vd lossfun convert batch_size epochs s s' t history :
  fit_main forward td vd lossfun convert batch_size epochs s = (s', t, Ok history) ->
  batch_calls t =
    concat (replicate (Z.to_nat epochs) (epoch_passes td vd batch_size)) /\
  records_of EPOCH_BEGIN t =
    map (fun e => new_epoch_logs e (ds_size td)) (epoch_range epochs).
Proof.
  unfold fit_main. intros H.
  mok H as s1 tr1 l1 Hb. mpure H as tr Htr. mok H as s2 tr2 u2 Hl.
  mok H as s3 tr3 l3 He. mprim H.
  assert (Hloop : batch_calls tr2 =
                    concat (replicate (Z.to_nat epochs)
                              (epoch_passes td vd batch_size)) /\
                  records_of EPOCH_BEGIN tr2 =
                    map (fun e => new_epoch_logs e (ds_size td)) (epoch_range epochs)).
  { rewrite <- length_epoch_range. unfold main_loop in Hl.
    destruct (_reporter (self s1)).
    - apply with_reporter_inv in Hl as (s4 & Hl & _). by eapply epoch_loop_passes.
    - by eapply epoch_loop_passes. }
  destruct Hloop as [Hl1 Hl2]. split.
  - rewrite !batch_calls_app, (batch_calls_notify _ _ _ _ _ _ Hb), Hl1,
      (batch_calls_notify _ _ _ _ _ _ He).
    simpl. by rewrite app_nil_r.
  - apply core_notify in Hb as [Hc1 _]. apply core_notify in He as [Hc3 _].
    rewrite !records_of_app, <- (records_of_core _ tr1), Hc1, Hl2,
      <- (records_of_core _ tr3), Hc3.
    simpl. repeat case_decide; try done. by rewrite app_nil_r.
Qed.

Lemma fit_passes x y batch_size epochs validation_data td vd s s' t history :
  train_data x y = Ok td -> validation validation_data = Ok vd ->
  fit x y batch_size epochs validation_data s = (s', t, Ok history) ->
  batch_calls t =
    concat (replicate (Z.to_nat epochs) (epoch_passes td vd batch_size)) /\
  records_of EPOCH_BEGIN t =
    map (fun e => new_epoch_logs e (ds_size td)) (epoch_range epochs).
Proof.
  intros Htd Hvd H.
  destruct (fit_start _ _ _ _ _ _ _ _ _ _ _ Htd Hvd H) as (w & r0 & Hinit & Hr).
  destruct r0 as [u|e]; [|by destruct Hr as (_ & _ & [=])].
  destruct (_forward (self s)) as [f|f|];
    [| |by destruct Hr as (_ & _ & [=])]; by eapply fit_main_passes.
Qed.

(** X7. The data is gone through once per phase (lines 136-137): a call
    of [fit] that returns has called [batch], for each of its epochs, once
    on the training data with [shuffle=True] and then, only when there is
    validation data, once on the validation data with [shuffle=False],
    each time with the [batch_size] of the call, and never otherwise.  So
    the training data is shuffled anew in every epoch and the validation
    data never. *)
Theorem fit_shuffles_training_only x y batch_size epochs validation_data td vd
    s s' t history :
  train_data x y = Ok td -> validation validation_data = Ok vd ->
  fit x y batch_size epochs validation_data s = (s', t, Ok history) ->
  batch_calls t =
    concat (replicate (Z.to_nat epochs)
              ((td, batch_size, true) ::
               match vd with
               | Some d => [(d, batch_size, false)]
               | None => []
               end)).
Proof.
  intros Htd Hvd H. by destruct (fit_passes _ _ _ _ _ _ _ _ _ _ _ Htd Hvd H) as [Hc _].
Qed.

(** X8. The epochs are numbered from 1 (line 96): the records notified
    with EPOCH_BEGIN by a call of [fit] that returns are, in order,
    [{'epoch': 1, 'size': n}], ..., [{'epoch': epochs, 'size': n}], [n]
    being the size of the training data; each is a new dict of these two
    keys, whatever the callbacks did to the records of earlier epochs. *)
Theorem fit_epoch_records x y batch_size epochs validation_data td s s' t history :
  train_data x y = Ok td ->
  fit x y batch_size epochs validation_data s = (s', t, Ok history) ->
  records_of EPOCH_BEGIN t =
    map (fun i => <["epoch" := VInt (Z.of_nat i)]> (<["size" := VInt (ds_size td)]> ∅))
      (seq 1 (Z.to_nat epochs)).
Proof.
  intros Htd H.
  destruct (validation validation_data) as [vd|e] eqn:Hvd.
  2: { by rewrite (fit_validation_raises _ _ _ _ _ _ _ _ Htd Hvd) in H. }
  destruct (fit_passes _ _ _ _ _ _ _ _ _ _ _ Htd Hvd H) as [_ Hr].
  by rewrite Hr, epoch_range_seq, map_map.
Qed.

(** ** [Trainer.configure] *)

(** What the [config] dict may hold under a key. *)
Inductive ConfigValue :=
| CfgUpdate (update : Optimizer -> value -> Ext unit)   (* a function of (optimizer, loss) *)
| CfgConverter (converter : value -> Ext value)         (* a function of one argument *)
| CfgHooks (hooks : list (TrainEvent * Callback))       (* a dict from events to hooks:
                                                           its items, in their order *)
| CfgListeners (listeners : list Listener)              (* a list of listeners *)
| CfgValue (v : value).                                 (* None, a number, a sequence *)

(** What [self._update(optimizer, loss)] does when [self._update] is the
    given object: only a function of two arguments can be called so. *)
Definition as_update (v : ConfigValue) : Optimizer -> value -> Ext unit :=
  match v with
  | CfgUpdate update => update
  | _ => fun _ _ => raise TypeError
  end.

(** [self._converter] as [fit] takes it (lines 88-89): an object that is
    not callable stands for the identity, and a function of two arguments
    cannot be called with one. *)
Definition as_converter (v : ConfigValue) : option (value -> Ext value) :=
  match v with
  | CfgConverter converter => Some converter
  | CfgUpdate _ => Some (fun _ => raise TypeError)
  | _ => None
  end.

Definition set_converter (c : option (value -> Ext value)) (t : Trainer) : Trainer :=
  {| _optimizer := _optimizer t; _forward := _forward t;
     _loss_func := _loss_func t; _acc_func := _acc_func t;
     _update := _update t; _converter := c;
     _reporter := _reporter t; _listeners := _listeners t;
     _hooks := _hooks t |}.

(** What iterating over [config['listeners']] yields. *)
Inductive ListenerArg :=
| ArgListener (l : Listener)
| ArgEvent (ev : TrainEvent)
| ArgValue (v : value).

(** [for listener in v]: a list yields its items, a dict its keys, and
    nothing else here can be iterated over. *)
Definition config_iter (v : ConfigValue) : Res (list ListenerArg) :=
  match v with
  | CfgListeners listeners => Ok (map ArgListener listeners)
  | CfgHooks hooks => Ok (map (fun eh => ArgEvent (fst eh)) hooks)
  | CfgValue (VSeq l) => Ok (map ArgValue l)
  | _ => Raise TypeError
  end.

(** [Dispatcher.add_listener], which [configure] calls, is not among the
    sources at hand and the spec does not describe it: it is left open. *)
Variable add_listener : ListenerArg -> M unit.

Fixpoint add_hooks (hooks : list (TrainEvent * Callback)) : M unit :=
  match hooks with
  | [] => mret tt
  | (event, hook) :: rest => add_hook event hook ;;; add_hooks rest
  end.

Fixpoint add_listeners (listeners : list ListenerArg) : M unit :=
  match listeners with
  | [] => mret tt
  | listener :: rest => add_listener listener ;;; add_listeners rest
  end.

(** [Trainer.configure(config, **kwargs)], for a [config] that is a dict
    (line 30 asserts it).  The caller's dict is updated in place: its new
    contents are handed back. *)
Definition configure (config kwargs : gmap string ConfigValue)
    : M (gmap string ConfigValue) :=
  let config := kwargs ∪ config in                       (* config.update(kwargs) *)
  match config !! "update" with
  | Some v => modify_self (set_update (as_update v))
  | None => mret tt
  end ;;;
  match config !! "hooks" with
  | Some (CfgHooks hooks) => add_hooks hooks
  | Some _ => mraise AttributeError                      (* no [items] *)
  | None => mret tt
  end ;;;
  match config !! "listeners" with
  | Some v => listeners <- lift_res (config_iter v) ;; add_listeners listeners
  | None => mret tt
  end ;;;
  match config !! "converter" with
  | Some v => modify_self (set_converter (as_converter v))
  | None => mret tt
  end ;;;
  mret config.

Lemma add_hooks_run hooks s :
  add_hooks hooks s =
  ({| world := world s; self := set_hooks (_hooks (self s) ++ hooks) (self s) |}, [], Ok tt).
Proof.
  revert s. induction hooks as [|[ev h] hooks IH]; intros [w tr]; simpl.
  - rewrite app_nil_r. by destruct tr.
  - unfold mbind, add_hook, modify_self. simpl. rewrite IH. simpl.
    by rewrite <- app_assoc.
Qed.

(** The trainer after the entries [update], [hooks] and [converter] of a
    configuration were applied. *)
Definition configured (config : gmap string ConfigValue)
    (hooks : list (TrainEvent * Callback)) (tr : Trainer) : Trainer :=
  {| _optimizer := _optimizer tr; _forward := _forward tr;
     _loss_func := _loss_func tr; _acc_func := _acc_func tr;
     _update := match config !! "update" with
                | Some v => as_update v
                | None => _update tr
                end;
     _converter := match config !! "converter" with
                   | Some v => as_converter v
                   | None => _converter tr
                   end;
     _reporter := _reporter tr; _listeners := _listeners tr;
     _hooks := _hooks tr ++ hooks |}.

Definition config_hooks (config : gmap string ConfigValue)
    : option (list (TrainEvent * Callback)) :=
  match config !! "hooks" with
  | Some (CfgHooks hooks) => Some hooks
  | Some _ => None
  | None => Some []
  end.

(** X9. [configure] without listeners.  Keyword arguments take precedence
    over the entries of [config], and the caller's dict is left holding
    both.  If the [hooks] entry is a dict (or is absent) the call returns,
    having notified and called nothing: the update strategy and the
    converter are replaced when their keys are present, whatever the values
    are (even None), and the hooks are registered behind the hooks
    registered before, so that for every event they are called after every
    callback the trainer had, in the order of the dict; optimizer, forward,
    loss and accuracy functions, reporter and listeners are as before,
    and any other key is ignored. *)
Theorem configure_without_listeners config kwargs hooks s :
  (kwargs ∪ config) !! "listeners" = None ->
  config_hooks (kwargs ∪ config) = Some hooks ->
  let tr' := configured (kwargs ∪ config) hooks (self s) in
  configure config kwargs s
    = ({| world := world s; self := tr' |}, [], Ok (kwargs ∪ config)) /\
  (forall k v, kwargs !! k = Some v -> (kwargs ∪ config) !! k = Some v) /\
  (forall ev,
      callbacks_for tr' ev =
      callbacks_for (self s) ev ++ hook_callbacks ev (length (_hooks (self s))) hooks).
Proof.
  intros Hl Hh tr'. split_and!.
  - unfold configure, tr', configured. unfold config_hooks in Hh. rewrite Hl.
    destruct s as [w tr]. simpl.
    destruct ((kwargs ∪ config) !! "hooks") as [[| |hs| |]|]; simplify_eq;
      destruct ((kwargs ∪ config) !! "update") as [u|];
      destruct ((kwargs ∪ config) !! "converter") as [c|];
      unfold mbind, modify_self, mret; simpl; rewrite ?add_hooks_run; simpl;
      rewrite ?app_nil_r; by destruct tr.
  - intros k v Hk. by apply lookup_union_Some_l.
  - intros ev. unfold callbacks_for, tr', configured. simpl.
    by rewrite hook_callbacks_app, app_assoc.
Qed.

(** X10. [configure] is not atomic: the entries are applied in the order
    [update], [hooks], [listeners], [converter] (lines 32-41).  With a
    [hooks] entry that is not a dict the call raises AttributeError when
    the update strategy has already been replaced, and the converter is
    not set; with a [listeners] entry that cannot be iterated over it
    raises TypeError when update strategy and hooks are in place. *)
Theorem configure_not_atomic config kwargs s :
  (forall v,
      (kwargs ∪ config) !! "hooks" = Some v -> (forall hooks, v <> CfgHooks hooks) ->
      configure config kwargs s =
        ({| world := world s;
            self := match (kwargs ∪ config) !! "update" with
                    | Some u => set_update (as_update u) (self s)
                    | None => self s
                    end |}, [], Raise AttributeError)) /\
  (forall hooks v,
      config_hooks (kwargs ∪ config) = Some hooks ->
      (kwargs ∪ config) !! "listeners" = Some v -> config_iter v = Raise TypeError ->
      configure config kwargs s =
        ({| world := world s;
            self := set_converter (_converter (self s))
                      (configured (kwargs ∪ config) hooks (self s)) |},
         [], Raise TypeError)).
Proof.
  split.
  - intros v Hv Hnot. unfold configure. rewrite Hv. destruct s as [w tr]. simpl.
    destruct ((kwargs ∪ config) !! "update") as [u|];
      destruct v as [| |hs| |]; try (by destruct (Hnot hs)); done.
  - intros hooks v Hh Hv Hiter. unfold configure. unfold config_hooks in Hh.
    rewrite Hv. destruct s as [w tr]. simpl.
    unfold configured, set_converter. simpl.
    destruct ((kwargs ∪ config) !! "hooks") as [[| |hs| |]|]; simplify_eq;
      destruct ((kwargs ∪ config) !! "update") as [u|];
      unfold mbind, modify_self, mret, lift_res; simpl; rewrite ?add_hooks_run; simpl;
      rewrite Hiter, ?app_nil_r; by destruct tr.
Qed.


(** ** The parameter updates of a call *)

(** The calls of the update strategy, in order: the optimizer and the loss
    of each. *)
Definition update_calls (t : list Action) : list (Optimizer * value) :=
  omap (fun a => match a with
                 | ACall (CUpdate opt loss) => Some (opt, loss)
                 | _ => None
                 end) t.

(** The [train] flags of the BATCH_BEGIN records, in order. *)
Definition train_flags (t : list Action) : list bool :=
  omap (fun log => match log !! "train" with
                   | Some (VBool b) => Some b
                   | _ => None
                   end) (records_of BATCH_BEGIN t).

(** The number of batches notified as training batches. *)
Definition training_batches (t : list Action) : nat :=
  length (List.filter (fun b : bool => b) (train_flags t)).

Lemma update_calls_app t1 t2 : update_calls (t1 ++ t2) = update_calls t1 ++ update_calls t2.
Proof. apply omap_app. Qed.

Lemma update_calls_core t : update_calls (core t) = update_calls t.
Proof.
  induction t as [|a t IH]; [done|]. unfold core in *.
  destruct a; simpl; rewrite ?filter_cons_True, ?filter_cons_False by (simpl; congruence);
    simpl; by rewrite IH.
Qed.

Lemma train_flags_app t1 t2 : train_flags (t1 ++ t2) = train_flags t1 ++ train_flags t2.
Proof. unfold train_flags. by rewrite records_of_app, omap_app. Qed.

Lemma training_batches_app t1 t2 :
  training_batches (t1 ++ t2) = (training_batches t1 + training_batches t2)%nat.
Proof.
  unfold training_batches. by rewrite train_flags_app, List.filter_app, length_app.
Qed.

(** [updated opt t]: in [t] the update strategy was called once for each
    batch notified as a training batch, each time with [opt]. *)
Definition updated (opt : Optimizer) (t : list Action) : Prop :=
  length (update_calls t) = training_batches t /\
  Forall (fun call => fst call = opt) (update_calls t).

Lemma updated_nil opt : updated opt [].
Proof. split; [done | constructor]. Qed.

Lemma updated_app opt t1 t2 : updated opt t1 -> updated opt t2 -> updated opt (t1 ++ t2).
Proof.
  intros [H1 F1] [H2 F2]. split.
  - by rewrite update_calls_app, length_app, training_batches_app, H1, H2.
  - rewrite update_calls_app. by apply Forall_app.
Qed.

Lemma updated_notify opt ev log s s' t r :
  ev <> BATCH_BEGIN -> notify ev log s = (s', t, r) -> updated opt t.
Proof.
  intros Hev H. apply core_notify in H as [H _]. split.
  - unfold training_batches, train_flags.
    rewrite <- update_calls_core, <- records_of_core, H. simpl. by case_decide.
  - rewrite <- update_calls_core, H. constructor.
Qed.

Lemma batch_cores_updated convert train opt nb runs :
  forall i, updated opt (batch_cores convert train opt nb i runs).
Proof.
  induction runs as [|b runs IH]; intros i; [apply updated_nil|].
  simpl. apply updated_app; [|apply IH]. split.
  - unfold training_batches, train_flags. rewrite batch_core_records. simpl.
    unfold new_batch_logs. rewrite lookup_insert_eq. unfold batch_core.
    rewrite !update_calls_app. by destruct convert, train.
  - unfold batch_core. rewrite !update_calls_app.
    destruct convert, train; simpl; by repeat constructor.
Qed.

Lemma process_updated forward dataset lossfun convert batch_size logs0 train
    s s' t out :
  _process forward dataset lossfun convert batch_size logs0 train s = (s', t, Ok out) ->
  updated (_optimizer (self s)) t.
Proof.
  intros H. apply process_shape in H as (runs & blog & _ & _ & _ & _ & _ & Hc).
  assert (Hu : updated (_optimizer (self s)) (core t)).
  { rewrite Hc. repeat apply updated_app.
    - split; [|by repeat constructor].
      unfold training_batches, train_flags. simpl. by destruct train.
    - apply batch_cores_updated.
    - split; [|by repeat constructor].
      unfold training_batches, train_flags. simpl. by destruct train. }
  destruct Hu as [Hlen Hall]. unfold updated, training_batches, train_flags in *.
  by rewrite update_calls_core, records_of_core in *.
Qed.

Lemma epoch_step_updated forward td vd lossfun convert batch_size epoch s s' t u :
  epoch_step forward td vd lossfun convert batch_size epoch s = (s', t, Ok u) ->
  updated (_optimizer (self s)) t.
Proof.
  unfold epoch_step. intros H.
  mok H as s1 tr1 log1 Hbeg. mok H as s2 tr2 log2 Hp. mok H as s3 tr3 log3 Hv.
  mok H as s4 tr4 log4 Hend. mprim H.
  pose proof (keeps_self_notify _ _ _ _ _ _ Hbeg) as Hs1.
  pose proof (keeps_self_process _ _ _ _ _ _ _ _ _ _ _ Hp) as Hs2.
  repeat apply updated_app.
  - eapply updated_notify; [|eassumption]; done.
  - rewrite <- Hs1. by eapply process_updated.
  - destruct vd as [vd|].
    + rewrite <- Hs1, <- Hs2. by eapply process_updated.
    + mprim Hv. apply updated_nil.
  - eapply updated_notify; [|eassumption]; done.
  - apply updated_nil.
Qed.

Lemma epoch_loop_updated tr forward td vd lossfun convert batch_size epochs :
  forall s s' t u,
    self s = tr ->
    epoch_loop (epoch_step forward td vd lossfun convert batch_size) epochs s
      = (s', t, Ok u) ->
    updated (_optimizer tr) t.
Proof.
  induction epochs as [|e es IH]; intros s s' t u Hs H; simpl in H.
  - mprim H. apply updated_nil.
  - mok H as s1 tr1 u1 He.
    pose proof (ordered_epoch_step tr _ _ _ _ _ _ _ _ _ _ _ Hs He) as [Hs1 _].
    apply updated_app.
    + rewrite <- Hs. by eapply epoch_step_updated.
    + by eapply IH.
Qed.

Lemma fit_main_updated forward td vd lossfun convert batch_size epochs s s' t history :
  fit_main forward td vd lossfun convert batch_size epochs s = (s', t, Ok history) ->
  updated (_optimizer (self s)) t.
Proof.
  unfold fit_main. intros H.
  mok H as s1 tr1 l1 Hb. mpure H as tr Htr. mok H as s2 tr2 u2 Hl.
  mok H as s3 tr3 l3 He. mprim H.
  pose proof (keeps_self_notify _ _ _ _ _ _ Hb) as Hs1.
  repeat apply updated_app.
  - eapply updated_notify; [|eassumption]; done.
  - unfold main_loop in Hl. destruct (_reporter (self s1)).
    + apply with_reporter_inv in Hl as (s4 & Hl & _).
      by eapply (epoch_loop_updated (self s)) in Hl.
    + by eapply (epoch_loop_updated (self s)) in Hl.
  - eapply updated_notify; [|eassumption]; done.
  - apply updated_nil.
Qed.

(** X16. One update per training batch: in a call of [fit] that returns,
    the update strategy has been called exactly as many times as there
    were batches notified with [train] set (BATCH_BEGIN records of the
    training phases), every time with the optimizer of the trainer; the
    batches of the validation phases add none. *)
Theorem fit_updates_once_per_training_batch x y batch_size epochs validation_data
    s s' t history :
  fit x y batch_size epochs validation_data s = (s', t, Ok history) ->
  length (update_calls t) = training_batches t /\
  Forall (fun call => fst call = _optimizer (self s)) (update_calls t).
Proof.
  intros H.
  destruct (train_data x y) as [td|e] eqn:Htd.
  2: { by rewrite (fit_train_data_raises _ _ _ _ _ _ _ Htd) in H. }
  destruct (validation validation_data) as [vd|e] eqn:Hvd.
  2: { by rewrite (fit_validation_raises _ _ _ _ _ _ _ _ Htd Hvd) in H. }
  destruct (fit_start _ _ _ _ _ _ _ _ _ _ _ Htd Hvd H) as (w & r0 & Hinit & Hr).
  destruct r0 as [u|e]; [|by destruct Hr as (_ & _ & [=])].
  assert (Hopt : _optimizer (fit_setup (self s)) = _optimizer (self s)).
  { unfold fit_setup. by destruct (_acc_func (self s)). }
  destruct (_forward (self s)) as [f|f|];
    [| |by destruct Hr as (_ & _ & [=])];
    apply fit_main_updated in Hr; simpl in Hr; by rewrite Hopt in Hr.
Qed.

End Model.

Arguments value F : clear implicits.
Arguments Frame F : clear implicits.
Arguments World F U : clear implicits.
Arguments Callback F U : clear implicits.
Arguments Dataset F U : clear implicits.
Arguments pyobj F U : clear implicits.
Arguments Listener F U : clear implicits.
Arguments Call F U Optimizer : clear implicits.
Arguments Action F U Optimizer : clear implicits.
Arguments Forward F U : clear implicits.
Arguments Trainer F U Optimizer : clear implicits.
Arguments Machine F U Optimizer : clear implicits.
Arguments M F U Optimizer A : clear implicits.
Arguments ConfigValue F U Optimizer : clear implicits.
Arguments ListenerArg F U : clear implicits.
Arguments Obs F U : clear implicits.

(** * A trainer to run

    Losses are IEEE doubles; the state of the callables counts the
    parameter updates applied so far; the optimizer is a token. *)

Definition demo_value : Type := value float.
Definition demo_world : Type := World float nat.

#[local] Existing Instance binary64.

(** A batch with one input column and the target column, both holding the
    number [k]. *)
Definition demo_batch (k : Z) : demo_value :=
  VSeq [VSeq [VFloat (Z2float k)]; VSeq [VFloat (Z2float k)]].

(** A dataset of the given size that yields the batches [ks]. *)
Definition demo_dataset (size : Z) (ks : list Z) : Dataset float nat :=
  {| ds_size := size; ds_truthy := true;
     ds_batch := fun _ _ => ret (map demo_batch ks) |}.

(** 100 rows in batches of 32: four batches. *)
Definition demo_train : Dataset float nat := demo_dataset 100 [1; 2; 3; 4].

Definition demo_val : Dataset float nat := demo_dataset 40 [5; 6].

Definition demo_Dataset_new (x y : pyobj float nat) : Dataset float nat :=
  match x, y with
  | OValue vx, OValue vy =>
      {| ds_size := 1; ds_truthy := true;
         ds_batch := fun _ _ => ret [VSeq [vx; vy]] |}
  | _, _ => demo_dataset 0 []
  end.

(** The model hands its inputs back as predictions. *)
Definition demo_forward : list demo_value -> SE demo_world demo_value :=
  fun args => ret (VSeq args).

(** The loss of a batch is the first of its targets. *)
Definition demo_loss : demo_value -> demo_value -> SE demo_world demo_value :=
  fun _ ts =>
    match ts with
    | VSeq (x :: _) => ret x
    | _ => raise (UserError 1)
    end.

(** An update is counted. *)
Definition demo_update : unit -> demo_value -> SE demo_world unit :=
  fun _ _ w => ({| user := S (user w); frames := frames w |}, Ok tt).

Definition demo_trainer : Trainer float nat unit :=
  Trainer_init demo_update tt (FCallable demo_forward) demo_loss None.

Definition demo_machine (tr : Trainer float nat unit) : Machine float nat unit :=
  {| world := {| user := 0%nat; frames := [] |}; self := tr |}.

(** A run and its outcome, without running it. *)
Lemma run_eta {S T A} (x : S * T * Res A) : x = (fst (fst x), snd (fst x), snd x).
Proof. by destruct x as [[s t] r]. Qed.

Definition returns {A} (r : Res A) : bool :=
  match r with
  | Ok _ => true
  | Raise _ => false
  end.

Lemma returns_inv {S T A} (x : S * T * Res A) :
  returns (snd x) = true -> exists a, x = (fst (fst x), snd (fst x), Ok a).
Proof. destruct x as [[s t] [a|e]]; [by exists a | done]. Qed.

(** A reporter without callbacks of its own. *)
Abbreviation demo_fit :=
  (@fit float binary64 nat unit (fun fr => fr) demo_Dataset_new true
     (fun _ => None) None).

Abbreviation demo_process := (@_process float binary64 nat unit).

Abbreviation demo_run_validated :=
  (demo_fit (ODataset demo_train) (OValue VNone) 32 1 (ODataset demo_val)
     (demo_machine demo_trainer)).

Example demo_fit_events :
  events_of (snd (fst demo_run_validated)) =
  [TRAIN_BEGIN; EPOCH_BEGIN;
   EPOCH_TRAIN_BEGIN; BATCH_BEGIN; BATCH_END; BATCH_BEGIN; BATCH_END;
   BATCH_BEGIN; BATCH_END; BATCH_BEGIN; BATCH_END; EPOCH_TRAIN_END;
   EPOCH_VALIDATE_BEGIN; BATCH_BEGIN; BATCH_END; BATCH_BEGIN; BATCH_END;
   EPOCH_VALIDATE_END; EPOCH_END; TRAIN_END].
Proof. vm_compute. reflexivity. Qed.

Lemma fit_event_order_witness :
  exists s' t history,
    demo_run_validated = (s', t, Ok history) /\
    (exists counts : list (nat * nat),
        length counts = Z.to_nat 1 /\
        observed t = state_machine demo_train (Some demo_val) counts) /\
    observed t =
      [OEvent TRAIN_BEGIN; OEvent EPOCH_BEGIN;
       OEvent EPOCH_TRAIN_BEGIN; OBatches demo_train 4;
       OEvent BATCH_BEGIN; OEvent BATCH_END; OEvent BATCH_BEGIN; OEvent BATCH_END;
       OEvent BATCH_BEGIN; OEvent BATCH_END; OEvent BATCH_BEGIN; OEvent BATCH_END;
       OEvent EPOCH_TRAIN_END;
       OEvent EPOCH_VALIDATE_BEGIN; OBatches demo_val 2;
       OEvent BATCH_BEGIN; OEvent BATCH_END; OEvent BATCH_BEGIN; OEvent BATCH_END;
       OEvent EPOCH_VALIDATE_END;
       OEvent EPOCH_END; OEvent TRAIN_END] /\
    events_of t =
      [TRAIN_BEGIN; EPOCH_BEGIN;
       EPOCH_TRAIN_BEGIN; BATCH_BEGIN; BATCH_END; BATCH_BEGIN; BATCH_END;
       BATCH_BEGIN; BATCH_END; BATCH_BEGIN; BATCH_END; EPOCH_TRAIN_END;
       EPOCH_VALIDATE_BEGIN; BATCH_BEGIN; BATCH_END; BATCH_BEGIN; BATCH_END;
       EPOCH_VALIDATE_END; EPOCH_END; TRAIN_END].
Proof.
  destruct (returns_inv demo_run_validated) as [history Hrun];
    [vm_compute; reflexivity|].
  eexists _, _, history. split; [exact Hrun|]. split.
  - exact (proj1 (proj2 (fit_event_order (fun fr => fr) demo_Dataset_new true
                           (fun _ => None) None _ _ _ _ _ _ _ _ _ Hrun))
             demo_train (Some demo_val) eq_refl eq_refl).
  - split; vm_compute; reflexivity.
Defined.

(** The record of the first epoch over the 100 rows. *)
Definition demo_epoch_logs : gmap string demo_value :=
  @new_epoch_logs float 1 100.

Abbreviation demo_phase dataset train :=
  (demo_process demo_forward dataset demo_loss None 32 demo_epoch_logs train
     (demo_machine demo_trainer)).


(** The divisor does not follow the batches: a dataset of 100 rows that
    yields two batches only, with losses 1.0 and 2.0, reports 3.0 / 4. *)
Example demo_mean_loss_short_dataset :
  omap (fun log => log !! "loss")
    (records_of EPOCH_TRAIN_END
       (snd (fst (demo_phase (demo_dataset 100 [1; 2]) true)))) =
  [VFloat 0.75%float].
Proof. vm_compute. reflexivity. Qed.

(** An empty dataset: [ceil(0 / 32)] is 0 and the division raises. *)
Example demo_empty_dataset :
  snd (demo_phase (demo_dataset 0 []) true) = Raise ZeroDivisionError.
Proof. vm_compute. reflexivity. Qed.

Lemma update_only_when_training_witness :
  exists s' t out pre log post,
    demo_phase demo_train true = (s', t, Ok out) /\
    core t = pre ++ ANotify BATCH_END log :: post /\
    length pre = 34%nat /\
    (exists pre' ys ts l,
        pre = pre' ++ [ACall (CLoss ys ts); ARet l; ACall (CUpdate tt l); ARet VNone]).
Proof.
  destruct (returns_inv (demo_phase demo_train true)) as [out Hrun];
    [vm_compute; reflexivity|].
  assert (Ha : exists log,
             core (snd (fst (demo_phase demo_train true))) !! 34%nat
             = Some (ANotify BATCH_END log))
    by (vm_compute; eexists; reflexivity).
  destruct Ha as [log Hat].
  apply take_drop_middle in Hat. symmetry in Hat.
  destruct (update_only_when_training _ _ _ _ _ _ _ _ _ _ _ Hrun)
    as (_ & _ & Hend & _).
  eexists _, _, out, _, log, _. split; [exact Hrun|].
  split; [exact Hat|]. split; [vm_compute; reflexivity|].
  exact (Hend _ _ _ Hat).
Defined.

(** A validation phase over the same data applies no update; a training
    phase applies one per batch. *)
Example demo_validation_updates_nothing :
  user (world (fst (fst (demo_phase demo_val false)))) = 0%nat /\
  user (world (fst (fst (demo_phase demo_val true)))) = 2%nat.
Proof. vm_compute. done. Qed.

Abbreviation demo_batch_step :=
  (@batch_step float binary64 nat unit demo_forward demo_loss None 4 true 0
     (demo_batch 1) (<["loss" := VFloat 0%float]> ∅) (demo_machine demo_trainer)).

Lemma batch_data_flow_witness :
  exists s' t logs',
    demo_batch_step = (s', t, Ok logs') /\
    (exists inputs targets ts log0 args ys loss post,
        demo_batch 1 = VSeq (inputs ++ [targets]) /\
        core t = ANotify BATCH_BEGIN log0
                 :: ACall (CForward args) :: ARet ys
                 :: ACall (CLoss ys ts) :: ARet loss :: post) /\
    core t !! 1%nat = Some (ACall (CForward [VSeq [VFloat 1%float]])) /\
    core t !! 3%nat
      = Some (ACall (CLoss (VSeq [VSeq [VFloat 1%float]]) (VSeq [VFloat 1%float]))).
Proof.
  destruct (returns_inv demo_batch_step) as [logs' Hrun];
    [vm_compute; reflexivity|].
  eexists _, _, logs'. split; [exact Hrun|]. split.
  - destruct (batch_data_flow _ _ _ _ _ _ _ _ _ _ _ _ Hrun)
      as (inputs & targets & conv & ts & log0 & args & ys & loss & post
          & Hb & Hc & _).
    by exists inputs, targets, ts, log0, args, ys, loss, post.
  - split; vm_compute; reflexivity.
Defined.

Abbreviation demo_run_plain :=
  (demo_fit (ODataset demo_train) (OValue VNone) 32 2 (OValue VNone)
     (demo_machine demo_trainer)).

Lemma fit_history_empty_witness :
  exists s' t history, demo_run_plain = (s', t, Ok history) /\ history = [].
Proof.
  destruct (returns_inv demo_run_plain) as [history Hrun];
    [vm_compute; reflexivity|].
  eexists _, _, history. split; [exact Hrun|].
  exact (fit_history_empty (fun fr => fr) demo_Dataset_new true
           (fun _ => None) None _ _ _ _ _ _ _ _ _ Hrun).
Defined.

Abbreviation demo_epoch_step :=
  (@epoch_step float binary64 nat unit demo_forward demo_train (Some demo_val)
     demo_loss None 32 1 (demo_machine demo_trainer)).

Lemma epoch_record_untouched_witness :
  exists s' t u,
    demo_epoch_step = (s', t, Ok u) /\
    records_of EPOCH_END t = [demo_epoch_logs] /\
    dom demo_epoch_logs = ({["epoch"; "size"]} : gset string).
Proof.
  destruct (returns_inv demo_epoch_step) as [u Hrun]; [vm_compute; reflexivity|].
  destruct (proj2 (epoch_record_untouched _ _ _ _ _ _ _ _ _ _ _ Hrun))
    as (s1 & t1 & log1 & _ & Hend & _ & Hdom).
  destruct (Hdom eq_refl) as [Hlog Hd]. rewrite Hlog in Hend, Hd.
  eexists _, _, u. split; [exact Hrun|]. split; [exact Hend | exact Hd].
Defined.

(** ** Malformed arguments *)

Definition demo_targets : pyobj float nat := OValue (VSeq [VInt 1; VInt 2; VInt 3]).

(** [fit(x=dataset, y=[1,2,3])] does not raise the ValueError of the other
    malformed calls: it raises AssertionError and, with assertions
    switched off, it trains on the dataset and returns. *)
Lemma dataset_with_targets_raises_assertion :
  snd (demo_fit (ODataset demo_train) demo_targets 32 1 (OValue VNone)
         (demo_machine demo_trainer)) = Raise AssertionError /\
  snd (demo_fit (ODataset demo_train) demo_targets 32 1 (OValue VNone)
         (demo_machine demo_trainer)) <> Raise InvalidArgument /\
  snd (@fit float binary64 nat unit (fun fr => fr) demo_Dataset_new false
         (fun _ => None) None
         (ODataset demo_train) demo_targets 32 1 (OValue VNone)
         (demo_machine demo_trainer)) = Ok [].
Proof.
  assert (H : snd (demo_fit (ODataset demo_train) demo_targets 32 1 (OValue VNone)
                     (demo_machine demo_trainer)) = Raise AssertionError)
    by (vm_compute; reflexivity).
  split; [exact H|]. split; [rewrite H; discriminate|].
  vm_compute. reflexivity.
Defined.

Lemma fit_training_arguments_witness :
  is_None demo_targets = false /\
  demo_fit (ODataset demo_train) demo_targets 32 1 (OValue VNone)
    (demo_machine demo_trainer)
    = (demo_machine demo_trainer, [], Raise AssertionError) /\
  train_data demo_Dataset_new true (OValue (VSeq [])) demo_targets
    = Ok (demo_Dataset_new (OValue (VSeq [])) demo_targets).
Proof.
  destruct (fit_training_arguments (fun fr => fr) demo_Dataset_new true
              (fun _ => None) None 32 1 (OValue VNone) (demo_machine demo_trainer))
    as (_ & Hassert & _ & Hwrap).
  split; [reflexivity|]. split.
  - exact (Hassert demo_train demo_targets eq_refl).
  - exact (Hwrap (VSeq []) demo_targets eq_refl).
Defined.

(** [validation_data=[]] is neither a dataset nor a pair, and the call
    returns: the empty list is false, so validation is switched off. *)
Lemma empty_validation_data_is_accepted :
  snd (demo_fit (ODataset demo_train) (OValue VNone) 32 1 (OValue (VSeq []))
         (demo_machine demo_trainer)) = Ok [] /\
  snd (demo_fit (ODataset demo_train) (OValue VNone) 32 1 (OValue (VSeq []))
         (demo_machine demo_trainer)) <> Raise InvalidArgument.
Proof.
  assert (H : snd (demo_fit (ODataset demo_train) (OValue VNone) 32 1
                     (OValue (VSeq [])) (demo_machine demo_trainer)) = Ok [])
    by (vm_compute; reflexivity).
  split; [exact H|]. rewrite H. discriminate.
Defined.

(** A number as validation data raises TypeError, not ValueError. *)
Example demo_validation_data_without_length :
  snd (demo_fit (ODataset demo_train) (OValue VNone) 32 1 (OValue (VInt 5))
         (demo_machine demo_trainer)) = Raise TypeError.
Proof. vm_compute. reflexivity. Qed.

Lemma fit_validation_arguments_witness :
  validation demo_Dataset_new (OValue (VSeq [])) = Ok None /\
  validation demo_Dataset_new (OValue (VSeq [VInt 1; VInt 2; VInt 3]))
    = Raise InvalidArgument /\
  validation demo_Dataset_new (OValue (VInt 5)) = Raise TypeError /\
  demo_fit (ODataset demo_train) (OValue VNone) 32 1
    (OValue (VSeq [VInt 1; VInt 2; VInt 3])) (demo_machine demo_trainer)
    = (demo_machine demo_trainer, [], Raise InvalidArgument).
Proof.
  destruct (@fit_validation_arguments float binary64 nat unit (fun fr => fr)
              demo_Dataset_new true
              (fun _ => None) None)
    as (Hfalse & _ & _ & Hlen & Htype & Hfit).
  split_and!.
  - exact (Hfalse (OValue (VSeq [])) eq_refl).
  - apply (Hlen [VInt 1; VInt 2; VInt 3]); [discriminate | simpl; lia].
  - apply (Htype (VInt 5)); [reflexivity | discriminate].
  - apply (Hfit _ _ demo_train); [reflexivity|].
    apply (Hlen [VInt 1; VInt 2; VInt 3]); [discriminate | simpl; lia].
Defined.

(** ** A reporter with a BATCH_END callback and an accuracy function *)

Set Warnings "-inexact-float".

Definition demo_accuracy : demo_value -> demo_value -> SE demo_world demo_value :=
  fun _ _ => ret (VFloat 0.9%float).

Definition demo_reporter_on (ev : TrainEvent) : option (Callback float nat) :=
  match ev with
  | BATCH_END => Some (fun log => ret log)
  | _ => None
  end.

Definition demo_trainer_accuracy : Trainer float nat unit :=
  Trainer_init demo_update tt (FCallable demo_forward) demo_loss (Some demo_accuracy).

Abbreviation demo_run_accuracy :=
  (@fit float binary64 nat unit (fun fr => fr) demo_Dataset_new true
     demo_reporter_on None
     (ODataset (demo_dataset 64 [1; 2])) (OValue VNone) 32 1 (OValue VNone)
     (demo_machine demo_trainer_accuracy)).

(** The reporter frames each call of callback [who] was entered with. *)
Definition frames_seen {F U Optimizer : Type} (who : CbId)
    (t : list (Action F U Optimizer)) : list (list (Frame F)) :=
  omap (fun a => match a, who with
                 | ACbCall (ByHook i) _ _ fs, ByHook j
                 | ACbCall (ByListener i) _ _ fs, ByListener j =>
                     if Nat.eqb i j then Some fs else None
                 | _, _ => None
                 end) t.

(** With the accuracy function returning 0.9 for every batch, the hook of
    the first batch is entered with an empty frame and that of the second
    batch with a frame that holds the accuracy of the first. *)
Example demo_accuracy_in_frame :
  snd demo_run_accuracy = Ok [] /\
  frames_seen (ByHook 0) (snd (fst demo_run_accuracy))
    = [[[]]; [[("accuracy"%string, VFloat 0.9%float)]]].
Proof. vm_compute. done. Qed.

Lemma accuracy_reported_at_batch_end_witness :
  exists s' t history before pre log post,
    demo_run_accuracy = (s', t, Ok history) /\
    notifications (fit_setup demo_reporter_on None demo_trainer_accuracy) t /\
    callbacks_for (fit_setup demo_reporter_on None demo_trainer_accuracy) BATCH_END
      = before ++ [(ByHook 0, _report_accuracy demo_accuracy)] /\
    t = pre ++ ACbCall (ByHook 0) BATCH_END log [[]] :: post /\
    length pre = 15%nat /\
    exists w w' res,
      frames w = [[]] /\ _report_accuracy demo_accuracy log w = (w', res) /\
      match res with
      | Ok log' =>
          log' = log /\ (exists post', post = ACbRet log :: post') /\
          exists ys ts a w1 fr rest,
            log !! "ys" = Some ys /\ log !! "ts" = Some ts /\
            demo_accuracy ys ts w = (w1, Ok a) /\
            frames w1 = fr :: rest /\
            frames w' = (fr ++ [("accuracy"%string, a)]) :: rest
      | Raise e => post = [ACbExn e] /\ Ok history = Raise e
      end.
Proof.
  destruct (returns_inv demo_run_accuracy) as [history Hrun];
    [vm_compute; reflexivity|].
  assert (Ha : exists log,
             snd (fst demo_run_accuracy) !! 15%nat
             = Some (ACbCall (ByHook 0) BATCH_END log [[]]))
    by (vm_compute; eexists; reflexivity).
  destruct Ha as [log Hat].
  apply take_drop_middle in Hat. symmetry in Hat.
  destruct (accuracy_reported_at_batch_end (fun fr => fr) demo_Dataset_new true
              demo_reporter_on None _ _ _ _ _ demo_accuracy
              (demo_machine demo_trainer_accuracy) _ _ _ eq_refl Hrun)
    as (Hn & (before & Hcbs) & _ & Hhook & _).
  exists (fst (fst demo_run_accuracy)), (snd (fst demo_run_accuracy)), history, before.
  eexists _, log, _.
  split; [exact Hrun|]. split; [exact Hn|]. split; [exact Hcbs|].
  split; [exact Hat|]. split; [vm_compute; reflexivity|].
  exact (proj2 (Hhook _ _ _ _ _ Hat)).
Defined.

(** ** A hook that raises *)

(** Raises on BATCH_BEGIN of the batch with index 2. *)
Definition demo_failing_hook : Callback float nat :=
  fun data =>
    match data !! "batch_index" with
    | Some (VInt 2) => raise (UserError 7)
    | _ => ret data
    end.

Definition demo_trainer_failing : Trainer float nat unit :=
  set_hooks [(BATCH_BEGIN, demo_failing_hook)] demo_trainer.

Abbreviation demo_run_failing :=
  (demo_fit (ODataset demo_train) (OValue VNone) 32 2 (OValue VNone)
     (demo_machine demo_trainer_failing)).

(** C6. [fit] catches nothing: wherever a listener, a hook, the forward
    function, the loss function, the update strategy (or the converter or
    the dataset) raised, the run ended right there and [fit] raised that
    very exception.  So with a hook that raises on BATCH_BEGIN of batch 2,
    [fit] raises the hook's exception, the last event is that BATCH_BEGIN
    (no BATCH_END for batch 2, no further batch, no further epoch), and
    the two updates of batches 0 and 1 stay applied. *)
Theorem fit_exceptions_propagate :
  (forall (F : Type) (FO : FloatOps F) (U Optimizer : Type)
          finalize Dataset_new py_debug Reporter_on Reporter_initialize
          x y batch_size epochs validation_data
          (s s' : Machine F U Optimizer) t r pre a post e,
      fit finalize Dataset_new py_debug Reporter_on Reporter_initialize
        x y batch_size epochs validation_data s = (s', t, r) ->
      t = pre ++ a :: post -> raised a = Some e ->
      post = [] /\ r = Raise e) /\
  (snd demo_run_failing = Raise (UserError 7) /\
   events_of (snd (fst demo_run_failing))
     = [TRAIN_BEGIN; EPOCH_BEGIN; EPOCH_TRAIN_BEGIN;
        BATCH_BEGIN; BATCH_END; BATCH_BEGIN; BATCH_END; BATCH_BEGIN] /\
   user (world (fst (fst demo_run_failing))) = 2%nat).
Proof.
  split.
  - intros. by eapply fit_raise_last.
  - vm_compute. done.
Qed.

Lemma fit_exceptions_propagate_witness :
  exists s' t r pre,
    demo_run_failing = (s', t, r) /\
    t = pre ++ [ACbExn (UserError 7)] /\
    r = Raise (UserError 7).
Proof.
  assert (Hlast : last (snd (fst demo_run_failing)) = Some (ACbExn (UserError 7)))
    by (vm_compute; reflexivity).
  apply last_Some in Hlast as [pre Hpre].
  exists (fst (fst demo_run_failing)), (snd (fst demo_run_failing)),
    (snd demo_run_failing), pre.
  split; [apply run_eta|]. split; [exact Hpre|].
  exact (proj2 (proj1 fit_exceptions_propagate _ _ _ _ _ _ _ _ _ _ _ _ _ _ _ _ _ _
                  _ _ _ _ (run_eta demo_run_failing) Hpre eq_refl)).
Defined.

(** ** Runs at the edges *)

(** An empty dataset: no batch, and the division by the number of batches
    fails. *)
Lemma process_division_by_zero_witness :
  exists s' t r,
    demo_phase (demo_dataset 0 []) true = (s', t, r) /\
    (exists e, r = Raise e) /\
    EPOCH_TRAIN_END ∉ events_of t.
Proof.
  eexists _, _, _. split; [apply run_eta|].
  destruct (process_division_by_zero demo_forward (demo_dataset 0 []) demo_loss None
              32 demo_epoch_logs true _ _ _ _ eq_refl
              (run_eta (demo_phase (demo_dataset 0 []) true)))
    as (Hr & He & _).
  split; [exact Hr | exact He].
Defined.

(** A model that cannot be called. *)
Definition demo_trainer_invalid : Trainer float nat unit :=
  Trainer_init demo_update tt FInvalid demo_loss None.

Abbreviation demo_run_invalid :=
  (demo_fit (ODataset demo_train) (OValue VNone) 32 1 (OValue VNone)
     (demo_machine demo_trainer_invalid)).

Lemma fit_forward_not_callable_witness :
  exists s' t r,
    demo_run_invalid = (s', t, r) /\
    t = [] /\ r = Raise RuntimeError /\
    attached 1 (_listeners (self s')) = true.
Proof.
  eexists _, _, _. split; [apply run_eta|].
  destruct (fit_forward_not_callable (fun fr => fr) demo_Dataset_new true
              (fun _ => None) None (ODataset demo_train) (OValue VNone) 32 1
              (OValue VNone) demo_train None
              (demo_machine demo_trainer_invalid) _ _ _
              eq_refl eq_refl eq_refl (run_eta demo_run_invalid))
    as (Ht & Hatt & Hr & _).
  split; [exact Ht|]. split; [exact Hr | exact Hatt].
Defined.

Lemma fit_keeps_reporter_attached_witness :
  exists s' t history,
    demo_run_plain = (s', t, Ok history) /\
    length (_listeners (self s')) = 1%nat /\
    _hooks (self s') = [].
Proof.
  destruct (returns_inv demo_run_plain) as [history Hrun];
    [vm_compute; reflexivity|].
  eexists _, _, history. split; [exact Hrun|].
  destruct (fit_keeps_reporter_attached (fun fr => fr) demo_Dataset_new true
              (fun _ => None) None _ _ _ _ _ _ _ _ _ Hrun
              (fit_trace_not_nil (fun fr => fr) demo_Dataset_new true
                 (fun _ => None) None _ _ _ _ _ _ _ _ _ Hrun))
    as (_ & _ & _ & Hlen & Hhooks & _).
  split; [exact Hlen | exact Hhooks].
Defined.

(** A second call of [fit] on the trainer the first call left. *)
Abbreviation demo_run_accuracy_again :=
  (@fit float binary64 nat unit (fun fr => fr) demo_Dataset_new true
     demo_reporter_on None
     (ODataset (demo_dataset 64 [1; 2])) (OValue VNone) 32 1 (OValue VNone)
     (fst (fst demo_run_accuracy))).

Lemma fit_twice_reports_accuracy_twice_witness :
  exists before,
    callbacks_for
      (fit_setup demo_reporter_on None
         (fit_setup demo_reporter_on None demo_trainer_accuracy)) BATCH_END
    = before ++ [(ByHook 0, _report_accuracy demo_accuracy);
                 (ByHook 1, _report_accuracy demo_accuracy)].
Proof.
  destruct (returns_inv demo_run_accuracy) as [history Hrun];
    [vm_compute; reflexivity|].
  exact (proj2 (fit_twice_reports_accuracy_twice (fun fr => fr) demo_Dataset_new true
                  demo_reporter_on None _ _ _ _ _
                  (ODataset (demo_dataset 64 [1; 2])) (OValue VNone) 32 1 (OValue VNone)
                  demo_accuracy (demo_machine demo_trainer_accuracy) _ _ _ _ _ _
                  eq_refl Hrun (run_eta demo_run_accuracy_again))).
Defined.

(** Both hooks are called at every BATCH_END of the second call, after
    the two reporters. *)
Example demo_accuracy_reported_twice :
  callers (snd (fst demo_run_accuracy_again))
    = [ByListener 1; ByListener 2; ByHook 0; ByHook 1;
       ByListener 1; ByListener 2; ByHook 0; ByHook 1].
Proof. vm_compute. reflexivity. Qed.

Abbreviation demo_run_no_epochs :=
  (demo_fit (ODataset demo_train) (OValue VNone) 32 (-3) (OValue VNone)
     (demo_machine demo_trainer)).

Lemma fit_without_epochs_witness :
  exists s' t,
    demo_run_no_epochs = (s', t, Ok []) /\
    core t = [ANotify TRAIN_BEGIN ∅; ANotify TRAIN_END ∅].
Proof.
  pose proof (fit_without_epochs (fun fr => fr) demo_Dataset_new true
                (fun _ => None) None _ _ _ (-3) _ _ _ _ _ ltac:(lia)
                (run_eta demo_run_no_epochs)) as (_ & _ & Hret).
  assert (Hf : _forward (self (demo_machine demo_trainer)) <> FInvalid)
    by discriminate.
  destruct (Hret demo_train None _ tt eq_refl eq_refl eq_refl Hf)
    as [[Hr Hc] | (pre & e & Hpre & Hr)].
  - eexists _, _. split; [|exact Hc]. rewrite <- Hr. apply run_eta.
  - exfalso. revert Hr. vm_compute. discriminate.
Defined.

Lemma batch_records_witness :
  exists s' t out,
    demo_phase demo_train true = (s', t, Ok out) /\
    length (records_of BATCH_BEGIN t) = 4%nat /\
    omap (fun log => log !! "batch_index") (records_of BATCH_BEGIN t)
      = [VInt 0; VInt 1; VInt 2; VInt 3].
Proof.
  destruct (returns_inv (demo_phase demo_train true)) as [out Hrun];
    [vm_compute; reflexivity|].
  eexists _, _, out. split; [exact Hrun|].
  destruct (batch_records _ _ _ _ _ _ _ _ _ _ _ Hrun)
    as (batches & Hret & Hlen & _).
  split.
  - rewrite Hlen.
    assert (Hb : core (snd (fst (demo_phase demo_train true))) !! 2%nat
                 = Some (ARet (VSeq (map demo_batch [1; 2; 3; 4]))))
      by (vm_compute; reflexivity).
    rewrite Hb in Hret. injection Hret as <-. reflexivity.
  - vm_compute. reflexivity.
Defined.

Lemma fit_shuffles_training_only_witness :
  exists s' t history,
    demo_run_validated = (s', t, Ok history) /\
    batch_calls t = [(demo_train, 32, true); (demo_val, 32, false)].
Proof.
  destruct (returns_inv demo_run_validated) as [history Hrun];
    [vm_compute; reflexivity|].
  eexists _, _, history. split; [exact Hrun|].
  exact (fit_shuffles_training_only (fun fr => fr) demo_Dataset_new true
           (fun _ => None) None (ODataset demo_train) (OValue VNone) 32 1
           (ODataset demo_val) demo_train (Some demo_val) _ _ _ _
           eq_refl eq_refl Hrun).
Defined.

Lemma fit_epoch_records_witness :
  exists s' t history,
    demo_run_plain = (s', t, Ok history) /\
    records_of EPOCH_BEGIN t =
      [<["epoch" := VInt 1]> (<["size" := VInt 100]> ∅);
       <["epoch" := VInt 2]> (<["size" := VInt 100]> ∅)].
Proof.
  destruct (returns_inv demo_run_plain) as [history Hrun];
    [vm_compute; reflexivity|].
  eexists _, _, history. split; [exact Hrun|].
  exact (fit_epoch_records (fun fr => fr) demo_Dataset_new true
           (fun _ => None) None (ODataset demo_train) (OValue VNone) _ _ _
           demo_train _ _ _ _ eq_refl Hrun).
Defined.

Lemma fit_updates_once_per_training_batch_witness :
  exists s' t history,
    demo_run_validated = (s', t, Ok history) /\
    length (update_calls t) = 4%nat /\
    length (records_of BATCH_BEGIN t) = 6%nat.
Proof.
  destruct (returns_inv demo_run_validated) as [history Hrun];
    [vm_compute; reflexivity|].
  eexists _, _, history. split; [exact Hrun|].
  destruct (fit_updates_once_per_training_batch (fun fr => fr) demo_Dataset_new true
              (fun _ => None) None _ _ _ _ _ _ _ _ _ Hrun) as [Hlen _].
  rewrite Hlen. split; vm_compute; reflexivity.
Defined.

(** ** A configuration *)

(** An update strategy that counts double. *)
Definition demo_update_twice : unit -> demo_value -> SE demo_world unit :=
  fun _ _ w => ({| user := S (S (user w)); frames := frames w |}, Ok tt).

Definition demo_config : gmap string (ConfigValue float nat unit) :=
  <["update" := CfgUpdate demo_update]>
  (<["hooks" := CfgHooks [(BATCH_BEGIN, demo_failing_hook)]]> ∅).

Definition demo_kwargs : gmap string (ConfigValue float nat unit) :=
  <["update" := CfgUpdate demo_update_twice]>
  (<["converter" := CfgValue VNone]> ∅).

Definition demo_add_listener : ListenerArg float nat -> M float nat unit unit :=
  fun _ => mret tt.

Lemma configure_without_listeners_witness :
  exists tr',
    configure demo_add_listener demo_config demo_kwargs (demo_machine demo_trainer)
      = ({| world := world (demo_machine demo_trainer); self := tr' |}, [],
         Ok (demo_kwargs ∪ demo_config)) /\
    _hooks tr' = [(BATCH_BEGIN, demo_failing_hook)] /\
    (demo_kwargs ∪ demo_config) !! "update" = Some (CfgUpdate demo_update_twice).
Proof.
  destruct (configure_without_listeners demo_add_listener demo_config demo_kwargs
              [(BATCH_BEGIN, demo_failing_hook)] (demo_machine demo_trainer)
              eq_refl eq_refl)
    as (Hrun & Hkw & _).
  eexists. split; [exact Hrun|]. split; [reflexivity|].
  exact (Hkw "update" _ eq_refl).
Defined.

Definition demo_config_broken : gmap string (ConfigValue float nat unit) :=
  <["update" := CfgUpdate demo_update_twice]>
  (<["hooks" := CfgValue (VSeq [])]>
  (<["converter" := CfgConverter (fun v => ret v)]> ∅)).

Lemma configure_not_atomic_witness :
  configure demo_add_listener demo_config_broken ∅ (demo_machine demo_trainer)
    = ({| world := world (demo_machine demo_trainer);
          self := set_update demo_update_twice demo_trainer |}, [],
       Raise AttributeError).
Proof.
  exact (proj1 (configure_not_atomic demo_add_listener demo_config_broken ∅
                  (demo_machine demo_trainer))
           (CfgValue (VSeq [])) eq_refl ltac:(discriminate)).
Defined.

(** * teras.logging: a logger and its handlers *)

Module Logging.

(** A handler is an object: it is known by its identity. *)
Definition Handler : Type := nat.

(** What [Logger.finalize] touches of a logger. *)
Record Logger := {
  handlers : list Handler;
  disabled : bool
}.

(** [logging.Logger.removeHandler(hdlr)] of the standard library:
    [if hdlr in self.handlers: self.handlers.remove(hdlr)], which takes
    the first occurrence out of the list, in place. *)
Fixpoint removeHandler (hdlr : Handler) (hs : list Handler) : list Handler :=
  match hs with
  | [] => []
  | h :: hs' => if Nat.eqb h hdlr then hs' else h :: removeHandler hdlr hs'
  end.

(** [for hdlr in self.handlers: self.removeHandler(hdlr)] (lines 105-106).
    The iterator of a list holds the list and an index: each round yields
    the item the list has at the index then, and moves the index on by one;
    the loop ends when the index is past the end.  The list is the one the
    body shortens.  [fuel] bounds the rounds; [None] is out of fuel. *)
Fixpoint finalize_loop (fuel index : nat) (hs : list Handler) : option (list Handler) :=
  match fuel with
  | O => None
  | S fuel' =>
      match hs !! index with
      | None => Some hs
      | Some hdlr => finalize_loop fuel' (S index) (removeHandler hdlr hs)
      end
  end.

(** [Logger.finalize] *)
Definition finalize (fuel : nat) (lg : Logger) : option Logger :=
  match finalize_loop fuel 0 (handlers lg) with
  | Some hs => Some {| handlers := hs; disabled := true |}
  | None => None
  end.

(** Every second item of a list: those at the odd positions. *)
Fixpoint every_other {A} (l : list A) : list A :=
  match l with
  | _ :: x :: l' => x :: every_other l'
  | _ => []
  end.

Lemma removeHandler_middle kept hdlr rest :
  hdlr ∉ kept -> removeHandler hdlr (kept ++ hdlr :: rest) = kept ++ rest.
Proof.
  induction kept as [|h kept IH]; intros Hn; simpl.
  - by rewrite Nat.eqb_refl.
  - apply not_elem_of_cons in Hn as [Hne Hn].
    destruct (Nat.eqb h hdlr) eqn:Heq; [apply Nat.eqb_eq in Heq; congruence|].
    by rewrite IH.
Qed.

Lemma finalize_loop_run fuel :
  forall kept rest,
    NoDup (kept ++ rest) -> (length rest < fuel)%nat ->
    finalize_loop fuel (length kept) (kept ++ rest) = Some (kept ++ every_other rest).
Proof.
  induction fuel as [|fuel IH]; intros kept rest Hnd Hlen; [lia|].
  destruct rest as [|x rest]; simpl.
  { rewrite app_nil_r, lookup_ge_None_2 by lia. done. }
  rewrite list_lookup_middle by done.
  rewrite removeHandler_middle.
  2: { apply NoDup_app in Hnd as (_ & Hd & _). intros Hin.
       apply (Hd _ Hin). by left. }
  assert (Hnd' : NoDup (kept ++ rest)).
  { apply NoDup_app in Hnd as (Hk & Hd & Hr). apply NoDup_cons in Hr as [_ Hr].
    apply NoDup_app. split_and!; [done | | done].
    intros y Hy Hy'. apply (Hd _ Hy). by right. }
  destruct rest as [|y rest]; simpl in *.
  - destruct fuel as [|fuel]; [lia|]. simpl.
    rewrite app_nil_r, lookup_ge_None_2 by lia. done.
  - replace (kept ++ y :: rest) with ((kept ++ [y]) ++ rest) in * by (by rewrite <- app_assoc).
    replace (S (length kept)) with (length (kept ++ [y])) by (rewrite length_app; simpl; lia).
    rewrite IH; [|done|lia]. by rewrite <- app_assoc.
Qed.

Lemma length_every_other {A} (l : list A) : length (every_other l) = Nat.div2 (length l).
Proof.
  enough (H : length (every_other l) = Nat.div2 (length l) /\
              forall x, length (every_other (x :: l)) = Nat.div2 (S (length l)))
    by apply H.
  induction l as [|a l [IH1 IH2]]; [done|]. split; [apply IH2|].
  intros x. simpl in *. by rewrite IH1.
Qed.

(** X11. [Logger.finalize] removes handlers from the list it is iterating
    over, so it removes only every other one: for a logger with distinct
    handlers [h0, h1, h2, h3, ...] the handlers [h1, h3, ...] are still
    attached when it returns (half of them, rounded down), and the logger
    is disabled.  A logger with the two handlers [AppLogger.initialize]
    installs keeps the second, the stream handler. *)
Theorem finalize_removes_every_other_handler (lg : Logger) (fuel : nat) :
  NoDup (handlers lg) -> (length (handlers lg) < fuel)%nat ->
  finalize fuel lg =
    Some {| handlers := every_other (handlers lg); disabled := true |} /\
  length (every_other (handlers lg)) = Nat.div2 (length (handlers lg)) /\
  (forall file_handler stream_handler,
      handlers lg = [file_handler; stream_handler] ->
      finalize fuel lg = Some {| handlers := [stream_handler]; disabled := true |}).
Proof.
  intros Hnd Hlen.
  assert (Hrun : finalize fuel lg =
                 Some {| handlers := every_other (handlers lg); disabled := true |}).
  { unfold finalize.
    pose proof (finalize_loop_run fuel [] (handlers lg) Hnd Hlen) as Hl.
    simpl in Hl. by rewrite Hl. }
  split_and!; [done | apply length_every_other |].
  intros fh sh Hhs. rewrite Hrun, Hhs. done.
Qed.

Lemma finalize_removes_every_other_handler_witness :
  finalize 5 {| handlers := [0; 1; 2; 3]%nat; disabled := false |}
    = Some {| handlers := [1; 3]%nat; disabled := true |}.
Proof.
  apply (finalize_removes_every_other_handler
           {| handlers := [0; 1; 2; 3]%nat; disabled := false |} 5).
  - simpl. apply (bool_decide_unpack _). vm_compute. reflexivity.
  - simpl. lia.
Defined.

End Logging.

(** * teras.app: the application runner *)

Module App.

Import Stdlib.Strings.Ascii.

(** ** The log options of [App._preprocess] *)

(** What [logger_config] holds under a key. *)
Inductive ConfigItem :=
| CNone
| CStr (s : string)
| CBool (b : bool)
| CInt (n : Z).

Section Logoption.

(** [os.uname()[1]]: the name of the host. *)
Variable nodename : string.

(** Lines 171-183: the body of the loop over the characters of
    [logoption]. *)
Definition logoption_char (logger_config : gmap string ConfigItem) (char : ascii)
    : Res (gmap string ConfigItem) :=
  if Ascii.eqb char "a" then Ok (<["filemode" := CStr "a"]> logger_config)
  else if Ascii.eqb char "d" then Ok (<["filelog" := CBool false]> logger_config)
  else if Ascii.eqb char "h" then
    Ok (<["filesuffix" := CStr ("-" +:+ nodename)]> logger_config)
  else if Ascii.eqb char "n" then Ok (<["filemode" := CStr "n"]> logger_config)
  else if Ascii.eqb char "w" then Ok (<["filemode" := CStr "w"]> logger_config)
  else Raise ValueError.

(** [for char in self._config['logoption']] (line 170) *)
Fixpoint logoption_loop (logoption : string) (logger_config : gmap string ConfigItem)
    : Res (gmap string ConfigItem) :=
  match logoption with
  | EmptyString => Ok logger_config
  | String char rest =>
      match logoption_char logger_config char with
      | Ok logger_config' => logoption_loop rest logger_config'
      | Raise e => Raise e
      end
  end.

(** The options the help text lists: [{a,d,h,n,w}]. *)
Definition is_logoption (char : ascii) : bool :=
  bool_decide (char ∈ ["a"; "d"; "h"; "n"; "w"]%char).

(** The options that set the file mode. *)
Definition is_filemode (char : ascii) : bool :=
  bool_decide (char ∈ ["a"; "n"; "w"]%char).

Lemma logoption_char_ok logger_config char :
  is_logoption char = true ->
  exists logger_config', logoption_char logger_config char = Ok logger_config'.
Proof.
  unfold is_logoption. intros H%bool_decide_eq_true.
  repeat (apply elem_of_cons in H as [->|H]; [by eexists|]).
  by apply elem_of_nil in H.
Qed.

Lemma logoption_char_raise logger_config char :
  is_logoption char = false -> logoption_char logger_config char = Raise ValueError.
Proof.
  unfold is_logoption, logoption_char. intros H%bool_decide_eq_false.
  repeat match goal with
         | |- context [Ascii.eqb char ?c] =>
             destruct (Ascii.eqb_spec char c) as [->|?];
             [exfalso; apply H; repeat constructor|]
         end.
  done.
Qed.

Lemma logoption_char_other_keys logger_config char logger_config' key :
  logoption_char logger_config char = Ok logger_config' ->
  key <> "filemode" -> key <> "filelog" -> key <> "filesuffix" ->
  logger_config' !! key = logger_config !! key.
Proof.
  unfold logoption_char. intros H ? ? ?.
  repeat match type of H with
         | context [Ascii.eqb char ?c] =>
             destruct (Ascii.eqb_spec char c) as [->|?]; [injection H as <-|]
         end; [..|done]; by simplify_map_eq.
Qed.

Lemma logoption_loop_accepts logoption logger_config :
  forallb is_logoption (String.list_ascii_of_string logoption) = true ->
  exists logger_config',
    logoption_loop logoption logger_config = Ok logger_config' /\
    forall key, key <> "filemode" -> key <> "filelog" -> key <> "filesuffix" ->
                logger_config' !! key = logger_config !! key.
Proof.
  revert logger_config.
  induction logoption as [|c rest IH]; intros cfg H; simpl in *; [by exists cfg|].
  apply andb_prop in H as [Hc Hrest].
  destruct (logoption_char_ok cfg c Hc) as [cfg1 Hcfg1]. rewrite Hcfg1.
  destruct (IH cfg1 Hrest) as (cfg' & -> & Hkeys). exists cfg'. split; [done|].
  intros key ? ? ?. rewrite Hkeys by done. by eapply logoption_char_other_keys.
Qed.

Lemma logoption_loop_rejects logoption logger_config :
  forallb is_logoption (String.list_ascii_of_string logoption) = false ->
  logoption_loop logoption logger_config = Raise ValueError.
Proof.
  revert logger_config.
  induction logoption as [|c rest IH]; intros cfg H; simpl in *; [done|].
  destruct (is_logoption c) eqn:Hc; simpl in H.
  - destruct (logoption_char_ok cfg c Hc) as [cfg1 ->]. by apply IH.
  - by rewrite (logoption_char_raise cfg c Hc).
Qed.

(** X12. The log option is checked character by character (lines 170-183):
    the loop returns exactly when every character is one of [a], [d],
    [h], [n], [w]; otherwise it raises ValueError, at the first character
    that is none of them (the options before it have been taken, the ones
    after it are not looked at).  The empty option is accepted, and so is
    any repetition of options. *)
Theorem logoption_checked logoption logger_config :
  match logoption_loop logoption logger_config with
  | Ok _ => forallb is_logoption (String.list_ascii_of_string logoption) = true
  | Raise e =>
      e = ValueError /\
      exists before char after,
        logoption = before +:+ String char after /\
        forallb is_logoption (String.list_ascii_of_string before) = true /\
        is_logoption char = false
  end.
Proof.
  revert logger_config. induction logoption as [|c rest IH]; intros cfg; simpl; [done|].
  destruct (is_logoption c) eqn:Hc.
  - destruct (logoption_char_ok cfg c Hc) as [cfg' ->].
    specialize (IH cfg'). destruct (logoption_loop rest cfg') as [r|e]; [done|].
    destruct IH as (-> & before & char & after & -> & Hb & Hch).
    split; [done|]. exists (String c before), char, after. simpl. by rewrite Hc.
  - rewrite (logoption_char_raise cfg c Hc). split; [done|].
    by exists EmptyString, c, rest.
Qed.

Lemma last_cons_filter {A} (P : A -> bool) (x : A) (l : list A) :
  last (List.filter P (x :: l)) =
  match last (List.filter P l) with
  | Some y => Some y
  | None => if P x then Some x else None
  end.
Proof.
  simpl. destruct (P x); [|by destruct (last _)].
  destruct (List.filter P l) as [|y l'] eqn:Hl; [done|].
  rewrite last_cons. by destruct (last (y :: l')).
Qed.

Lemma bool_decide_elem_cons (x c : ascii) (l : list ascii) :
  bool_decide (x ∈ c :: l) = Ascii.eqb x c || bool_decide (x ∈ l).
Proof.
  destruct (Ascii.eqb_spec x c) as [->|Hne]; simpl.
  - apply bool_decide_eq_true. by left.
  - apply bool_decide_ext. rewrite elem_of_cons. tauto.
Qed.

(** X13. What the log option leaves in [logger_config] when it is accepted:
    the file mode is the last of the options [a], [n], [w] given (a later
    one overrides an earlier one; with none of them the entry is as it
    was); [d] sets [filelog] to False and [h] sets [filesuffix] to a dash
    and the host name, however often and wherever in the option they
    occur; no other key of the configuration is touched. *)
Theorem logoption_result logoption logger_config logger_config' :
  logoption_loop logoption logger_config = Ok logger_config' ->
  let chars := String.list_ascii_of_string logoption in
  logger_config' !! "filemode" =
    match last (List.filter is_filemode chars) with
    | Some char => Some (CStr (String char EmptyString))
    | None => logger_config !! "filemode"
    end /\
  logger_config' !! "filelog" =
    (if bool_decide ("d"%char ∈ chars) then Some (CBool false)
     else logger_config !! "filelog") /\
  logger_config' !! "filesuffix" =
    (if bool_decide ("h"%char ∈ chars) then Some (CStr ("-" +:+ nodename))
     else logger_config !! "filesuffix") /\
  (forall key, key <> "filemode" -> key <> "filelog" -> key <> "filesuffix" ->
               logger_config' !! key = logger_config !! key).
Proof.
  revert logger_config. induction logoption as [|c rest IH]; intros cfg H; simpl in H.
  { injection H as <-. done. }
  destruct (logoption_char cfg c) as [cfg1|e] eqn:Hc; [|done].
  specialize (IH _ H). cbv zeta in IH. destruct IH as (Hm & Hl & Hs & Hk).
  cbv zeta. change (String.list_ascii_of_string (String c rest))
    with (c :: String.list_ascii_of_string rest).
  rewrite last_cons_filter, Hm, Hl, Hs.
  unfold logoption_char in Hc.
  repeat match type of Hc with
         | context [Ascii.eqb c ?c0] =>
             destruct (Ascii.eqb_spec c c0) as [->|?]; [injection Hc as <-|]
         end; [..|done];
    rewrite !bool_decide_elem_cons; simpl;
    (split_and!;
     [ destruct (last _); simpl; by simplify_map_eq
     | repeat case_bool_decide; by simplify_map_eq
     | repeat case_bool_decide; by simplify_map_eq
     | intros key ? ? ?; rewrite Hk by done; by simplify_map_eq ]).
Qed.

End Logoption.

(** ** [App._preprocess] *)


(** The levels of [teras.logging] (lines 12-20 of logging/__init__.py). *)
Definition CRITICAL : Z := 50.
Definition ERROR : Z := 40.
Definition WARNING : Z := 30.
Definition INFO : Z := 20.
Definition DEBUG : Z := 10.
Definition TRACE : Z := 5.
Definition NOTSET : Z := 0.

(** [logging.<name>] for a level: the module defines the names of lines
    12-20 and takes over the names the standard library exports (lines
    239-241); neither has a [DISABLE]. *)
Definition logging_level (name : string) : Res Z :=
  if decide (name = "CRITICAL") then Ok CRITICAL
  else if decide (name = "FATAL") then Ok CRITICAL
  else if decide (name = "ERROR") then Ok ERROR
  else if decide (name = "WARNING") then Ok WARNING
  else if decide (name = "WARN") then Ok WARNING
  else if decide (name = "INFO") then Ok INFO
  else if decide (name = "DEBUG") then Ok DEBUG
  else if decide (name = "TRACE") then Ok TRACE
  else if decide (name = "NOTSET") then Ok NOTSET
  else Raise AttributeError.

(** [bool(v)] *)
Definition truthy (v : ConfigItem) : bool :=
  match v with
  | CNone => false
  | CStr s => negb (bool_decide (s = EmptyString))
  | CBool b => b
  | CInt n => negb (n =? 0)
  end.

(** [v < n] and [v > n] for an int [n] *)
Definition py_lt (v : ConfigItem) (n : Z) : Res bool :=
  match v with
  | CInt m => Ok (m <? n)
  | CBool b => Ok ((if b then 1 else 0) <? n)
  | CNone | CStr _ => Raise TypeError
  end.

Definition py_gt (v : ConfigItem) (n : Z) : Res bool :=
  match v with
  | CInt m => Ok (m >? n)
  | CBool b => Ok ((if b then 1 else 0) >? n)
  | CNone | CStr _ => Raise TypeError
  end.

(** [for char in v]: the characters of a string; nothing else among the
    values is iterable. *)
Definition py_chars (v : ConfigItem) : Res string :=
  match v with
  | CStr s => Ok s
  | CNone | CBool _ | CInt _ => Raise TypeError
  end.

(** [self._config]: the arguments [App.configure] declares (lines
    125-144).  A value comes from the command line, from a configuration
    file or from the default the application gave as a keyword
    ([kwargs.get('logdir', default_logdir)] and the like), so it need not
    have the type the parser declares: the log directory may well be
    None. *)
Record Config := {
  debug : ConfigItem;       (* --debug, store_true *)
  logdir : ConfigItem;      (* --logdir, str *)
  logoption : ConfigItem;   (* --logoption, str *)
  loglevel : ConfigItem;
  quiet : ConfigItem        (* --quiet, store_true *)
}.

(** Lines 160-163: the level in debug mode.  The right operand of the
    first comparison is looked up before anything is compared. *)
Definition debug_loglevel (config : Config) : Res ConfigItem :=
  if truthy (debug config) then
    match logging_level "DISABLE" with
    | Ok disable =>
        match py_lt (loglevel config) disable with
        | Ok true =>
            match logging_level "DEBUG" with
            | Ok dbg =>
                match py_gt (loglevel config) dbg with
                | Ok true =>
                    match logging_level "DEBUG" with
                    | Ok d => Ok (CInt d)
                    | Raise e => Raise e
                    end
                | Ok false => Ok (loglevel config)
                | Raise e => Raise e
                end
            | Raise e => Raise e
            end
        | Ok false => Ok (loglevel config)
        | Raise e => Raise e
        end
    | Raise e => Raise e
    end
  else Ok (loglevel config).

(** Lines 165-169: the configuration of the logger before the options. *)
Definition new_logger_config (config : Config) (level : ConfigItem)
    : Res (gmap string ConfigItem) :=
  match (if negb (truthy (quiet config)) then logging_level "TRACE"
         else logging_level "DISABLE") with
  | Ok verbosity =>
      Ok (<["logdir" := logdir config]>
          (<["level" := level]>
          (<["verbosity" := CInt verbosity]> ∅)))
  | Raise e => Raise e
  end.

(** [AppLogger.FORMAT] and [DATE_FORMAT] (lines 130 and 134 of
    logging/__init__.py). *)
Definition TAB : string := String (ascii_of_nat 9) EmptyString.

Definition FORMAT : string :=
  "%(asctime)-15s" +:+ TAB +:+ "%(accessid)s" +:+ TAB +:+ "[%(levelname)s]"
    +:+ TAB +:+ "%(message)s".

Definition DATE_FORMAT : string := "%Y-%m-%d %H:%M:%S.%f %Z".

(** [AppLogger._config] as the class body defines it (lines 135-142 of
    logging/__init__.py). *)
Definition AppLogger_config : gmap string ConfigItem :=
  <["level" := CInt INFO]>
  (<["verbosity" := CInt TRACE]>
  (<["logdir" := CNone]>
  (<["filename" := CStr "%Y%m%d.log"]>
  (<["fmt" := CStr FORMAT]>
  (<["datefmt" := CStr DATE_FORMAT]> ∅))))).

Section Preprocess.

(** The rest of the process: files, handlers, the root logger,
    [sys.stdout]. *)
Context {St : Type}.

(** What [_preprocess] works on.  [AppLogger._config] is a dict of the
    class: one object, shared by every logger and by every call, updated
    in place. *)
Record State := {
  class_config : gmap string ConfigItem;    (* AppLogger._config *)
  process : St
}.

(** [os.uname()[1]] *)
Variable nodename : string.

(** Lines 166-179 of logging/__init__.py, for a logger without handlers:
    the log file is opened under the given directory prefix, the two
    handlers are added and the first message is logged. *)
Variable open_log : string -> SE State unit.

(** Lines 186-193 of app/__init__.py: the logger becomes the root logger,
    the output is silenced when not verbose, and the start is logged. *)
Variable start_logging : bool -> SE State unit.

(** [AppLogger.configure], called with keywords (lines 144-146 of
    logging/__init__.py): [cls._config.update(kwargs)]. *)
Definition AppLogger_configure (kwargs : gmap string ConfigItem) : SE State unit :=
  fun s => ({| class_config := kwargs ∪ class_config s; process := process s |}, Ok tt).

(** [AppLogger(name)]: [Logger.__init__] (lines 82-87) adds no handler and
    calls [initialize], which is [AppLogger.initialize] (lines 148-179).
    It reads the dict of the class.  The access time is formatted with
    [config['datefmt']]; then, there being no handler yet, the log
    directory is looked at, and when it is true line 160 calls
    [os.path.expanduser] without its argument. *)
Definition AppLogger_new : SE State unit :=
  fun s =>
    let config := class_config s in
    match config !! "datefmt" with
    | Some (CStr _) =>
        match config !! "logdir" with
        | Some dir =>
            if truthy dir then (s, Raise TypeError)
            else open_log EmptyString s
        | None => (s, Raise KeyError)
        end
    | Some _ => (s, Raise TypeError)
    | None => (s, Raise KeyError)
    end.

(** [App._preprocess] *)
Definition _preprocess (config : Config) : SE State unit :=
  let verbose := negb (truthy (quiet config)) in
  level <~ of_res (debug_loglevel config) ;;
  logger_config <~ of_res (new_logger_config config level) ;;
  chars <~ of_res (py_chars (logoption config)) ;;
  logger_config <~ of_res (logoption_loop nodename chars logger_config) ;;
  _ <~ AppLogger_configure logger_config ;;       (* line 184 *)
  _ <~ AppLogger_new ;;                           (* line 185 *)
  start_logging verbose.

(** The state once line 184 has run. *)
Definition configured_state (logger_config : gmap string ConfigItem) (s : State)
    : State :=
  {| class_config := logger_config ∪ class_config s; process := process s |}.

(** X14. [App._preprocess] can only return when the application runs
    with a false [debug], a false [quiet], a log option that is a string
    of the letters [a], [d], [h], [n], [w], and a log directory that is
    false (None or empty).  Otherwise it raises.  In debug mode and in
    quiet mode it raises AttributeError (lines 161 and 168 read
    [logging.DISABLE], which is not defined), else TypeError for a log
    option that is not a string, else ValueError for another letter in the
    log option; in these cases nothing has changed.  Else, for a log
    directory that is true, it raises when the logger is made (line 160 of
    logging/__init__.py calls [os.path.expanduser] without argument:
    TypeError); by then line 184 has updated the dict of the class
    [AppLogger._config], which stays updated: it holds the log directory,
    the level and the verbosity of this call. *)
Theorem preprocess_needs_empty_logdir config s :
  let accepted o :=
    forallb is_logoption (String.list_ascii_of_string o) in
  (forall s' u,
      _preprocess config s = (s', Ok u) ->
      truthy (debug config) = false /\ truthy (quiet config) = false /\
      (exists o, logoption config = CStr o /\ accepted o = true) /\
      truthy (logdir config) = false) /\
  (truthy (debug config) = true ->
   _preprocess config s = (s, Raise AttributeError)) /\
  (truthy (debug config) = false -> truthy (quiet config) = true ->
   _preprocess config s = (s, Raise AttributeError)) /\
  (truthy (debug config) = false -> truthy (quiet config) = false ->
   (forall o, logoption config <> CStr o) ->
   _preprocess config s = (s, Raise TypeError)) /\
  (truthy (debug config) = false -> truthy (quiet config) = false ->
   forall o, logoption config = CStr o -> accepted o = false ->
   _preprocess config s = (s, Raise ValueError)) /\
  (truthy (debug config) = false -> truthy (quiet config) = false ->
   forall o, logoption config = CStr o -> accepted o = true ->
   truthy (logdir config) = true ->
   exists logger_config e,
     _preprocess config s = (configured_state logger_config s, Raise e) /\
     logger_config !! "logdir" = Some (logdir config) /\
     logger_config !! "level" = Some (loglevel config) /\
     logger_config !! "verbosity" = Some (CInt TRACE) /\
     class_config (configured_state logger_config s) !! "logdir"
       = Some (logdir config) /\
     (forall fmt, class_config s !! "datefmt" = Some (CStr fmt) -> e = TypeError)).
Proof.
  intros accepted.
  assert (Hd : truthy (debug config) = true ->
               _preprocess config s = (s, Raise AttributeError)).
  { intros H. unfold _preprocess, debug_loglevel, bind, of_res. by rewrite H. }
  assert (Hq : truthy (debug config) = false -> truthy (quiet config) = true ->
               _preprocess config s = (s, Raise AttributeError)).
  { intros H1 H2.
    unfold _preprocess, debug_loglevel, new_logger_config, bind, of_res.
    by rewrite H1, H2. }
  assert (Hn : truthy (debug config) = false -> truthy (quiet config) = false ->
               (forall o, logoption config <> CStr o) ->
               _preprocess config s = (s, Raise TypeError)).
  { intros H1 H2 H3.
    unfold _preprocess, debug_loglevel, new_logger_config, bind, of_res.
    rewrite H1, H2. simpl.
    destruct (logoption config) as [|o| |]; try done. by destruct (H3 o). }
  assert (Ho : truthy (debug config) = false -> truthy (quiet config) = false ->
               forall o, logoption config = CStr o -> accepted o = false ->
               _preprocess config s = (s, Raise ValueError)).
  { intros H1 H2 o H3 H4.
    unfold _preprocess, debug_loglevel, new_logger_config, bind, of_res.
    rewrite H1, H2, H3. simpl. by rewrite (logoption_loop_rejects nodename _ _ H4). }
  assert (Ht : truthy (debug config) = false -> truthy (quiet config) = false ->
               forall o, logoption config = CStr o -> accepted o = true ->
               truthy (logdir config) = true ->
               exists logger_config e,
                 _preprocess config s = (configured_state logger_config s, Raise e) /\
                 logger_config !! "logdir" = Some (logdir config) /\
                 logger_config !! "level" = Some (loglevel config) /\
                 logger_config !! "verbosity" = Some (CInt TRACE) /\
                 class_config (configured_state logger_config s) !! "logdir"
                   = Some (logdir config) /\
                 (forall fmt, class_config s !! "datefmt" = Some (CStr fmt) ->
                              e = TypeError)).
  { intros H1 H2 o H3 H4 H5.
    unfold _preprocess, debug_loglevel, new_logger_config, bind, of_res.
    rewrite H1, H2, H3. simpl.
    match goal with
    | |- context [logoption_loop nodename _ ?c] =>
        destruct (logoption_loop_accepts nodename _ c H4) as (cfg1 & -> & Hkeys)
    end.
    assert (Hdir : cfg1 !! "logdir" = Some (logdir config))
      by (rewrite Hkeys by done; by simplify_map_eq).
    assert (Hlev : cfg1 !! "level" = Some (loglevel config))
      by (rewrite Hkeys by done; by simplify_map_eq).
    assert (Hver : cfg1 !! "verbosity" = Some (CInt TRACE))
      by (rewrite Hkeys by done; by simplify_map_eq).
    assert (Hfmt : cfg1 !! "datefmt" = None)
      by (rewrite Hkeys by done; by simplify_map_eq).
    assert (Hcdir : (cfg1 ∪ class_config s) !! "logdir" = Some (logdir config))
      by (by apply lookup_union_Some_l).
    unfold AppLogger_configure, AppLogger_new. simpl.
    rewrite (lookup_union_r _ _ "datefmt") by done. rewrite Hcdir, H5.
    destruct (class_config s !! "datefmt") as [[|fmt| |]|] eqn:Hdf;
      eexists cfg1, _; (split; [reflexivity|]); split_and!; try done;
      intros fmt'; congruence. }
  split_and!; try done.
  intros s' u H.
  destruct (truthy (debug config)) eqn:H1; [rewrite Hd in H by done; done|].
  destruct (truthy (quiet config)) eqn:H2; [rewrite Hq in H by done; done|].
  destruct (logoption config) as [|o| |] eqn:H3;
    try (rewrite Hn in H by (by rewrite ?H3); done).
  destruct (accepted o) eqn:H4; [|rewrite (Ho eq_refl eq_refl o) in H by done; done].
  destruct (truthy (logdir config)) eqn:H5.
  - destruct (Ht eq_refl eq_refl o eq_refl H4 eq_refl) as (cfg & e & He & _).
    rewrite He in H. done.
  - split_and!; try done. by exists o.
Qed.

End Preprocess.

(** ** [AppBase.run] *)

(** The argument of [SystemExit]: a status or a message. *)
Inductive ExitArg :=
| ExitStatus (status : Z)
| ExitMessage (message : string).

(** What can be raised while an application runs: an [Exception], a
    [SystemExit], or another [BaseException] (as KeyboardInterrupt). *)
Inductive BaseException :=
| Exception (e : exn)
| SystemExit (arg : ExitArg)
| OtherBaseException.

Inductive Outcome :=
| Returned
| Raised (e : BaseException).

(** The calls [run] makes, in the order of lines 41-66. *)
Inductive Call :=
| Cconfigure                  (* cls.configure() *)
| C_parse_args                (* cls._parse_args(command) *)
| Csignal_SIGINT              (* signal.signal(signal.SIGINT, handler) *)
| Csignal_SIGTERM             (* signal.signal(signal.SIGTERM, handler) *)
| Cumask                      (* os.umask(0) *)
| C_get_instance              (* cls._get_instance() *)
| C_initialize                (* self._initialize(command, command_args, common_args) *)
| C_preprocess                (* self._preprocess() *)
| C_process                   (* self._process() *)
| C_postprocess               (* self._postprocess() *)
| C_finalize                  (* self._finalize() *)
| Clogging_e                  (* logging.e(...) *)
| Clogging_w                  (* logging.w(e) *)
| Clogger_finalize.           (* logging.getLogger().finalize() *)

Global Instance Call_eq_dec : EqDecision Call.
Proof. solve_decision. Defined.

Section Run.

(** The state of the process, and what each call does to it; the methods
    are those of the class [run] is called on. *)
Context {St : Type}.
Variable call : Call -> St -> St * Outcome.

(** A computation: the new state, the calls made with their outcomes, and
    the outcome. *)
Definition Proc : Type := St -> St * list (Call * Outcome) * Outcome.

Definition do (c : Call) : Proc :=
  fun s => match call c s with
           | (s', r) => (s', [(c, r)], r)
           end.

(** [p; q] *)
Definition sequence (p q : Proc) : Proc :=
  fun s => match p s with
           | (s1, t1, Returned) =>
               match q s1 with
               | (s2, t2, r) => (s2, t1 ++ t2, r)
               end
           | (s1, t1, Raised e) => (s1, t1, Raised e)
           end.

(** [sys.exit(0)] *)
Definition sys_exit (status : Z) : Proc :=
  fun s => (s, [], Raised (SystemExit (ExitStatus status))).

(** [try: body except Exception: on_exception except SystemExit: on_exit]:
    an exception of the body that matches a clause is handled by it, and
    the statement ends as the handler ends; any other goes on. *)
Definition try_except (body on_exception on_exit : Proc) : Proc :=
  fun s => match body s with
           | (s1, t1, Raised (Exception _)) =>
               match on_exception s1 with
               | (s2, t2, r) => (s2, t1 ++ t2, r)
               end
           | (s1, t1, Raised (SystemExit _)) =>
               match on_exit s1 with
               | (s2, t2, r) => (s2, t1 ++ t2, r)
               end
           | other => other
           end.

(** [try: body finally: final]: [final] runs however [body] ended; if it
    returns, the statement ends as [body] did, and if it raises, that
    exception replaces whatever [body] ended with. *)
Definition try_finally (body final : Proc) : Proc :=
  fun s => match body s with
           | (s1, t1, r1) =>
               match final s1 with
               | (s2, t2, Returned) => (s2, t1 ++ t2, r1)
               | (s2, t2, Raised e) => (s2, t1 ++ t2, Raised e)
               end
           end.

Fixpoint sequence_all (ps : list Proc) : Proc :=
  match ps with
  | [] => fun s => (s, [], Returned)
  | p :: ps' => sequence p (sequence_all ps')
  end.

(** The calls of the [try] block, lines 49-58. *)
Definition body_calls : list Call :=
  [Csignal_SIGINT; Csignal_SIGTERM; Cumask; C_get_instance; C_initialize;
   C_preprocess; C_process; C_postprocess; C_finalize].

(** [AppBase.run] *)
Definition run : Proc :=
  sequence (do Cconfigure)
    (sequence (do C_parse_args)
       (try_finally
          (try_except (sequence_all (map do body_calls)) (do Clogging_e) (do Clogging_w))
          (sequence (do Clogger_finalize) (sys_exit 0)))).

Lemma do_inv c s s' t r :
  do c s = (s', t, r) -> t = [(c, r)].
Proof. unfold do. destruct (call c s). by intros [= <- <- <-]. Qed.

Lemma sequence_inv p q s s' t r :
  sequence p q s = (s', t, r) ->
  (exists s1 t1 t2, p s = (s1, t1, Returned) /\ q s1 = (s', t2, r) /\ t = t1 ++ t2) \/
  (exists e, p s = (s', t, Raised e) /\ r = Raised e).
Proof.
  unfold sequence. destruct (p s) as [[s1 t1] [|e]].
  - destruct (q s1) as [[s2 t2] r2] eqn:Hq. intros [= <- <- <-].
    left. by exists s1, t1, t2.
  - intros [= <- <- <-]. right. by exists e.
Qed.

(** The calls of a sequence are made in order up to the first that raises. *)
Lemma calls_in_order cs s s' t r :
  sequence_all (map do cs) s = (s', t, r) ->
  map fst t `prefix_of` cs /\
  match r with
  | Returned => map fst t = cs /\ Forall (fun cr => snd cr = Returned) t
  | Raised e =>
      exists pre c, t = pre ++ [(c, Raised e)] /\
                    Forall (fun cr => snd cr = Returned) pre
  end.
Proof.
  revert s t. induction cs as [|c cs IH]; intros s t H; simpl in H.
  - by injection H as <- <- <-.
  - apply sequence_inv in H as [(s1 & t1 & t2 & Hc & Hrest & ->) | (e & Hc & ->)].
    + apply do_inv in Hc as ->. apply IH in Hrest as (Hpre & Hr). split.
      * simpl. by apply prefix_cons.
      * destruct r as [|e].
        -- destruct Hr as [Hmap Hall]. simpl. rewrite Hmap. split; [done|].
           by constructor.
        -- destruct Hr as (pre & c' & -> & Hall).
           exists ((c, Returned) :: pre), c'. split; [done|]. by constructor.
    + apply do_inv in Hc as ->. split.
      * simpl. apply prefix_cons, prefix_nil.
      * by exists [], c.
Qed.

(** What was logged for the way the [try] block ended: an [Exception] as
    an error, a [SystemExit] as a warning, anything else not at all. *)
Definition handler_call (r : Outcome) : option Call :=
  match r with
  | Raised (Exception _) => Some Clogging_e
  | Raised (SystemExit _) => Some Clogging_w
  | _ => None
  end.

(** X15. [AppBase.run] ends in [sys.exit(0)], in a [finally] block (lines
    64-66), so it never returns.  [configure] and [_parse_args] are called
    before the [try]: what they raise goes to the caller.  Once they have
    returned, the steps of the application are called in order up to the
    first that raises, the later ones being skipped; an [Exception] is
    logged as an error and a [SystemExit] (a signal, or [sys.exit] with any
    status) as a warning; then the root logger is finalized, whatever
    happened; and if that returns, the process exits with status 0, also
    when a step failed or logging the failure failed. *)
Theorem run_exits_with_status_0 s s' t r :
  run s = (s', t, r) ->
  r <> Returned /\
  match t with
  | (Cconfigure, Returned) :: (C_parse_args, Returned) :: t' =>
      exists body rb handler r0,
        t' = body ++ handler ++ [(Clogger_finalize, r0)] /\
        map fst body `prefix_of` body_calls /\
        match rb with
        | Returned => map fst body = body_calls /\
                      Forall (fun cr => snd cr = Returned) body
        | Raised e => exists pre c, body = pre ++ [(c, Raised e)] /\
                                    Forall (fun cr => snd cr = Returned) pre
        end /\
        map fst handler = option_list (handler_call rb) /\
        match r0 with
        | Returned => r = Raised (SystemExit (ExitStatus 0))
        | Raised e => r = Raised e
        end
  | _ =>
      exists e, r = Raised e /\
                (t = [(Cconfigure, Raised e)] \/
                 t = [(Cconfigure, Returned); (C_parse_args, Raised e)])
  end.
Proof.
  unfold run. intros H.
  apply sequence_inv in H as [(s1 & t1 & t2 & Hc & H & ->) | (e & Hc & ->)].
  2: { apply do_inv in Hc as ->. split; [done|]. exists e. auto. }
  apply do_inv in Hc as ->.
  apply sequence_inv in H as [(s2 & t1 & t3 & Hp & H & ->) | (e & Hp & ->)].
  2: { apply do_inv in Hp as ->. split; [done|]. exists e. auto. }
  apply do_inv in Hp as ->. simpl.
  unfold try_finally in H.
  destruct (try_except _ _ _ s2) as [[s3 tt] rt] eqn:Htry.
  destruct (sequence (do Clogger_finalize) (sys_exit 0) s3) as [[s4 tf] rf] eqn:Hfin.
  assert (Hf : exists r0, tf = [(Clogger_finalize, r0)] /\
                 match r0 with
                 | Returned => rf = Raised (SystemExit (ExitStatus 0))
                 | Raised e => rf = Raised e
                 end).
  { apply sequence_inv in Hfin as [(s5 & t5 & t6 & Hd & Hx & ->) | (e & Hd & ->)].
    - apply do_inv in Hd as ->. injection Hx as <- <- <-. by exists Returned.
    - apply do_inv in Hd as ->. by exists (Raised e). }
  destruct Hf as (r0 & -> & Hr0).
  assert (Hr : r = rf /\ t3 = tt ++ [(Clogger_finalize, r0)]).
  { destruct rf; [by destruct r0|]. by injection H as <- <- <-. }
  destruct Hr as [-> ->]. clear H.
  split; [by destruct r0; subst rf|].
  unfold try_except in Htry.
  destruct (sequence_all (map do body_calls) s2) as [[sb tb] rb] eqn:Hb.
  apply calls_in_order in Hb as [Hpre Hrb].
  assert (Hh : exists handler, tt = tb ++ handler /\
                 map fst handler = option_list (handler_call rb)).
  { destruct rb as [|[e|a|]].
    - injection Htry as <- <- <-. exists []. by rewrite app_nil_r.
    - destruct (do Clogging_e sb) as [[sh th] rh] eqn:Hh.
      injection Htry as <- <- <-. apply do_inv in Hh as ->. by eexists.
    - destruct (do Clogging_w sb) as [[sh th] rh] eqn:Hh.
      injection Htry as <- <- <-. apply do_inv in Hh as ->. by eexists.
    - injection Htry as <- <- <-. exists []. by rewrite app_nil_r. }
  destruct Hh as (handler & -> & Hhandler).
  exists tb, rb, handler, r0. by rewrite <- app_assoc.
Qed.

End Run.

(** ** An application to run *)

Lemma logoption_result_witness :
  exists logger_config',
    logoption_loop "host" "wha" ∅ = Ok logger_config' /\
    logger_config' !! "filemode" = Some (CStr "a") /\
    logger_config' !! "filesuffix" = Some (CStr "-host") /\
    logger_config' !! "filelog" = None.
Proof.
  eexists. split; [reflexivity|].
  destruct (logoption_result "host" "wha" ∅ _ eq_refl) as (Hm & Hl & Hs & _).
  split; [exact Hm|]. split; [exact Hs | exact Hl].
Defined.

(** A process whose parts outside the model do nothing. *)
Definition demo_state : @State unit :=
  {| class_config := AppLogger_config; process := tt |}.

Definition demo_config (dir : ConfigItem) : Config :=
  {| debug := CBool false; logdir := dir; logoption := CStr "a";
     loglevel := CInt INFO; quiet := CBool false |}.

(** With the defaults of [App.configure] the log directory is
    [basedir + '/logs'], which is not empty: the call raises TypeError, and
    the dict of the class, whose log directory was None, now holds that
    directory. *)
Lemma preprocess_needs_empty_logdir_witness :
  exists logger_config,
    _preprocess "host" (fun _ => ret tt) (fun _ => ret tt)
      (demo_config (CStr "/srv/app/logs")) demo_state
    = (configured_state logger_config demo_state, Raise TypeError) /\
    class_config (configured_state logger_config demo_state) !! "logdir"
      = Some (CStr "/srv/app/logs") /\
    class_config demo_state !! "logdir" = Some CNone.
Proof.
  destruct (preprocess_needs_empty_logdir "host" (fun _ => ret tt) (fun _ => ret tt)
              (demo_config (CStr "/srv/app/logs")) demo_state)
    as (_ & _ & _ & _ & _ & Hdir).
  destruct (Hdir eq_refl eq_refl "a" eq_refl eq_refl eq_refl)
    as (cfg & e & Hrun & _ & _ & _ & Hcdir & He).
  assert (Hfmt : class_config demo_state !! "datefmt" = Some (CStr DATE_FORMAT))
    by (vm_compute; reflexivity).
  rewrite (He _ Hfmt) in Hrun.
  exists cfg. split; [exact Hrun|]. split; [exact Hcdir|]. vm_compute. reflexivity.
Defined.

(** Without a log directory the call gets through. *)
Example demo_preprocess_without_logdir :
  snd (_preprocess "host" (fun _ => ret tt) (fun _ => ret tt)
         (demo_config CNone) demo_state) = Ok tt /\
  snd (_preprocess "host" (fun _ => ret tt) (fun _ => ret tt)
         (demo_config (CStr "")) demo_state) = Ok tt.
Proof. vm_compute. done. Qed.

(** The command raises while it is processed. *)
Definition demo_call (c : Call) (n : nat) : nat * Outcome :=
  (S n, match c with
        | C_process => Raised (Exception (UserError 3))
        | _ => Returned
        end).

Lemma run_exits_with_status_0_witness :
  exists s' t,
    run demo_call 0%nat = (s', t, Raised (SystemExit (ExitStatus 0))) /\
    Raised (SystemExit (ExitStatus 0)) <> Returned /\
    map fst t =
      [Cconfigure; C_parse_args; Csignal_SIGINT; Csignal_SIGTERM; Cumask;
       C_get_instance; C_initialize; C_preprocess; C_process;
       Clogging_e; Clogger_finalize].
Proof.
  eexists _, _. split; [reflexivity|]. split; [|reflexivity].
  exact (proj1 (run_exits_with_status_0 demo_call 0%nat _ _ _ eq_refl)).
Defined.


End App.
